(** * sec: a local encrypted secret vault (Go)

    A shallow embedding of the vault engine of the [sec] command line tool:
    static key management ([getOrCreateStaticKey]), authenticated encryption
    of the whole secret map ([encryptStore], [decryptStore]), the vault file
    ([loadStore], [saveStore]), plaintext export and import, PIN gating
    ([requirePIN], [setPIN]) and the cobra commands built from them; and of
    the small program that picks addresses out of [tailscale.json].

    Conventions.
    - A Go [string] is a [string] (a sequence of 8-bit characters); a Go
      [[]byte] is a [list ascii].  [SecretStore], Go's [map[string]string],
      is a [gmap string string].  A nil map and an empty map are both [∅]:
      they differ only in that assigning into a nil map panics, and in that
      a nil map is written as the JSON [null].  The one nil store the
      program can meet is what [Unmarshal] makes of [null]; statements
      about an assignment into the loaded store exclude it ([assignable]).
    - Fallible Go functions return a [result]; effects (files, the random
      source, the terminal) are threaded through a [World] by the [IO] monad.
    - The libraries the program links against are modelled apart from the
      program: [encoding/json] and [unicode/utf8] concretely (module [json]),
      [chacha20poly1305] and [bcrypt] as interfaces ([AEAD], [Bcrypt]). *)

From Stdlib Require Import ZArith NArith Ascii String List Lia.
From stdpp Require Import base option list gmap strings sorting.

Local Open Scope N_scope.

(** ** Bytes *)

Abbreviation bytes := (list ascii).

Definition bv (b : ascii) : N := N_of_ascii b.
Definition byte (n : N) : ascii := ascii_of_N n.

Definition in_range (lo hi : N) (b : ascii) : bool :=
  (lo <=? bv b) && (bv b <=? hi).

Definition dquote : ascii := "034"%char.
Definition bslash : ascii := "\"%char.

(** [[]byte(s)] and [string(b)]. *)
Definition bytes_of (s : string) : bytes := list_ascii_of_string s.
Definition string_of (b : bytes) : string := string_of_list_ascii b.

(** ** Errors

    Every [error] value the program creates or receives from a library,
    with the message Go's [Error()] gives for it (for an error of the
    operating system or of a library, the part of the message that names
    the failure). *)

Inductive error : Type :=
| ErrBadKeyLength        (* chacha20poly1305.NewX *)
| ErrCiphertextTooShort  (* decryptStore *)
| ErrOpen                (* cipher.AEAD.Open *)
| ErrJSON                (* json.Unmarshal: *SyntaxError or *UnmarshalTypeError *)
| ErrKeyFileLength       (* getOrCreateStaticKey *)
| ErrNotExist            (* *PathError, ENOENT *)
| ErrPermission          (* *PathError, EACCES *)
| ErrWrite               (* *PathError from a failed write or close *)
| ErrEntropy             (* crypto/rand *)
| ErrInput               (* a failed read from the terminal *)
| ErrEOF                 (* io.EOF *)
| ErrPasswordTooLong     (* bcrypt.GenerateFromPassword *)
| ErrIncorrectPIN        (* sec.go requirePIN *)
| ErrTooManyAttempts     (* store.go requirePIN *)
| ErrNoInput.            (* log.Fatalf("No input") *)

Definition Error (e : error) : string :=
  match e with
  | ErrBadKeyLength => "chacha20poly1305: bad key length"
  | ErrCiphertextTooShort => "invalid ciphertext: too short"
  | ErrOpen => "chacha20poly1305: message authentication failed"
  | ErrJSON => "json: cannot unmarshal"
  | ErrKeyFileLength => "invalid key file length"
  | ErrNotExist => "no such file or directory"
  | ErrPermission => "permission denied"
  | ErrWrite => "write failed"
  | ErrEntropy => "crypto/rand: read failed"
  | ErrInput => "input failed"
  | ErrEOF => "EOF"
  | ErrPasswordTooLong => "bcrypt: password length exceeds 72 bytes"
  | ErrIncorrectPIN => "incorrect PIN"
  | ErrTooManyAttempts => "too many incorrect attempts"
  | ErrNoInput => "No input"
  end.

Inductive result (A : Type) : Type :=
| Ok (a : A)
| Err (e : error).
Arguments Ok {A} a.
Arguments Err {A} e.

Definition is_Ok {A} (r : result A) : bool :=
  match r with Ok _ => true | Err _ => false end.

(** ** unicode/utf8 and encoding/json, for [map[string]string] *)

Module json.

(** What the first byte of a UTF-8 sequence announces (the [first] and
    [acceptRanges] tables of unicode/utf8). *)
Inductive lead : Type :=
| LAscii
| LInvalid
| LSeq (size : nat) (lo hi : N).

Definition first (b : ascii) : lead :=
  let n := bv b in
  if n <? 0x80 then LAscii
  else if n <? 0xC2 then LInvalid
  else if n <? 0xE0 then LSeq 2 0x80 0xBF
  else if n =? 0xE0 then LSeq 3 0xA0 0xBF
  else if n =? 0xED then LSeq 3 0x80 0x9F
  else if n <? 0xF0 then LSeq 3 0x80 0xBF
  else if n =? 0xF0 then LSeq 4 0x90 0xBF
  else if n <? 0xF4 then LSeq 4 0x80 0xBF
  else if n =? 0xF4 then LSeq 4 0x80 0x8F
  else LInvalid.

Definition cont (b : ascii) : bool := in_range 0x80 0xBF b.

(** [utf8.DecodeRune], by bytes: the encoding of the first rune of [s] and
    what follows it, or [None] where Go returns [(RuneError, 1)]. *)
Definition DecodeRune (s : bytes) : option (bytes * bytes) :=
  match s with
  | [] => None
  | b1 :: s1 =>
    match first b1 with
    | LAscii => Some ([b1], s1)
    | LInvalid => None
    | LSeq n lo hi =>
      match s1 with
      | b2 :: s2 =>
        if negb (in_range lo hi b2) then None
        else if (n =? 2)%nat then Some ([b1; b2], s2)
        else match s2 with
        | b3 :: s3 =>
          if negb (cont b3) then None
          else if (n =? 3)%nat then Some ([b1; b2; b3], s3)
          else match s3 with
          | b4 :: s4 =>
            if negb (cont b4) then None else Some ([b1; b2; b3; b4], s4)
          | [] => None
          end
        | [] => None
        end
      | [] => None
      end
    end
  end.

(** A string cut the way a Go loop over [DecodeRune] walks it. *)
Inductive chunk : Type :=
| Rune (enc : bytes)
| BadByte (b : ascii).

Fixpoint runes_go (fuel : nat) (s : bytes) : list chunk :=
  match fuel, s with
  | S fuel, b :: s1 =>
    match DecodeRune s with
    | Some (c, rest) => Rune c :: runes_go fuel rest
    | None => BadByte b :: runes_go fuel s1
    end
  | _, _ => []
  end.

Definition runes (s : bytes) : list chunk := runes_go (length s) s.

(** U+FFFD, the replacement character, in UTF-8. *)
Definition replacement : bytes := [byte 0xEF; byte 0xBF; byte 0xBD].

Definition chunk_valid (c : chunk) : bytes :=
  match c with Rune enc => enc | BadByte _ => replacement end.

(** [strings.ToValidUTF8] with U+FFFD as the replacement: what both
    [Marshal] and [Unmarshal] coerce a string to. *)
Definition ToValidUTF8 (s : bytes) : bytes := flat_map chunk_valid (runes s).

Definition is_rune (c : chunk) : bool :=
  match c with Rune _ => true | BadByte _ => false end.

(** [utf8.Valid]. *)
Definition Valid (s : bytes) : bool := forallb is_rune (runes s).

Definition ValidString (s : string) : bool := Valid (bytes_of s).

(** *** Encoding a string ([appendString] with [escapeHTML]) *)

Definition hex_digit (n : N) : ascii :=
  if n <? 10 then byte (bv "0" + n) else byte (bv "a" + (n - 10)).

(** [htmlSafeSet]: the ASCII characters written as they are. *)
Definition htmlSafe (b : ascii) : bool :=
  (0x20 <=? bv b) && (bv b <? 0x80) &&
  negb (Ascii.eqb b dquote || Ascii.eqb b bslash ||
        Ascii.eqb b "<" || Ascii.eqb b ">" || Ascii.eqb b "&").

Definition escape_ascii (b : ascii) : bytes :=
  if htmlSafe b then [b]
  else if Ascii.eqb b bslash || Ascii.eqb b dquote then [bslash; b]
  else if bv b =? 0x08 then [bslash; "b"%char]
  else if bv b =? 0x0C then [bslash; "f"%char]
  else if bv b =? 0x0A then [bslash; "n"%char]
  else if bv b =? 0x0D then [bslash; "r"%char]
  else if bv b =? 0x09 then [bslash; "t"%char]
  else [bslash; "u"%char; "0"%char; "0"%char;
        hex_digit (N.shiftr (bv b) 4); hex_digit (N.land (bv b) 0xF)].

Definition line_sep : bytes := [byte 0xE2; byte 0x80; byte 0xA8].
Definition para_sep : bytes := [byte 0xE2; byte 0x80; byte 0xA9].

Definition escape_chunk (c : chunk) : bytes :=
  match c with
  | BadByte _ => bslash :: list_ascii_of_string "ufffd"
  | Rune [b] => escape_ascii b
  | Rune enc =>
    if decide (enc = line_sep) then bslash :: list_ascii_of_string "u2028"
    else if decide (enc = para_sep) then bslash :: list_ascii_of_string "u2029"
    else enc
  end.

Definition appendString (s : string) : bytes :=
  dquote :: flat_map escape_chunk (runes (bytes_of s)) ++ [dquote].

(** *** Encoding a map: keys sorted, [{"k":"v",...}] *)

Definition key_le (a b : string * string) : Prop := String.le a.1 b.1.

#[local] Instance key_le_dec : RelDecision key_le.
Proof. intros a b. unfold key_le. apply _. Defined.

Definition sorted_entries (m : gmap string string) : list (string * string) :=
  merge_sort key_le (map_to_list m).

Definition member (kv : string * string) : bytes :=
  appendString kv.1 ++ ":"%char :: appendString kv.2.

Fixpoint members (kvs : list (string * string)) : bytes :=
  match kvs with
  | [] => []
  | [kv] => member kv
  | kv :: rest => member kv ++ ","%char :: members rest
  end.

Definition Marshal (m : gmap string string) : bytes :=
  "{"%char :: members (sorted_entries m) ++ ["}"%char].

(** *** Indented encoding ([MarshalIndent])

    [Marshal]'s output as [Indent] lays it out: every member on a line of
    its own that starts with [prefix] and one [indent] for each level of
    nesting, a space after the colon, the closing brace on a line of its
    own; an object without members stays [{}].  Strings are not touched. *)

(** [appendNewline]. *)
Definition indent_newline (prefix indent : string) (depth : nat) : bytes :=
  "010"%char :: bytes_of prefix ++ concat (replicate depth (bytes_of indent)).

Definition member_indent (kv : string * string) : bytes :=
  appendString kv.1 ++ ":"%char :: " "%char :: appendString kv.2.

(** Items written one after the other, a comma and [sep] between two. *)
Fixpoint items_indent (sep : bytes) (items : list bytes) : bytes :=
  match items with
  | [] => []
  | [item] => item
  | item :: rest => item ++ ","%char :: sep ++ items_indent sep rest
  end.

Definition MarshalIndent (m : gmap string string) (prefix indent : string) : bytes :=
  match sorted_entries m with
  | [] => ["{"%char; "}"%char]
  | kvs =>
    "{"%char :: indent_newline prefix indent 1 ++
    items_indent (indent_newline prefix indent 1) (map member_indent kvs) ++
    indent_newline prefix indent 0 ++ ["}"%char]
  end.

(** A [[]string]; [None] is the nil slice, which is written [null]. *)
Definition MarshalIndent_strings (s : option (list string)) (prefix indent : string) : bytes :=
  match s with
  | None => bytes_of "null"
  | Some [] => ["["%char; "]"%char]
  | Some l =>
    "["%char :: indent_newline prefix indent 1 ++
    items_indent (indent_newline prefix indent 1) (map appendString l) ++
    indent_newline prefix indent 0 ++ ["]"%char]
  end.

(** *** Decoding a string literal (the scanner and [unquote]) *)

Definition hexval (c : ascii) : option N :=
  if in_range (bv "0") (bv "9") c then Some (bv c - bv "0")
  else if in_range (bv "a") (bv "f") c then Some (bv c - bv "a" + 10)
  else if in_range (bv "A") (bv "F") c then Some (bv c - bv "A" + 10)
  else None.

(** [getu4]: the rune of a [\uXXXX] at the head of [s], and what follows. *)
Definition getu4 (s : bytes) : option (N * bytes) :=
  match s with
  | b :: u :: h1 :: h2 :: h3 :: h4 :: rest =>
    if Ascii.eqb b bslash && Ascii.eqb u "u" then
      match hexval h1, hexval h2, hexval h3, hexval h4 with
      | Some a, Some b, Some c, Some d =>
        Some (((a * 16 + b) * 16 + c) * 16 + d, rest)
      | _, _, _, _ => None
      end
    else None
  | _ => None
  end.

(** [utf8.EncodeRune]. *)
Definition EncodeRune (r : N) : bytes :=
  if r <? 0x80 then [byte r]
  else if r <? 0x800 then
    [byte (N.lor 0xC0 (N.shiftr r 6)); byte (N.lor 0x80 (N.land r 0x3F))]
  else if (0xD800 <=? r) && (r <? 0xE000) || (0x10FFFF <? r) then replacement
  else if r <? 0x10000 then
    [byte (N.lor 0xE0 (N.shiftr r 12));
     byte (N.lor 0x80 (N.land (N.shiftr r 6) 0x3F));
     byte (N.lor 0x80 (N.land r 0x3F))]
  else
    [byte (N.lor 0xF0 (N.shiftr r 18));
     byte (N.lor 0x80 (N.land (N.shiftr r 12) 0x3F));
     byte (N.lor 0x80 (N.land (N.shiftr r 6) 0x3F));
     byte (N.lor 0x80 (N.land r 0x3F))].

Definition IsSurrogate (r : N) : bool := (0xD800 <=? r) && (r <? 0xE000).

(** [utf16.DecodeRune]: the rune of a surrogate pair, U+FFFD when the two
    halves are no pair. *)
Definition utf16_DecodeRune (r1 r2 : N) : N :=
  if (0xD800 <=? r1) && (r1 <? 0xDC00) && (0xDC00 <=? r2) && (r2 <? 0xE000)
  then N.lor (N.shiftl (r1 - 0xD800) 10) (r2 - 0xDC00) + 0x10000
  else 0xFFFD.

Definition simple_escape (e : ascii) : option ascii :=
  if Ascii.eqb e dquote || Ascii.eqb e bslash || Ascii.eqb e "/" then Some e
  else if Ascii.eqb e "b" then Some (byte 0x08)
  else if Ascii.eqb e "f" then Some (byte 0x0C)
  else if Ascii.eqb e "n" then Some (byte 0x0A)
  else if Ascii.eqb e "r" then Some (byte 0x0D)
  else if Ascii.eqb e "t" then Some (byte 0x09)
  else None.

Definition emit (out : bytes) (r : option (bytes * bytes)) : option (bytes * bytes) :=
  match r with
  | Some (d, rest) => Some (out ++ d, rest)
  | None => None
  end.

(** The body of a string literal, from after its opening quote: the decoded
    string and what follows the closing quote.  A raw control character, an
    unknown escape or a missing closing quote is a syntax error; a byte
    sequence that is not UTF-8 and an unpaired surrogate become U+FFFD.
    ([utf8.EncodeRune] of a decoded rune gives its bytes back, so a valid
    sequence is copied.) *)
Fixpoint unquote_go (fuel : nat) (s : bytes) : option (bytes * bytes) :=
  match fuel with
  | O => None
  | S fuel =>
    match s with
    | [] => None
    | c :: s1 =>
      if Ascii.eqb c dquote then Some ([], s1)
      else if Ascii.eqb c bslash then
        match s1 with
        | [] => None
        | e :: s2 =>
          if Ascii.eqb e "u" then
            match getu4 s with
            | None => None
            | Some (rr, r1) =>
              if IsSurrogate rr then
                match getu4 r1 with
                | Some (rr1, r2) =>
                  if utf16_DecodeRune rr rr1 =? 0xFFFD
                  then emit replacement (unquote_go fuel r1)
                  else emit (EncodeRune (utf16_DecodeRune rr rr1)) (unquote_go fuel r2)
                | None => emit replacement (unquote_go fuel r1)
                end
              else emit (EncodeRune rr) (unquote_go fuel r1)
            end
          else
            match simple_escape e with
            | Some b => emit [b] (unquote_go fuel s2)
            | None => None
            end
        end
      else if bv c <? 0x20 then None
      else
        match DecodeRune s with
        | Some (enc, rest) => emit enc (unquote_go fuel rest)
        | None => emit replacement (unquote_go fuel s1)
        end
    end
  end.

Definition parse_string (s : bytes) : option (string * bytes) :=
  match s with
  | c :: s1 =>
    if Ascii.eqb c dquote then
      match unquote_go (length s1) s1 with
      | Some (d, rest) => Some (string_of d, rest)
      | None => None
      end
    else None
  | [] => None
  end.

(** *** Decoding an object into a [map[string]string] *)

Definition is_space (c : ascii) : bool :=
  Ascii.eqb c " " || Ascii.eqb c (byte 0x09) ||
  Ascii.eqb c (byte 0x0D) || Ascii.eqb c (byte 0x0A).

Fixpoint skip_ws (s : bytes) : bytes :=
  match s with
  | c :: s1 => if is_space c then skip_ws s1 else s
  | [] => []
  end.

(** A map element: a string, or [null], which leaves the element the empty
    string.  Any other value is refused (an [UnmarshalTypeError], or a
    [SyntaxError] when it is malformed). *)
Definition parse_value (s : bytes) : option (string * bytes) :=
  match s with
  | "n"%char :: "u"%char :: "l"%char :: "l"%char :: rest => Some (EmptyString, rest)
  | _ => parse_string s
  end.

(** The members of an object, from its first key. *)
Fixpoint members_go (fuel : nat) (s : bytes) : option (list (string * string) * bytes) :=
  match fuel with
  | O => None
  | S fuel =>
    match parse_string s with
    | None => None
    | Some (k, s1) =>
      match skip_ws s1 with
      | c :: s2 =>
        if negb (Ascii.eqb c ":") then None else
        match parse_value (skip_ws s2) with
        | None => None
        | Some (v, s3) =>
          match skip_ws s3 with
          | d :: s4 =>
            if Ascii.eqb d "," then
              match members_go fuel (skip_ws s4) with
              | Some (kvs, r) => Some ((k, v) :: kvs, r)
              | None => None
              end
            else if Ascii.eqb d "}" then Some ([(k, v)], s4)
            else None
          | [] => None
          end
        end
      | [] => None
      end
    end
  end.

(** The members of an object, from after its opening brace. *)
Definition object (s : bytes) : option (list (string * string) * bytes) :=
  match skip_ws s with
  | c :: r =>
    if Ascii.eqb c "}" then Some ([], r) else members_go (length (c :: r)) (c :: r)
  | [] => None
  end.

(** Members are stored in the order read: a repeated key keeps its last value. *)
Definition store_all (kvs : list (string * string)) : gmap string string :=
  fold_left (fun m kv => <[kv.1 := kv.2]> m) kvs ∅.

(** [json.Unmarshal(data, &store)] for a nil [store]. *)
Definition Unmarshal (data : bytes) : result (gmap string string) :=
  match skip_ws data with
  | "{"%char :: s =>
    match object s with
    | Some (kvs, r) =>
      match skip_ws r with
      | [] => Ok (store_all kvs)
      | _ :: _ => Err ErrJSON
      end
    | None => Err ErrJSON
    end
  | "n"%char :: "u"%char :: "l"%char :: "l"%char :: r =>
    match skip_ws r with
    | [] => Ok ∅
    | _ :: _ => Err ErrJSON
    end
  | _ => Err ErrJSON
  end.

(** The documents that [Unmarshal] reads as a nil map. *)
Definition is_null (data : bytes) : bool :=
  match skip_ws data with
  | "n"%char :: "u"%char :: "l"%char :: "l"%char :: _ => true
  | _ => false
  end.

(** *** What a string and a map come back as *)

(** A Go string as it reads after [Marshal] and [Unmarshal]. *)
Definition toValid (s : string) : string := string_of (ToValidUTF8 (bytes_of s)).

Definition coerce (kv : string * string) : string * string :=
  (toValid kv.1, toValid kv.2).

(** Every name and every value of [m] is valid UTF-8. *)
Definition ValidStore (m : gmap string string) : bool :=
  forallb (fun kv => ValidString kv.1 && ValidString kv.2) (map_to_list m).

(** Two notions for the proofs: the bytes a chunk stands for, and a chunk
    [DecodeRune] finds again whatever follows it. *)
Definition chunk_raw (c : chunk) : bytes :=
  match c with Rune enc => enc | BadByte b => [b] end.

Definition wf_chunk (c : chunk) : Prop :=
  match c with
  | Rune enc => enc <> [] /\ forall t, DecodeRune (enc ++ t) = Some (enc, t)
  | BadByte _ => True
  end.

(** [P] holds of the [n] numbers from [start] on. *)
Fixpoint all_from (P : N -> bool) (start : N) (n : nat) : bool :=
  match n with
  | O => true
  | S n => P start && all_from P (N.succ start) n
  end.

(** [b1] announces a sequence of [n] bytes that [b2] may continue. *)
Definition leads (n : nat) (b1 b2 : ascii) : bool :=
  match first b1 with
  | LSeq m lo hi => (m =? n)%nat && in_range lo hi b2
  | _ => false
  end.

(** The two leading bytes [EncodeRune] writes for a rune of [n] bytes, from
    the rune's bits above the last [n - 2] groups of six. *)
Definition lead_bytes (n : nat) (mark : N) (i : N) : bool :=
  leads n (byte (N.lor mark (N.shiftr i 6))) (byte (N.lor 0x80 (N.land i 0x3F))).

End json.

(** ** The world the program runs in

    Files with their permission bits, the process umask, the bytes the
    system random source will deliver, how the coming writes go, the lines
    typed at the terminal (each read takes one), and what has been
    printed.  Paths are plain names: there are no directories. *)

Record File : Type := mkFile { f_mode : N; f_data : bytes }.

Inductive input : Type :=
| Line (s : string)
| InputError.

(** How a write goes once the file is open: to the end, cut short after
    [n] bytes (a full disk, an I/O error), or to the end with a close that
    reports an error. *)
Inductive fault : Type :=
| NoFault
| ShortWrite (n : nat)
| CloseFails.

Record World : Type := mkWorld {
  w_umask : N;
  w_files : gmap string File;
  w_entropy : bytes;
  w_faults : list fault;
  w_stdin : list input;
  w_stdout : list string;
}.

Definition set_files (fs : gmap string File) (w : World) : World :=
  mkWorld (w_umask w) fs (w_entropy w) (w_faults w) (w_stdin w) (w_stdout w).
Definition set_entropy (e : bytes) (w : World) : World :=
  mkWorld (w_umask w) (w_files w) e (w_faults w) (w_stdin w) (w_stdout w).
Definition set_faults (fl : list fault) (w : World) : World :=
  mkWorld (w_umask w) (w_files w) (w_entropy w) fl (w_stdin w) (w_stdout w).
Definition set_stdin (i : list input) (w : World) : World :=
  mkWorld (w_umask w) (w_files w) (w_entropy w) (w_faults w) i (w_stdout w).
Definition set_stdout (o : list string) (w : World) : World :=
  mkWorld (w_umask w) (w_files w) (w_entropy w) (w_faults w) (w_stdin w) o.

(** ** The IO monad: state and errors

    [Err e] is a returned [error]; in a command's [Run] it is the error
    handed to [log.Fatal], which ends the process. *)

Definition IO (A : Type) : Type := World -> result A * World.

Definition ret {A} (a : A) : IO A := fun w => (Ok a, w).
Definition fail {A} (e : error) : IO A := fun w => (Err e, w).
Definition lift {A} (r : result A) : IO A := fun w => (r, w).

Definition bind {A B} (c : IO A) (k : A -> IO B) : IO B :=
  fun w =>
    match c w with
    | (Ok a, w1) => k a w1
    | (Err e, w1) => (Err e, w1)
    end.

(** [if v, err := c; err == nil { k v } else { h err }]. *)
Definition handle {A B} (c : IO A) (k : A -> IO B) (h : error -> IO B) : IO B :=
  fun w =>
    match c w with
    | (Ok a, w1) => k a w1
    | (Err e, w1) => h e w1
    end.

Notation "x <- c ;; k" := (bind c (fun x => k))
  (at level 20, c at level 99, k at level 200, only parsing).

(** ** os, io/ioutil, crypto/rand, fmt and the terminal *)

Definition owner_read (f : File) : bool := N.testbit (f_mode f) 8.
Definition owner_write (f : File) : bool := N.testbit (f_mode f) 7.

Definition os_IsNotExist (e : error) : bool :=
  match e with ErrNotExist => true | _ => false end.

Definition ioutil_ReadFile (path : string) : IO bytes :=
  fun w =>
    match w_files w !! path with
    | None => (Err ErrNotExist, w)
    | Some f => if owner_read f then (Ok (f_data f), w) else (Err ErrPermission, w)
    end.

(** [os.ReadFile], which [ioutil.ReadFile] calls. *)
Definition os_ReadFile : string -> IO bytes := ioutil_ReadFile.

(** What [f.Write(data)] and [f.Close()] leave in a file opened with
    [O_TRUNC], and the error they report. *)
Definition written (fl : fault) (data : bytes) : bytes * result unit :=
  match fl with
  | NoFault => (data, Ok tt)
  | ShortWrite n =>
    if (length data <=? n)%nat then (data, Ok tt) else (take n data, Err ErrWrite)
  | CloseFails => (data, Err ErrWrite)
  end.

(** [ioutil.WriteFile]: open with [O_WRONLY|O_CREATE|O_TRUNC] (a new file
    gets [perm] less the umask, an existing one keeps its mode and must be
    writable), write, close.  There is no temporary file and no rename. *)
Definition ioutil_WriteFile (path : string) (data : bytes) (perm : N) : IO unit :=
  fun w =>
    let mode :=
      match w_files w !! path with
      | Some f => if owner_write f then Some (f_mode f) else None
      | None => Some (N.ldiff perm (w_umask w))
      end in
    match mode with
    | None => (Err ErrPermission, w)
    | Some m =>
      let '(content, r) := written (hd NoFault (w_faults w)) data in
      (r, set_faults (tl (w_faults w)) (set_files (<[path := mkFile m content]> (w_files w)) w))
    end.

(** [rand.Read(b)] for a [b] of [n] bytes. *)
Definition rand_Read (n : nat) : IO bytes :=
  fun w =>
    if (n <=? length (w_entropy w))%nat
    then (Ok (take n (w_entropy w)), set_entropy (drop n (w_entropy w)) w)
    else (Err ErrEntropy, w).

Definition fmt_Print (s : string) : IO unit :=
  fun w => (Ok tt, set_stdout (w_stdout w ++ [s]) w).

Definition newline : string := String "010"%char EmptyString.

Definition fmt_Println (s : string) : IO unit := fmt_Print (s +:+ newline).

(** [term.ReadPassword]: one line, not echoed; the end of the input is
    [io.EOF]. *)
Definition term_ReadPassword : IO string :=
  fun w =>
    match w_stdin w with
    | Line s :: rest => (Ok s, set_stdin rest w)
    | InputError :: rest => (Err ErrInput, set_stdin rest w)
    | [] => (Err ErrEOF, w)
    end.

(** A fresh [bufio.Scanner] on the terminal after one [Scan()]: a token
    ([Scan] true, [Text()]), or [Scan] false with [Err()] nil at the end of
    the input and non-nil after a failed read. *)
Inductive scanned : Type :=
| Token (text : string)
| EndOfInput
| ScanError (err : error).

Definition scanner_Scan : IO scanned :=
  fun w =>
    match w_stdin w with
    | Line s :: rest => (Ok (Token s), set_stdin rest w)
    | InputError :: rest => (Ok (ScanError ErrInput), set_stdin rest w)
    | [] => (Ok EndOfInput, w)
    end.

(** ** The libraries taken as interfaces *)

(** [cipher.AEAD] as [chacha20poly1305.NewX(key)] returns it, with no
    additional data: [aead_Seal key nonce plaintext] is the ciphertext with
    its tag, [aead_Open key nonce ciphertext] the plaintext when the tag
    verifies.  The cipher itself is not modelled; what is assumed of it is
    said where it is used ([AEAD_correct], [AEAD_refuses_wrong_key]). *)
Class AEAD : Type := {
  aead_Seal : bytes -> bytes -> bytes -> bytes;
  aead_Open : bytes -> bytes -> bytes -> option bytes;
}.

Definition KeySize : nat := 32.
Definition NonceSizeX : nat := 24.

(** What an AEAD promises of its own ciphertexts. *)
Definition AEAD_correct `{AEAD} : Prop :=
  forall key nonce plaintext,
    length key = KeySize -> length nonce = NonceSizeX ->
    aead_Open key nonce (aead_Seal key nonce plaintext) = Some plaintext.


Definition chacha20poly1305_NewX (key : bytes) : result bytes :=
  if (length key =? KeySize)%nat then Ok key else Err ErrBadKeyLength.

(** [bcrypt]: [bcrypt_hash salt password] is [GenerateFromPassword] once the
    salt is drawn ([Err] for a password it refuses), [bcrypt_matches hash
    password] is [CompareHashAndPassword(hash, password) == nil]. *)
Class Bcrypt : Type := {
  bcrypt_hash : bytes -> bytes -> result bytes;
  bcrypt_matches : bytes -> bytes -> bool;
}.

Definition saltSize : nat := 16.

Definition bcrypt_GenerateFromPassword `{Bcrypt} (password : bytes) : IO bytes :=
  salt <- rand_Read saltSize ;;
  lift (bcrypt_hash salt password).

(** The platform: [os.UserHomeDir()], [filepath.Join], and the order in
    which a [range] walks a map (unspecified in Go). *)
Class Platform : Type := {
  UserHomeDir : string;
  filepath_Join : string -> string -> string;
  map_range : gmap string string -> list string;
}.

(** A [range] visits every key once. *)
Definition range_visits_keys `{Platform} : Prop :=
  forall m : gmap string string, map_range m ≡ₚ (map_to_list m).*1.

(** ** The vault: sec.go (its two copies agree on everything in this section) *)

Abbreviation SecretStore := (gmap string string).

Definition defaultSecretsFile : string := "~/.sec.enc".
Definition pinKey : string := "__meta__pin_hash".

(** [0600]. *)
Definition perm_rw_owner : N := 0x180.

Fixpoint for_each {A} (l : list A) (body : A -> IO unit) : IO unit :=
  match l with
  | [] => ret tt
  | a :: l' => _ <- body a ;; for_each l' body
  end.

Section Vault.
Context `{Platform} `{AEAD}.

Definition expandPath (p : string) : string :=
  match p with
  | String c rest => if Ascii.eqb c "~" then filepath_Join UserHomeDir rest else p
  | EmptyString => p
  end.

Definition getOrCreateStaticKey : IO bytes :=
  let keyPath := expandPath "~/.sec.key" in
  handle (ioutil_ReadFile keyPath)
    (fun data =>
       if (length data =? 32)%nat then ret data else fail ErrKeyFileLength)
    (fun err =>
       if os_IsNotExist err then
         key <- rand_Read 32 ;;
         _ <- ioutil_WriteFile keyPath key perm_rw_owner ;;
         ret key
       else fail err).

Definition encryptStore (store : SecretStore) (key : bytes) : IO bytes :=
  aead <- lift (chacha20poly1305_NewX key) ;;
  let plaintext := json.Marshal store in
  nonce <- rand_Read NonceSizeX ;;
  let ciphertext := nonce ++ aead_Seal aead nonce plaintext in
  ret ciphertext.

Definition decryptStore (data : bytes) (key : bytes) : result SecretStore :=
  match chacha20poly1305_NewX key with
  | Err err => Err err
  | Ok aead =>
    if (length data <? NonceSizeX)%nat then Err ErrCiphertextTooShort
    else
      let nonce := take NonceSizeX data in
      let ciphertext := drop NonceSizeX data in
      match aead_Open aead nonce ciphertext with
      | None => Err ErrOpen
      | Some plaintext => json.Unmarshal plaintext
      end
  end.

Definition loadStore (path : string) (key : bytes) : IO SecretStore :=
  handle (ioutil_ReadFile path)
    (fun data => lift (decryptStore data key))
    (fun err => if os_IsNotExist err then ret ∅ else fail err).

Definition saveStore (path : string) (store : SecretStore) (key : bytes) : IO unit :=
  data <- encryptStore store key ;;
  ioutil_WriteFile path data perm_rw_owner.

(** *** The commands both copies share *)

Definition setCmd (fileFlag : string) (name value : string) : IO unit :=
  key <- getOrCreateStaticKey ;;
  store <- loadStore (expandPath fileFlag) key ;;
  let store := <[name := value]> store in
  _ <- saveStore (expandPath fileFlag) store key ;;
  fmt_Println "Secret set.".

Definition getCmd (fileFlag : string) (name : string) : IO unit :=
  key <- getOrCreateStaticKey ;;
  store <- loadStore (expandPath fileFlag) key ;;
  fmt_Println (default EmptyString (store !! name)).

Definition deleteCmd (fileFlag : string) (name : string) : IO unit :=
  key <- getOrCreateStaticKey ;;
  store <- loadStore (expandPath fileFlag) key ;;
  let store := delete name store in
  _ <- saveStore (expandPath fileFlag) store key ;;
  fmt_Println "Secret deleted.".

Definition listCmd (fileFlag : string) : IO unit :=
  key <- getOrCreateStaticKey ;;
  store <- loadStore (expandPath fileFlag) key ;;
  for_each (map_range store)
    (fun k => if negb (String.eqb k pinKey) then fmt_Println k else ret tt).

End Vault.

(** ** store.go *)

Module Store.
Section Store.
Context `{Bcrypt}.

Definition SecretStoreFile : string := "~/.sec.enc".

Definition promptPIN (prompt : string) : IO string :=
  _ <- fmt_Print prompt ;;
  handle term_ReadPassword
    (fun bytePIN => _ <- fmt_Println EmptyString ;; ret bytePIN)
    (fun err => _ <- fmt_Println EmptyString ;; fail err).

Definition setPIN (store : SecretStore) : IO SecretStore :=
  pin <- promptPIN "Enter new PIN: " ;;
  hash <- bcrypt_GenerateFromPassword (bytes_of pin) ;;
  ret (<[pinKey := string_of hash]> store).

Definition maxAttempts : nat := 3.

(** The loop of [requirePIN] with [n] rounds left. *)
Fixpoint attempts (n : nat) (hash : string) : IO unit :=
  match n with
  | O => fail ErrTooManyAttempts
  | S n =>
    pin <- promptPIN "Enter PIN: " ;;
    if bcrypt_matches (bytes_of hash) (bytes_of pin) then ret tt
    else _ <- fmt_Println "Incorrect PIN." ;; attempts n hash
  end.

Definition requirePIN (store : SecretStore) : IO unit :=
  match store !! pinKey with
  | None => ret tt
  | Some hash => attempts maxAttempts hash
  end.

End Store.
End Store.

(** ** sec.go, the copy with the PIN commands *)

Module Sec.
Section Sec.
Context `{Platform} `{AEAD} `{Bcrypt}.

Definition promptPIN : IO string :=
  _ <- fmt_Print "Enter PIN: " ;;
  r <- scanner_Scan ;;
  match r with
  | Token text => ret text
  | ScanError err => fail err
  | EndOfInput => ret EmptyString
  end.

Definition requirePIN (store : SecretStore) : IO unit :=
  match store !! pinKey with
  | None => ret tt
  | Some hash =>
    pin <- promptPIN ;;
    if bcrypt_matches (bytes_of hash) (bytes_of pin) then ret tt
    else fail ErrIncorrectPIN
  end.

(** [exportPlaintext] and [importPlaintext] have no caller.  (For a nil
    [store], which is not told from an empty one here, [MarshalIndent]
    writes [null]; [Unmarshal] reads [null] back as a nil map.) *)
Definition exportPlaintext (store : SecretStore) : IO unit :=
  let data := json.MarshalIndent store EmptyString "  " in
  fmt_Println (string_of data).

Definition importPlaintext (path : string) : IO SecretStore :=
  data <- ioutil_ReadFile path ;;
  lift (json.Unmarshal data).

(** The hook of the root command.  It assigns to [fileFlag], the variable
    every [Run] reads afterwards: its value after the hook is returned. *)
Definition PersistentPreRunE (fileFlag : string) : IO string :=
  let fileFlag :=
    if String.eqb fileFlag EmptyString then defaultSecretsFile else fileFlag in
  key <- getOrCreateStaticKey ;;
  store <- loadStore (expandPath fileFlag) key ;;
  _ <- requirePIN store ;;
  ret fileFlag.

Definition setPinCmd (fileFlag : string) : IO unit :=
  key <- getOrCreateStaticKey ;;
  store <- loadStore (expandPath fileFlag) key ;;
  match store !! pinKey with
  | Some _ => fmt_Println "PIN already set. Use change-pin or remove-pin instead."
  | None =>
    _ <- fmt_Print "Enter new PIN: " ;;
    r <- scanner_Scan ;;
    match r with
    | Token pin =>
      hash <- bcrypt_GenerateFromPassword (bytes_of pin) ;;
      let store := <[pinKey := string_of hash]> store in
      _ <- saveStore (expandPath fileFlag) store key ;;
      fmt_Println "PIN set."
    | _ => fail ErrNoInput
    end
  end.

Definition changePinCmd (fileFlag : string) : IO unit :=
  key <- getOrCreateStaticKey ;;
  store <- loadStore (expandPath fileFlag) key ;;
  _ <- requirePIN store ;;
  _ <- fmt_Print "Enter new PIN: " ;;
  r <- scanner_Scan ;;
  match r with
  | Token pin =>
    hash <- bcrypt_GenerateFromPassword (bytes_of pin) ;;
    let store := <[pinKey := string_of hash]> store in
    _ <- saveStore (expandPath fileFlag) store key ;;
    fmt_Println "PIN changed."
  | _ => fail ErrNoInput
  end.

Definition removePinCmd (fileFlag : string) : IO unit :=
  key <- getOrCreateStaticKey ;;
  store <- loadStore (expandPath fileFlag) key ;;
  _ <- requirePIN store ;;
  let store := delete pinKey store in
  _ <- saveStore (expandPath fileFlag) store key ;;
  fmt_Println "PIN removed.".

(** A parsed command line, as cobra hands it to the matching [Run]. *)
Inductive command : Type :=
| CmdSet (name value : string)
| CmdGet (name : string)
| CmdDelete (name : string)
| CmdList
| CmdSetPin
| CmdChangePin
| CmdRemovePin.

Definition Run (fileFlag : string) (c : command) : IO unit :=
  match c with
  | CmdSet name value => setCmd fileFlag name value
  | CmdGet name => getCmd fileFlag name
  | CmdDelete name => deleteCmd fileFlag name
  | CmdList => listCmd fileFlag
  | CmdSetPin => setPinCmd fileFlag
  | CmdChangePin => changePinCmd fileFlag
  | CmdRemovePin => removePinCmd fileFlag
  end.

(** [rootCmd.Execute()]: the root's [PersistentPreRunE] and then the
    command's [Run]; an error of the hook keeps the command from running. *)
Definition Execute (fileFlag : string) (c : command) : IO unit :=
  fileFlag <- PersistentPreRunE fileFlag ;;
  Run fileFlag c.

End Sec.
End Sec.

(** ** The copy at version 0.1.1: no PIN commands, three attempts

    Its [promptPIN] and [requirePIN] are those of store.go word for word. *)

Module Sec011.
Section Sec011.
Context `{Platform} `{AEAD} `{Bcrypt}.

Definition version : string := "0.1.1".

(** [fmt.Println] puts a space between its operands. *)
Definition versionCmd : IO unit :=
  fmt_Println ("sec version" +:+ " " +:+ version).

Definition PersistentPreRunE (fileFlag : string) : IO unit :=
  key <- getOrCreateStaticKey ;;
  store <- loadStore (expandPath fileFlag) key ;;
  match store !! pinKey with
  | Some _ => Store.requirePIN store
  | None => ret tt
  end.

Inductive command : Type :=
| CmdSet (name value : string)
| CmdGet (name : string)
| CmdDelete (name : string)
| CmdList
| CmdVersion.

Definition Run (fileFlag : string) (c : command) : IO unit :=
  match c with
  | CmdSet name value => setCmd fileFlag name value
  | CmdGet name => getCmd fileFlag name
  | CmdDelete name => deleteCmd fileFlag name
  | CmdList => listCmd fileFlag
  | CmdVersion => versionCmd
  end.

Definition Execute (fileFlag : string) (c : command) : IO unit :=
  _ <- PersistentPreRunE fileFlag ;;
  Run fileFlag c.

End Sec011.
End Sec011.

(** ** The address picker (the first program of the repository)

    It reads [tailscale.json], takes the first address of every device
    tagged [tag:sec] and prints them as an indented JSON array.  An error is
    handed to [panic]: [Err e] here.  [json.Unmarshal] into the [Devices]
    struct is taken as an interface. *)

Module Tailscale.

Record Device : Type := mkDevice {
  Addresses : list string;
  Tags : list string;
}.

Record Devices : Type := mkDevices { Devices_ : list Device }.

Class DevicesJSON : Type := {
  Unmarshal_Devices : bytes -> result Devices;
}.

(** [append(result, a)]: the nil slice is [None]. *)
Definition append (result : option (list string)) (a : string) : option (list string) :=
  Some (default [] result ++ [a]).

(** The loop over [d.Tags], from [tags] on: it stops at the first tag that
    is [tag:sec], if [d] has an address. *)
Fixpoint range_tags (d : Device) (tags : list string)
    (result : option (list string)) : option (list string) :=
  match tags with
  | [] => result
  | tag :: tags' =>
    if String.eqb tag "tag:sec" && (0 <? length (Addresses d))%nat
    then append result (nth 0 (Addresses d) EmptyString)
    else range_tags d tags' result
  end.

(** The loop over [devices.Devices]. *)
Fixpoint range_devices (ds : list Device)
    (result : option (list string)) : option (list string) :=
  match ds with
  | [] => result
  | d :: ds' => range_devices ds' (range_tags d (Tags d) result)
  end.

Definition main `{DevicesJSON} : IO unit :=
  data <- os_ReadFile "tailscale.json" ;;
  devices <- lift (Unmarshal_Devices data) ;;
  let result := range_devices (Devices_ devices) None in
  let out := json.MarshalIndent_strings result EmptyString "  " in
  fmt_Println (string_of out).

(** What the loops are to collect: the first address of each device that
    carries the tag and has an address. *)
Definition tagged (d : Device) : list string :=
  if decide ("tag:sec" ∈ Tags d) then take 1 (Addresses d) else [].

Definition to_slice (l : list string) : option (list string) :=
  match l with [] => None | _ => Some l end.

End Tailscale.

(** ** Notions the statements use *)

(** The key file is in place and the vault at [fileFlag] decrypts under it
    to [store] (the empty map when there is no vault file yet). *)
Definition opens `{Platform} `{AEAD}
    (fileFlag : string) (w : World) (key : bytes) (store : SecretStore) : Prop :=
  getOrCreateStaticKey w = (Ok key, w) /\
  loadStore (expandPath fileFlag) key w = (Ok store, w).

(** The names [listCmd] prints for [store], in the order it prints them. *)
Definition listed `{Platform} (store : SecretStore) : list string :=
  List.filter (fun k => negb (String.eqb k pinKey)) (map_range store).

(** What [k] failed rounds of store.go's [requirePIN] print. *)
Fixpoint failed_rounds (k : nat) : list string :=
  match k with
  | O => []
  | S k => ["Enter PIN: "; newline; "Incorrect PIN." +:+ newline] ++ failed_rounds k
  end.

(** The coming write of [data] goes through to the end. *)
Definition write_completes (w : World) (data : bytes) : Prop :=
  written (hd NoFault (w_faults w)) data = (data, Ok tt).

(** No group or other permission bit ([0077]) is set. *)
Definition owner_only (mode : N) : Prop := N.land mode 0x3F = 0.

(** The vault at [fileFlag] can be saved and read again: it is not the key
    file, the file in place may be written (a new one will be readable),
    the random source has a nonce left and the coming write is not cut
    short. *)
Definition saves `{Platform} (fileFlag : string) (w : World) : Prop :=
  expandPath fileFlag <> expandPath "~/.sec.key" /\
  (24 <= length (w_entropy w))%nat /\
  hd NoFault (w_faults w) = NoFault /\
  match w_files w !! expandPath fileFlag with
  | Some f => owner_write f = true
  | None => N.testbit (w_umask w) 8 = false
  end.

(** The store that [loadStore] returns for the vault at [fileFlag] is a map
    one can assign into: there is no vault file (the store is made afresh),
    or the file does not hold the JSON [null]. *)
Definition assignable `{Platform} `{AEAD}
    (fileFlag : string) (w : World) (key : bytes) : Prop :=
  match w_files w !! expandPath fileFlag with
  | None => True
  | Some f =>
    match aead_Open key (take NonceSizeX (f_data f)) (drop NonceSizeX (f_data f)) with
    | Some plaintext => json.is_null plaintext = false
    | None => True
    end
  end.

(** [key] is what a readable key file of 32 bytes holds. *)
Definition key_in_place `{Platform} (key : bytes) (w : World) : Prop :=
  exists f, w_files w !! expandPath "~/.sec.key" = Some f /\
    owner_read f = true /\ f_data f = key /\ length key = 32%nat.

(** [c] keeps [I], however it ends. *)
Definition preserves {A} (I : World -> Prop) (c : IO A) : Prop :=
  forall w, I w -> I (snd (c w)).

(** [I] looks at the files only. *)
Definition of_files (I : World -> Prop) : Prop :=
  forall w w', w_files w' = w_files w -> I w -> I w'.

(** One invocation of sec.go after the other, each on what the one before
    left. *)
Definition session `{Platform} `{AEAD} `{Bcrypt}
    (fileFlag : string) (cs : list Sec.command) (w : World) : World :=
  fold_left (fun w c => snd (Sec.Execute fileFlag c w)) cs w.

(** The same for the copy at version 0.1.1. *)
Definition session011 `{Platform} `{AEAD} `{Bcrypt}
    (fileFlag : string) (cs : list Sec011.command) (w : World) : World :=
  fold_left (fun w c => snd (Sec011.Execute fileFlag c w)) cs w.

(** What store.go's [requirePIN] prints. *)
Definition chatter : list string :=
  ["Enter PIN: "; newline; "Incorrect PIN." +:+ newline].

(** The commands that only read the vault. *)
Definition read_only (c : Sec.command) : bool :=
  match c with
  | Sec.CmdGet _ | Sec.CmdList => true
  | _ => false
  end.

Definition read_only011 (c : Sec011.command) : bool :=
  match c with
  | Sec011.CmdGet _ | Sec011.CmdList | Sec011.CmdVersion => true
  | _ => false
  end.

(** A typed line that the verifier [hash] does not match (a failed read
    counts as one). *)
Definition unmatched `{Bcrypt} (hash : string) (i : input) : Prop :=
  match i with
  | Line p => bcrypt_matches (bytes_of hash) (bytes_of p) = false
  | InputError => True
  end.

(** What [bcrypt] promises: a hash matches the password it was made from. *)
Definition Bcrypt_correct `{Bcrypt} : Prop :=
  forall salt password hash,
    bcrypt_hash salt password = Ok hash -> bcrypt_matches hash password = true.

(** ** Stand-ins for the interfaces

    Small instances on which the model runs: a platform whose paths join by
    concatenation, a sealing that prefixes the key and the nonce, a hash that
    appends the password to the salt.  They are used to evaluate the
    program on examples; nothing is proved of the real ciphers. *)

Module Sim.

#[export] Instance platform : Platform := {|
  UserHomeDir := "/home/u";
  filepath_Join := fun a b => a +:+ b;
  map_range := fun m => (map_to_list m).*1;
|}.

#[export] Instance aead : AEAD := {|
  aead_Seal := fun key nonce plaintext => key ++ nonce ++ plaintext;
  aead_Open := fun key nonce ciphertext =>
    let n := (length key + length nonce)%nat in
    if decide (take n ciphertext = key ++ nonce)
    then Some (drop n ciphertext) else None;
|}.

#[export] Instance bcrypt : Bcrypt := {|
  bcrypt_hash := fun salt password =>
    if (72 <? length password)%nat then Err ErrPasswordTooLong
    else Ok (salt ++ password);
  bcrypt_matches := fun hash password =>
    if decide (drop saltSize hash = password) then true else false;
|}.

(** A first run: no file yet, a umask of [022], some entropy. *)
Definition entropy : bytes :=
  bytes_of "0123456789abcdefghijklmnopqrstuvwxyzABCDEFGHIJKLMNOPQRSTUVWXYZ0123456789abcdefghijklmnopqrstuvwxyzABCDEFGHIJKLMNOPQRSTUVWXYZ0123456789abcdefghijklmnopqrstuvwxyzABCDEFGHIJKLMNOPQRSTUVWXYZ".

Definition fresh : World := mkWorld 0x12 ∅ entropy [] [] [].

Definition after {A} (c : IO A) (w : World) : World := snd (c w).

(** After [sec set db-password s3cr3t]: a key file and a vault without PIN. *)
Definition unlocked : World :=
  after (Sec.Execute EmptyString (Sec.CmdSet "db-password" "s3cr3t")) fresh.

(** After [sec set-pin] with [1234] typed: the vault is PIN-gated. *)
Definition gated : World :=
  after (Sec.Execute EmptyString Sec.CmdSetPin) (set_stdin [Line "1234"] unlocked).

Definition key : bytes := take 32 entropy.

Definition secrets : SecretStore := {[ "db-password" := "s3cr3t" ]}.

Definition verifier : string := string_of (take 16 (drop 56 entropy) ++ bytes_of "1234").

Definition gated_secrets : SecretStore := <[ pinKey := verifier ]> secrets.

Definition vault : string := expandPath defaultSecretsFile.

(** A value that is not UTF-8: the single byte [0xFF]. *)
Definition garbled : SecretStore := {[ "note" := String (byte 255) EmptyString ]}.

(** The vault in place, and a device that takes no more bytes. *)
Definition disk_full : World := set_faults [ShortWrite 0] unlocked.

(** A key file one byte short. *)
Definition short_key : World :=
  set_files (<[expandPath "~/.sec.key" := mkFile perm_rw_owner (take 31 entropy)]> ∅) fresh.


(** Someone who does not know the PIN types [0000]. *)
Definition intruder : World := set_stdin [Line "0000"] gated.

(** The owner types the PIN and then a new one. *)
Definition owner : World := set_stdin [Line "1234"; Line "4321"] gated.

(** [w] with [lines] typed at the terminal. *)
Definition typed (lines : list string) (w : World) : World :=
  set_stdin (map Line lines) w.

(** The vault of [unlocked] made readable by everyone ([0644]), and the
    vault file after a save on top of it. *)
Definition lax : World :=
  set_files (alter (fun f => mkFile 0x1A4 (f_data f)) vault (w_files unlocked)) unlocked.

Definition resaved : File :=
  default (mkFile 0 []) (w_files (after (saveStore vault secrets key) lax) !! vault).

(** What [garbled] is sealed to, and the store that comes out of it. *)
Definition garbled_vault : bytes :=
  match fst (encryptStore garbled key fresh) with Ok data => data | Err _ => [] end.

Definition mended : SecretStore :=
  {[ "note" := string_of json.replacement ]}.

(** The verifier [change-pin] writes when the owner types [4321]. *)
Definition verifier2 : bytes := take 16 (drop 96 entropy) ++ bytes_of "4321".

(** A device list, and a decoder that knows the one file that holds it. *)
Definition tailnet : Tailscale.Devices :=
  Tailscale.mkDevices
    [ Tailscale.mkDevice ["100.64.0.1"; "fd7a::1"] ["tag:web"; "tag:sec"; "tag:sec"];
      Tailscale.mkDevice [] ["tag:sec"];
      Tailscale.mkDevice ["100.64.0.3"] ["tag:db"];
      Tailscale.mkDevice ["100.64.0.4"] ["tag:sec"] ].

Definition tailscale_json : bytes := bytes_of "(the bytes of tailscale.json)".

#[export] Instance devices_json : Tailscale.DevicesJSON := {|
  Tailscale.Unmarshal_Devices := fun data =>
    if decide (data = tailscale_json) then Ok tailnet else Err ErrJSON;
|}.

Definition with_tailnet : World :=
  set_files (<["tailscale.json" := mkFile 0x1A4 tailscale_json]> ∅) fresh.

End Sim.

(** * Facts

    ** encoding/json: what [Unmarshal] reads back from [Marshal] *)

Module json_facts.
Import json.


Ltac each_byte b := destruct b as [[] [] [] [] [] [] [] []].



Lemma DecodeRune_Some s c rest :
  DecodeRune s = Some (c, rest) ->
  s = c ++ rest /\ c <> [] /\ forall t, DecodeRune (c ++ t) = Some (c, t).
Proof.
  unfold DecodeRune.
  destruct s as [|b1 s1]; [discriminate|].
  destruct (first b1) as [| |n lo hi] eqn:Hf.
  - intros [= <- <-]. cbn. rewrite Hf. auto.
  - discriminate.
  - destruct s1 as [|b2 s2]; [discriminate|].
    destruct (negb (in_range lo hi b2)) eqn:H2; [discriminate|].
    destruct (n =? 2)%nat eqn:Hn2.
    { intros [= <- <-]. cbn. rewrite Hf, H2, Hn2. auto. }
    destruct s2 as [|b3 s3]; [discriminate|].
    destruct (negb (cont b3)) eqn:H3; [discriminate|].
    destruct (n =? 3)%nat eqn:Hn3.
    { intros [= <- <-]. cbn. rewrite Hf, H2, Hn2, H3, Hn3. auto. }
    destruct s3 as [|b4 s4]; [discriminate|].
    destruct (negb (cont b4)) eqn:H4; [discriminate|].
    intros [= <- <-]. cbn. rewrite Hf, H2, Hn2, H3, Hn3, H4. auto.
Qed.

Lemma runes_go_fuel fuel : forall fuel' s,
  (length s <= fuel)%nat -> (length s <= fuel')%nat ->
  runes_go fuel s = runes_go fuel' s.
Proof.
  induction fuel as [|fuel IH]; intros fuel' s H1 H2.
  - destruct s; [|cbn in H1; lia]. destruct fuel'; reflexivity.
  - destruct s as [|b s1]; [destruct fuel'; reflexivity|].
    destruct fuel' as [|fuel']; [cbn in H2; lia|].
    cbn [runes_go]. cbn in H1, H2.
    destruct (DecodeRune (b :: s1)) as [[c rest]|] eqn:Hd.
    + apply DecodeRune_Some in Hd as (Hs & Hc & _).
      assert (length rest <= length s1)%nat.
      { apply (f_equal (@length _)) in Hs. rewrite length_app in Hs. cbn in Hs.
        destruct c; [congruence|]. cbn in Hs. lia. }
      f_equal. apply IH; lia.
    + f_equal. apply IH; lia.
Qed.

Lemma runes_nil : runes [] = [].
Proof. reflexivity. Qed.

Lemma runes_step b s1 :
  runes (b :: s1) =
  match DecodeRune (b :: s1) with
  | Some (c, rest) => Rune c :: runes rest
  | None => BadByte b :: runes s1
  end.
Proof.
  unfold runes. cbn [length runes_go].
  destruct (DecodeRune (b :: s1)) as [[c rest]|] eqn:Hd; [|reflexivity].
  f_equal. apply runes_go_fuel; [|lia].
  apply DecodeRune_Some in Hd as (Hs & Hc & _).
  apply (f_equal (@length _)) in Hs. rewrite length_app in Hs. cbn in Hs.
  destruct c; [congruence|]. cbn in Hs. lia.
Qed.

(** Induction along the runes of a string. *)
Lemma runes_ind (P : bytes -> Prop) :
  P [] ->
  (forall c rest, DecodeRune (c ++ rest) = Some (c, rest) -> c <> [] -> P rest -> P (c ++ rest)) ->
  (forall b s1, DecodeRune (b :: s1) = None -> P s1 -> P (b :: s1)) ->
  forall s, P s.
Proof.
  intros Hnil Hrune Hbad s.
  remember (length s) as n eqn:Hn. revert s Hn.
  induction n as [n IH] using lt_wf_ind. intros s ->.
  destruct s as [|b s1]; [exact Hnil|].
  destruct (DecodeRune (b :: s1)) as [[c rest]|] eqn:Hd.
  - pose proof Hd as Hd'. apply DecodeRune_Some in Hd' as (Hs & Hc & _).
    rewrite Hs. apply Hrune; [rewrite <- Hs; exact Hd|exact Hc|].
    apply (IH (length rest)); [|reflexivity].
    rewrite Hs, length_app. destruct c; [congruence|]. cbn. lia.
  - apply Hbad; [exact Hd|]. apply (IH (length s1)); [cbn; lia|reflexivity].
Qed.

Lemma runes_rune c rest :
  DecodeRune (c ++ rest) = Some (c, rest) -> c <> [] ->
  runes (c ++ rest) = Rune c :: runes rest.
Proof.
  intros Hd Hc. destruct c as [|b c']; [congruence|].
  cbn [app] in *. rewrite runes_step, Hd. reflexivity.
Qed.

Lemma runes_bad b s1 :
  DecodeRune (b :: s1) = None -> runes (b :: s1) = BadByte b :: runes s1.
Proof. intros Hd. rewrite runes_step, Hd. reflexivity. Qed.

Lemma runes_wf s : Forall wf_chunk (runes s).
Proof.
  induction s as [|c rest Hd Hc IH|b s1 Hd IH] using runes_ind.
  - constructor.
  - rewrite runes_rune by assumption. constructor; [|exact IH].
    split; [exact Hc|]. apply DecodeRune_Some in Hd. tauto.
  - rewrite runes_bad by assumption. constructor; [exact I|exact IH].
Qed.

Lemma runes_raw s : flat_map chunk_raw (runes s) = s.
Proof.
  induction s as [|c rest Hd Hc IH|b s1 Hd IH] using runes_ind.
  - reflexivity.
  - rewrite runes_rune by assumption. cbn. by rewrite IH.
  - rewrite runes_bad by assumption. cbn. by rewrite IH.
Qed.

Lemma Valid_ToValidUTF8 s : Valid s = true -> ToValidUTF8 s = s.
Proof.
  unfold Valid, ToValidUTF8. intros Hv.
  rewrite <- (runes_raw s) at 2.
  induction (runes s) as [|c cs IH]; [reflexivity|].
  cbn in Hv. apply andb_prop in Hv as [Hc Hcs].
  cbn. rewrite IH by assumption. destruct c; [reflexivity|discriminate].
Qed.


Lemma unquote_ascii b X fuel :
  first b = LAscii ->
  unquote_go (S fuel) (escape_ascii b ++ X) = emit [b] (unquote_go fuel X).
Proof.
  intros Hb.
  each_byte b; try (vm_compute in Hb; discriminate Hb); reflexivity.
Qed.

Lemma first_seq_plain b n lo hi :
  first b = LSeq n lo hi ->
  Ascii.eqb b dquote = false /\ Ascii.eqb b bslash = false /\ (bv b <? 0x20) = false.
Proof.
  intros Hb. each_byte b; try (vm_compute in Hb; discriminate Hb); repeat split; reflexivity.
Qed.

Lemma unquote_replacement b X fuel :
  unquote_go (S fuel) (escape_chunk (BadByte b) ++ X) = emit replacement (unquote_go fuel X).
Proof. reflexivity. Qed.

Lemma unquote_rune c X fuel :
  wf_chunk (Rune c) ->
  unquote_go (S fuel) (escape_chunk (Rune c) ++ X) = emit c (unquote_go fuel X).
Proof.
  intros [Hc Hd].
  destruct c as [|b1 [|b2 c']]; [congruence| |].
  - cbn [escape_chunk]. apply unquote_ascii.
    specialize (Hd []). cbn in Hd. destruct (first b1); [reflexivity|discriminate..].
  - cbn [escape_chunk].
    destruct (decide (b1 :: b2 :: c' = line_sep)) as [->|_]; [reflexivity|].
    destruct (decide (b1 :: b2 :: c' = para_sep)) as [->|_]; [reflexivity|].
    assert (exists n lo hi, first b1 = LSeq n lo hi) as (n & lo & hi & Hf).
    { specialize (Hd []). cbn in Hd. destruct (first b1); [discriminate Hd..|eauto]. }
    apply first_seq_plain in Hf as (H1 & H2 & H3).
    pose proof (Hd X) as HdX.
    cbn [app] in *. cbn [unquote_go]. rewrite H1, H2, H3, HdX. reflexivity.
Qed.

Lemma unquote_chunks cs : forall tail fuel,
  Forall wf_chunk cs -> (length cs < fuel)%nat ->
  unquote_go fuel (flat_map escape_chunk cs ++ dquote :: tail) =
  Some (flat_map chunk_valid cs, tail).
Proof.
  induction cs as [|c cs IH]; intros tail fuel Hwf Hlen.
  - destruct fuel; [lia|]. reflexivity.
  - destruct fuel as [|fuel]; [lia|]. cbn in Hlen.
    apply Forall_cons in Hwf as [Hc Hcs].
    cbn [flat_map]. rewrite <- app_assoc.
    destruct c as [enc|b].
    + rewrite unquote_rune by exact Hc. rewrite IH by (auto; lia). reflexivity.
    + rewrite unquote_replacement. rewrite IH by (auto; lia). reflexivity.
Qed.

Lemma escape_chunk_length c : wf_chunk c -> (1 <= length (escape_chunk c))%nat.
Proof.
  destruct c as [enc|b]; [|cbn; lia].
  intros [Hc _]. destruct enc as [|b1 [|b2 c']]; [congruence| |].
  - cbn. unfold escape_ascii.
    repeat match goal with |- context [if ?c then _ else _] => destruct c end; cbn; lia.
  - cbn [escape_chunk]. repeat case_decide; cbn; lia.
Qed.

Lemma escape_chunks_length cs :
  Forall wf_chunk cs -> (length cs <= length (flat_map escape_chunk cs))%nat.
Proof.
  induction 1 as [|c cs Hc _ IH]; [cbn; lia|].
  cbn. rewrite length_app. pose proof (escape_chunk_length c Hc). lia.
Qed.


Lemma parse_string_appendString s tail :
  parse_string (appendString s ++ tail) = Some (toValid s, tail).
Proof.
  unfold appendString, parse_string. cbn [app].
  assert (Ascii.eqb dquote dquote = true) as -> by reflexivity.
  rewrite <- app_assoc. cbn [app].
  pose proof (runes_wf (bytes_of s)) as Hwf.
  rewrite unquote_chunks; [reflexivity|exact Hwf|].
  rewrite length_app. cbn. pose proof (escape_chunks_length _ Hwf). lia.
Qed.



Lemma appendString_head s : exists r, appendString s = dquote :: r.
Proof. unfold appendString. eauto. Qed.

Lemma skip_ws_dquote r : skip_ws (dquote :: r) = dquote :: r.
Proof. reflexivity. Qed.

Lemma skip_ws_appendString s X : skip_ws (appendString s ++ X) = appendString s ++ X.
Proof. destruct (appendString_head s) as [r ->]. reflexivity. Qed.

Lemma parse_value_appendString s tail :
  parse_value (appendString s ++ tail) = Some (toValid s, tail).
Proof.
  rewrite <- parse_string_appendString.
  destruct (appendString_head s) as [r ->]. reflexivity.
Qed.

Lemma members_head kv rest : exists r, members (kv :: rest) = dquote :: r.
Proof.
  destruct kv as [k v]. destruct (appendString_head k) as [r Hr].
  destruct rest; cbn [members]; unfold member; cbn [fst]; rewrite Hr; cbn [app]; eauto.
Qed.

Lemma skip_ws_members kv rest X :
  skip_ws (members (kv :: rest) ++ X) = members (kv :: rest) ++ X.
Proof. destruct (members_head kv rest) as [r ->]. reflexivity. Qed.

Lemma members_go_member fuel kv X :
  members_go (S fuel) (member kv ++ X) =
  match skip_ws X with
  | d :: s4 =>
    if Ascii.eqb d "," then
      match members_go fuel (skip_ws s4) with
      | Some (kvs, r) => Some (coerce kv :: kvs, r)
      | None => None
      end
    else if Ascii.eqb d "}" then Some ([coerce kv], s4)
    else None
  | [] => None
  end.
Proof.
  unfold member. cbn [members_go].
  rewrite <- app_assoc, parse_string_appendString.
  cbn [app skip_ws is_space]. 
  change (is_space ":") with false. cbn iota.
  change (negb (Ascii.eqb ":" ":")) with false. cbn iota.
  rewrite skip_ws_appendString, parse_value_appendString. reflexivity.
Qed.

Lemma members_go_members kvs : forall fuel tail,
  kvs <> [] -> (length kvs <= fuel)%nat ->
  members_go fuel (members kvs ++ "}"%char :: tail) = Some (map coerce kvs, tail).
Proof.
  induction kvs as [|kv kvs IH]; intros fuel tail Hne Hlen; [congruence|].
  destruct fuel as [|fuel]; [cbn in Hlen; lia|]. cbn in Hlen.
  destruct kvs as [|kv' kvs'].
  - cbn [members]. rewrite members_go_member. reflexivity.
  - change (members (kv :: kv' :: kvs')) with (member kv ++ ","%char :: members (kv' :: kvs')).
    rewrite <- app_assoc. rewrite members_go_member.
    cbn [app skip_ws is_space]. change (is_space ",") with false. cbn iota.
    change (Ascii.eqb "," ",") with true. cbn iota.
    rewrite skip_ws_members.
    rewrite IH by (cbn in *; (congruence || lia)). reflexivity.
Qed.

Lemma members_length kvs : (length kvs <= length (members kvs))%nat.
Proof.
  induction kvs as [|kv kvs IH]; [cbn; lia|].
  assert (1 <= length (member kv))%nat.
  { unfold member. destruct (appendString_head kv.1) as [r ->]. cbn. lia. }
  destruct kvs as [|kv' kvs']; [cbn [members length]; lia|].
  change (members (kv :: kv' :: kvs')) with (member kv ++ ","%char :: members (kv' :: kvs')).
  rewrite length_app. cbn [length] in *. lia.
Qed.

Theorem Unmarshal_Marshal m :
  Unmarshal (Marshal m) = Ok (store_all (map coerce (sorted_entries m))).
Proof.
  unfold Marshal, Unmarshal. cbn [skip_ws is_space].
  change (is_space "{") with false. cbn iota.
  destruct (sorted_entries m) as [|kv kvs] eqn:Hs; [reflexivity|].
  unfold object.
  rewrite skip_ws_members.
  destruct (members_head kv kvs) as [r Hr].
  rewrite Hr at 1. cbn [app].
  change (Ascii.eqb dquote "}") with false. cbn iota.
  change (dquote :: r ++ ["}"%char]) with ((dquote :: r) ++ ["}"%char]).
  rewrite <- Hr.
  rewrite members_go_members; [reflexivity|congruence|].
  rewrite length_app. pose proof (members_length (kv :: kvs)). lia.
Qed.

Lemma store_all_lookup (l : list (string * string)) : forall (acc : gmap string string) k,
  NoDup l.*1 ->
  fold_left (fun m kv => <[kv.1 := kv.2]> m) l acc !! k =
  match (list_to_map l : gmap string string) !! k with
  | Some v => Some v
  | None => acc !! k
  end.
Proof.
  induction l as [|[k0 v0] l IH]; intros acc k Hnd; [reflexivity|].
  cbn [fmap list_fmap fst] in Hnd. apply NoDup_cons in Hnd as [Hk0 Hnd].
  cbn [fold_left fst snd list_to_map foldr]. rewrite IH by exact Hnd.
  change (foldr _ _ l) with (list_to_map l : gmap string string).
  destruct (decide (k = k0)) as [->|Hne].
  - rewrite lookup_insert_eq.
    rewrite (not_elem_of_list_to_map_1 (M:=gmap string)) by exact Hk0.
    by rewrite lookup_insert_eq.
  - rewrite (lookup_insert_ne (list_to_map l)) by congruence.
    destruct (list_to_map l !! k); [reflexivity|].
    by rewrite lookup_insert_ne by congruence.
Qed.

Lemma store_all_sorted m : store_all (sorted_entries m) = m.
Proof.
  assert (sorted_entries m ≡ₚ map_to_list m) as Hp
    by apply merge_sort_Permutation.
  assert (NoDup (sorted_entries m).*1) as Hnd.
  { rewrite Hp. apply NoDup_fst_map_to_list. }
  apply map_eq. intros k. unfold store_all.
  rewrite store_all_lookup by exact Hnd. rewrite lookup_empty.
  rewrite (list_to_map_proper (M:=gmap string) _ _ Hnd Hp).
  rewrite list_to_map_to_list. by destruct (m !! k).
Qed.


Lemma toValid_id s : ValidString s = true -> toValid s = s.
Proof.
  unfold ValidString, toValid. intros H. rewrite Valid_ToValidUTF8 by exact H.
  apply string_of_list_ascii_of_string.
Qed.

Lemma ValidStore_entries m kv :
  ValidStore m = true -> kv ∈ sorted_entries m ->
  ValidString kv.1 = true /\ ValidString kv.2 = true.
Proof.
  unfold ValidStore. intros Hv Hin.
  assert (sorted_entries m ≡ₚ map_to_list m) as Hp by apply merge_sort_Permutation.
  rewrite Hp in Hin. apply list_elem_of_In in Hin.
  rewrite forallb_forall in Hv. apply Hv in Hin. by apply andb_prop in Hin.
Qed.

Theorem Unmarshal_Marshal_valid m :
  ValidStore m = true -> Unmarshal (Marshal m) = Ok m.
Proof.
  intros Hv. rewrite Unmarshal_Marshal. f_equal.
  rewrite <- (store_all_sorted m) at 2. f_equal.
  pose proof (fun kv => ValidStore_entries m kv Hv) as Hall.
  induction (sorted_entries m) as [|kv l IH]; [reflexivity|].
  cbn [map]. rewrite IH by (intros kv' Hin; apply Hall; by right).
  f_equal. destruct (Hall kv) as [Hk Hval]; [by left|].
  unfold coerce. rewrite !toValid_id by assumption. by destruct kv.
Qed.

(** [Unmarshal] has one error. *)
Lemma Unmarshal_error data e : Unmarshal data = Err e -> e = ErrJSON.
Proof.
  unfold Unmarshal.
  repeat match goal with
         | |- context [match ?x with _ => _ end] => destruct x
         end; congruence.
Qed.

(** ** encoding/json: what [Unmarshal] returns is valid UTF-8, and the
    indented form *)

Lemma all_from_spec (P : N -> bool) n : forall start,
  all_from P start n = true ->
  forall r, start <= r -> r < start + N.of_nat n -> P r = true.
Proof.
  induction n as [|n IH]; intros start Hall r Hlo Hhi; [lia|].
  cbn [all_from] in Hall. apply andb_prop in Hall as [H0 Hrest].
  destruct (N.eq_dec r start) as [->|Hne]; [exact H0|].
  apply (IH (N.succ start)); [exact Hrest|lia|lia].
Qed.

Lemma land_low x : N.land x 0x3F < 64.
Proof.
  change 0x3F with (N.ones 6). rewrite N.land_ones.
  apply N.mod_lt. discriminate.
Qed.

Lemma cont_low x : cont (byte (N.lor 0x80 (N.land x 0x3F))) = true.
Proof.
  pose proof (land_low x) as Hx. revert Hx. generalize (N.land x 0x3F). intros y Hy.
  apply (all_from_spec (fun y => cont (byte (N.lor 0x80 y))) 64 0);
    [vm_compute; reflexivity|lia|exact Hy].
Qed.

Lemma first_ascii r : r < 0x80 -> first (byte r) = LAscii.
Proof.
  intros Hr.
  pose proof (all_from_spec
    (fun r => match first (byte r) with LAscii => true | _ => false end) 128 0) as Hall.
  specialize (Hall ltac:(vm_compute; reflexivity) r ltac:(lia) ltac:(exact Hr)).
  cbv beta in Hall. by destruct (first (byte r)).
Qed.

Lemma leads_DecodeRune2 b1 b2 t :
  leads 2 b1 b2 = true -> DecodeRune (b1 :: b2 :: t) = Some ([b1; b2], t).
Proof.
  unfold leads, DecodeRune. destruct (first b1) as [| |m lo hi]; [discriminate..|].
  intros [Hm Hr]%andb_prop. rewrite Hr, Hm. reflexivity.
Qed.

Lemma leads_DecodeRune3 b1 b2 b3 t :
  leads 3 b1 b2 = true -> cont b3 = true ->
  DecodeRune (b1 :: b2 :: b3 :: t) = Some ([b1; b2; b3], t).
Proof.
  unfold leads, DecodeRune. destruct (first b1) as [| |m lo hi]; [discriminate..|].
  intros [Hm Hr]%andb_prop H3. rewrite Hr, H3. apply Nat.eqb_eq in Hm as ->. reflexivity.
Qed.

Lemma leads_DecodeRune4 b1 b2 b3 b4 t :
  leads 4 b1 b2 = true -> cont b3 = true -> cont b4 = true ->
  DecodeRune (b1 :: b2 :: b3 :: b4 :: t) = Some ([b1; b2; b3; b4], t).
Proof.
  unfold leads, DecodeRune. destruct (first b1) as [| |m lo hi]; [discriminate..|].
  intros [Hm Hr]%andb_prop H3 H4. rewrite Hr, H3, H4. apply Nat.eqb_eq in Hm as ->. reflexivity.
Qed.

Ltac divmod := zify; Z.to_euclidean_division_equations; lia.

Lemma shiftr6 r : N.shiftr r 6 = r / 64.
Proof. by rewrite N.shiftr_div_pow2. Qed.

Lemma lead_bytes_checked n mark start count i :
  all_from (lead_bytes n mark) start count = true ->
  start <= i -> i < start + N.of_nat count -> lead_bytes n mark i = true.
Proof. intros Hall. by apply all_from_spec. Qed.

Lemma lead_bytes2 r : 0x80 <= r -> r < 0x800 -> lead_bytes 2 0xC0 r = true.
Proof.
  apply (lead_bytes_checked 2 0xC0 0x80 1920). vm_compute. reflexivity.
Qed.

Lemma lead_bytes3 i :
  0x20 <= i -> i < 0x400 -> i < 0x360 \/ 0x380 <= i -> lead_bytes 3 0xE0 i = true.
Proof.
  intros Hlo Hhi [Hs|Hs].
  - apply (lead_bytes_checked 3 0xE0 0x20 832); [vm_compute; reflexivity|lia|lia].
  - apply (lead_bytes_checked 3 0xE0 0x380 128); [vm_compute; reflexivity|lia|lia].
Qed.

Lemma lead_bytes4 i : 0x10 <= i -> i < 0x110 -> lead_bytes 4 0xF0 i = true.
Proof.
  apply (lead_bytes_checked 4 0xF0 0x10 256). vm_compute. reflexivity.
Qed.

Lemma shiftr12 r : N.shiftr r 12 = N.shiftr (N.shiftr r 6) 6.
Proof. by rewrite N.shiftr_shiftr. Qed.

Lemma shiftr18 r : N.shiftr r 18 = N.shiftr (N.shiftr r 12) 6.
Proof. by rewrite N.shiftr_shiftr. Qed.

(** [utf8.EncodeRune] writes an encoding that [DecodeRune] takes whole. *)
Lemma DecodeRune_EncodeRune r t :
  DecodeRune (EncodeRune r ++ t) = Some (EncodeRune r, t).
Proof.
  unfold EncodeRune.
  destruct (r <? 0x80) eqn:H1.
  { apply N.ltb_lt in H1. cbn [app DecodeRune]. by rewrite first_ascii. }
  destruct (r <? 0x800) eqn:H2.
  { apply N.ltb_ge in H1. apply N.ltb_lt in H2.
    cbn [app]. apply leads_DecodeRune2. by apply lead_bytes2. }
  destruct ((0xD800 <=? r) && (r <? 0xE000) || (0x10FFFF <? r)) eqn:H3; [reflexivity|].
  apply N.ltb_ge in H2.
  apply orb_false_elim in H3 as [Hs Hmax]. apply N.ltb_ge in Hmax.
  destruct (r <? 0x10000) eqn:H4.
  - apply N.ltb_lt in H4. cbn [app].
    apply leads_DecodeRune3; [|apply cont_low].
    rewrite shiftr12. apply lead_bytes3; rewrite shiftr6; [divmod|divmod|].
    apply andb_false_iff in Hs as [Hs|Hs]; [apply N.leb_gt in Hs|apply N.ltb_ge in Hs]; divmod.
  - apply N.ltb_ge in H4. cbn [app].
    apply leads_DecodeRune4; [|apply cont_low|apply cont_low].
    rewrite shiftr18. apply lead_bytes4; rewrite N.shiftr_div_pow2; change (2 ^ 12) with 4096; divmod.
Qed.

Lemma EncodeRune_nonempty r : EncodeRune r <> [].
Proof.
  unfold EncodeRune.
  repeat match goal with |- context [if ?c then _ else _] => destruct c end; discriminate.
Qed.

Lemma Valid_rune c t :
  DecodeRune (c ++ t) = Some (c, t) -> c <> [] -> Valid (c ++ t) = Valid t.
Proof. intros Hd Hc. unfold Valid. by rewrite runes_rune. Qed.

Lemma emit_Some out r d rest :
  emit out r = Some (d, rest) -> exists d', r = Some (d', rest) /\ d = out ++ d'.
Proof. destruct r as [[d' rest']|]; [|discriminate]. intros [= <- <-]. eauto. Qed.

Lemma simple_escape_ascii e b : simple_escape e = Some b -> first b = LAscii.
Proof.
  unfold simple_escape.
  destruct (_ || _) eqn:He.
  { intros [= <-]. apply orb_prop in He as [He|He]; [apply orb_prop in He as [He|He]|];
      apply Ascii.eqb_eq in He as ->; reflexivity. }
  repeat match goal with |- context [if ?c then _ else _] => destruct c end;
    intros [= <-]; reflexivity.
Qed.

(** Whatever [unquote] returns is valid UTF-8. *)
Lemma unquote_go_valid fuel : forall s d rest,
  unquote_go fuel s = Some (d, rest) -> Valid d = true.
Proof.
  induction fuel as [|fuel IH]; intros s d rest; [discriminate|].
  cbn [unquote_go]. destruct s as [|c s1]; [discriminate|].
  destruct (Ascii.eqb c dquote); [by intros [= <- <-]|].
  assert (forall enc r, (forall t, DecodeRune (enc ++ t) = Some (enc, t)) -> enc <> [] ->
            emit enc r = Some (d, rest) ->
            (forall d', r = Some (d', rest) -> Valid d' = true) -> Valid d = true) as Hemit.
  { intros enc r Hd Hne (d' & Hr & ->)%emit_Some Hv.
    rewrite Valid_rune by auto. by apply Hv. }
  assert (forall t, DecodeRune (replacement ++ t) = Some (replacement, t)) as Hrep
    by reflexivity.
  destruct (Ascii.eqb c bslash).
  - destruct s1 as [|e s2]; [discriminate|].
    destruct (Ascii.eqb e "u").
    + destruct (getu4 (c :: e :: s2)) as [[rr r1]|]; [|discriminate].
      destruct (IsSurrogate rr).
      * destruct (getu4 r1) as [[rr1 r2]|].
        -- destruct (utf16_DecodeRune rr rr1 =? 0xFFFD); intros He.
           ++ apply (Hemit _ _ Hrep ltac:(discriminate) He). intros d'. apply IH.
           ++ apply (Hemit _ _ (DecodeRune_EncodeRune _) (EncodeRune_nonempty _) He).
              intros d'. apply IH.
        -- intros He. apply (Hemit _ _ Hrep ltac:(discriminate) He). intros d'. apply IH.
      * intros He. apply (Hemit _ _ (DecodeRune_EncodeRune _) (EncodeRune_nonempty _) He).
        intros d'. apply IH.
    + destruct (simple_escape e) as [b|] eqn:Hb; [|discriminate].
      apply simple_escape_ascii in Hb. intros He.
      apply (Hemit [b] _) in He; [exact He| |discriminate|intros d'; apply IH].
      intros t. cbn. by rewrite Hb.
  - destruct (bv c <? 0x20); [discriminate|].
    destruct (DecodeRune (c :: s1)) as [[enc rest']|] eqn:Hd; intros He.
    + apply DecodeRune_Some in Hd as (_ & Hne & Hd).
      apply (Hemit _ _ Hd Hne He). intros d'. apply IH.
    + apply (Hemit _ _ Hrep ltac:(discriminate) He). intros d'. apply IH.
Qed.

Lemma parse_string_valid s str rest :
  parse_string s = Some (str, rest) -> ValidString str = true.
Proof.
  unfold parse_string. destruct s as [|c s1]; [discriminate|].
  destruct (Ascii.eqb c dquote); [|discriminate].
  destruct (unquote_go _ _) as [[d r]|] eqn:Hu; [|discriminate].
  intros [= <- <-]. unfold ValidString, bytes_of, string_of.
  rewrite list_ascii_of_string_of_list_ascii. by apply unquote_go_valid in Hu.
Qed.

Lemma parse_value_valid s str rest :
  parse_value s = Some (str, rest) -> ValidString str = true.
Proof.
  unfold parse_value.
  repeat match goal with
         | |- context [match ?x with _ => _ end] => destruct x
         end; try apply parse_string_valid; by intros [= <- <-].
Qed.

Lemma ValidStore_spec (m : gmap string string) :
  ValidStore m = true <->
  forall k v, m !! k = Some v -> ValidString k = true /\ ValidString v = true.
Proof.
  unfold ValidStore. rewrite forallb_forall. split.
  - intros Hall k v Hkv. apply elem_of_map_to_list, list_elem_of_In in Hkv.
    apply Hall in Hkv. by apply andb_prop in Hkv.
  - intros Hall [k v] Hin. apply list_elem_of_In, elem_of_map_to_list in Hin.
    apply Hall in Hin as [Hk Hv]. cbn [fst snd]. rewrite Hk, Hv. reflexivity.
Qed.

Lemma ValidStore_empty : ValidStore ∅ = true.
Proof. reflexivity. Qed.

Lemma ValidStore_insert (m : gmap string string) k v :
  ValidStore m = true -> ValidString k = true -> ValidString v = true ->
  ValidStore (<[k := v]> m) = true.
Proof.
  rewrite !ValidStore_spec. intros Hm Hk Hv k' v'.
  destruct (decide (k = k')) as [<-|Hne].
  - rewrite lookup_insert_eq. by intros [= <-].
  - rewrite lookup_insert_ne by exact Hne. apply Hm.
Qed.

Lemma ValidStore_delete (m : gmap string string) k :
  ValidStore m = true -> ValidStore (delete k m) = true.
Proof.
  rewrite !ValidStore_spec. intros Hm k' v' Hl.
  apply lookup_delete_Some in Hl as [_ Hl]. by apply Hm in Hl.
Qed.

Lemma members_go_valid fuel : forall s kvs r,
  members_go fuel s = Some (kvs, r) ->
  Forall (fun kv => ValidString kv.1 = true /\ ValidString kv.2 = true) kvs.
Proof.
  induction fuel as [|fuel IH]; intros s kvs r; [discriminate|].
  cbn [members_go].
  destruct (parse_string s) as [[k s1]|] eqn:Hk; [|discriminate].
  apply parse_string_valid in Hk.
  destruct (skip_ws s1) as [|c s2]; [discriminate|].
  destruct (negb (Ascii.eqb c ":")); [discriminate|].
  destruct (parse_value (skip_ws s2)) as [[v s3]|] eqn:Hv; [|discriminate].
  apply parse_value_valid in Hv.
  destruct (skip_ws s3) as [|d s4]; [discriminate|].
  destruct (Ascii.eqb d ",").
  - destruct (members_go fuel (skip_ws s4)) as [[kvs' r']|] eqn:Hm; [|discriminate].
    intros [= <- <-]. constructor; [by split|]. by apply IH in Hm.
  - destruct (Ascii.eqb d "}"); [|discriminate].
    intros [= <- <-]. constructor; [by split|constructor].
Qed.

Lemma store_all_valid kvs :
  Forall (fun kv => ValidString kv.1 = true /\ ValidString kv.2 = true) kvs ->
  ValidStore (store_all kvs) = true.
Proof.
  unfold store_all. generalize (∅ : gmap string string) ValidStore_empty.
  induction kvs as [|[k v] kvs IH]; intros acc Hacc Hall; [exact Hacc|].
  apply Forall_cons in Hall as [[Hk Hv] Hall]. cbn [fold_left].
  apply IH; [|exact Hall]. by apply ValidStore_insert.
Qed.

(** Every store [Unmarshal] returns is valid UTF-8. *)
Theorem Unmarshal_valid data m : Unmarshal data = Ok m -> ValidStore m = true.
Proof.
  unfold Unmarshal.
  destruct (skip_ws data) as [|c s]; [discriminate|].
  assert (forall r : bytes,
    match skip_ws r with [] => Ok ∅ | _ :: _ => Err ErrJSON end = Ok m ->
    ValidStore m = true) as Hnull.
  { intros r. destruct (skip_ws r); [|discriminate]. by intros [= <-]. }
  assert (match object s with
          | Some (kvs, r) =>
            match skip_ws r with [] => Ok (store_all kvs) | _ :: _ => Err ErrJSON end
          | None => Err ErrJSON
          end = Ok m -> ValidStore m = true) as Hobj.
  { unfold object. destruct (skip_ws s) as [|c' r']; [discriminate|].
    destruct (Ascii.eqb c' "}").
    - destruct (skip_ws r'); [|discriminate]. by intros [= <-].
    - destruct (members_go _ _) as [[kvs r]|] eqn:Hm; [|discriminate].
      destruct (skip_ws r); [|discriminate]. intros [= <-].
      apply store_all_valid. by apply members_go_valid in Hm. }
  each_byte c; try discriminate; try exact Hobj.
  repeat match goal with
         | |- context [match ?x with _ => _ end] =>
           match x with
           | skip_ws _ => fail 1
           | _ => destruct x as [|? ?] || each_byte x
           end
         end; try discriminate; try apply Hnull.
Qed.

(** ** [MarshalIndent] and back *)

Lemma skip_ws_spaces l X : forallb is_space l = true -> skip_ws (l ++ X) = skip_ws X.
Proof.
  induction l as [|c l IH]; [reflexivity|].
  cbn [forallb app skip_ws]. intros [Hc Hl]%andb_prop. rewrite Hc. by apply IH.
Qed.

Lemma indent_newline_spaces prefix indent depth :
  forallb is_space (bytes_of prefix) = true ->
  forallb is_space (bytes_of indent) = true ->
  forallb is_space (indent_newline prefix indent depth) = true.
Proof.
  intros Hp Hi. unfold indent_newline. cbn [forallb].
  change (is_space "010") with true. cbn [andb].
  rewrite forallb_app, Hp. cbn [andb].
  induction depth as [|depth IH]; [reflexivity|].
  cbn [replicate concat]. by rewrite forallb_app, Hi, IH.
Qed.

Lemma member_indent_head kv : exists r, member_indent kv = dquote :: r.
Proof.
  unfold member_indent. destruct (appendString_head kv.1) as [r ->]. cbn [app]. eauto.
Qed.

Lemma items_indent_head sep kv kvs :
  exists r, items_indent sep (map member_indent (kv :: kvs)) = dquote :: r.
Proof.
  destruct (member_indent_head kv) as [r Hr].
  destruct kvs; cbn [map items_indent]; rewrite Hr; cbn [app]; eauto.
Qed.

Lemma members_go_member_indent fuel kv X :
  members_go (S fuel) (member_indent kv ++ X) =
  match skip_ws X with
  | d :: s4 =>
    if Ascii.eqb d "," then
      match members_go fuel (skip_ws s4) with
      | Some (kvs, r) => Some (coerce kv :: kvs, r)
      | None => None
      end
    else if Ascii.eqb d "}" then Some ([coerce kv], s4)
    else None
  | [] => None
  end.
Proof.
  unfold member_indent. cbn [members_go].
  rewrite <- app_assoc, parse_string_appendString.
  cbn [app skip_ws is_space].
  change (is_space ":") with false. cbn iota.
  change (negb (Ascii.eqb ":" ":")) with false. cbn iota.
  change (skip_ws (" "%char :: appendString kv.2 ++ X))
    with (skip_ws (appendString kv.2 ++ X)).
  rewrite skip_ws_appendString, parse_value_appendString. reflexivity.
Qed.

Lemma members_go_items sep kvs : forall fuel X tail,
  forallb is_space sep = true ->
  kvs <> [] -> (length kvs <= fuel)%nat ->
  skip_ws X = "}"%char :: tail ->
  members_go fuel (items_indent sep (map member_indent kvs) ++ X) =
  Some (map coerce kvs, tail).
Proof.
  induction kvs as [|kv kvs IH]; intros fuel X tail Hsep Hne Hlen HX; [congruence|].
  destruct fuel as [|fuel]; [cbn in Hlen; lia|]. cbn in Hlen.
  destruct kvs as [|kv' kvs'].
  - cbn [map items_indent]. rewrite members_go_member_indent, HX. reflexivity.
  - change (items_indent sep (map member_indent (kv :: kv' :: kvs')))
      with (member_indent kv ++ ","%char :: sep ++
            items_indent sep (map member_indent (kv' :: kvs'))).
    rewrite <- app_assoc. rewrite members_go_member_indent.
    cbn [app skip_ws is_space]. change (is_space ",") with false. cbn iota.
    change (Ascii.eqb "," ",") with true. cbn iota.
    rewrite <- app_assoc, skip_ws_spaces by exact Hsep.
    destruct (items_indent_head sep kv' kvs') as [r Hr].
    rewrite Hr at 1. cbn [app skip_ws]. change (is_space dquote) with false. cbn iota.
    change (dquote :: r ++ X) with ((dquote :: r) ++ X). rewrite <- Hr.
    rewrite (IH fuel X tail) by (cbn in *; (congruence || lia || assumption)).
    reflexivity.
Qed.

Lemma items_indent_length sep kvs :
  (length kvs <= length (items_indent sep (map member_indent kvs)))%nat.
Proof.
  induction kvs as [|kv kvs IH]; [cbn; lia|].
  assert (1 <= length (member_indent kv))%nat.
  { destruct (member_indent_head kv) as [r ->]. cbn. lia. }
  destruct kvs as [|kv' kvs']; [cbn [map items_indent length]; lia|].
  change (items_indent sep (map member_indent (kv :: kv' :: kvs')))
    with (member_indent kv ++ ","%char :: sep ++
          items_indent sep (map member_indent (kv' :: kvs'))).
  rewrite length_app. cbn [length]. rewrite length_app. cbn [length] in *. lia.
Qed.

(** What [Unmarshal] reads from the indented form, when [prefix] and
    [indent] are white space, whatever white space follows. *)
Theorem Unmarshal_MarshalIndent m prefix indent trailing :
  forallb is_space (bytes_of prefix) = true ->
  forallb is_space (bytes_of indent) = true ->
  forallb is_space trailing = true ->
  Unmarshal (MarshalIndent m prefix indent ++ trailing) =
  Ok (store_all (map coerce (sorted_entries m))).
Proof.
  intros Hp Hi Ht.
  assert (skip_ws trailing = []) as Htr.
  { rewrite <- (app_nil_r trailing). by rewrite skip_ws_spaces. }
  unfold MarshalIndent, Unmarshal.
  destruct (sorted_entries m) as [|kv kvs] eqn:Hs.
  { cbn [app skip_ws is_space]. change (is_space "{") with false. cbn iota.
    unfold object. cbn [skip_ws]. change (is_space "}") with false. cbn iota.
    change (Ascii.eqb "}" "}") with true. cbn iota. by rewrite Htr. }
  pose proof (indent_newline_spaces prefix indent 1 Hp Hi) as H1.
  pose proof (indent_newline_spaces prefix indent 0 Hp Hi) as H0.
  set (sep := indent_newline prefix indent 1) in *.
  set (items := items_indent sep (map member_indent (kv :: kvs))).
  cbn [app skip_ws]. change (is_space "{") with false. cbn iota.
  unfold object. rewrite <- !app_assoc. rewrite skip_ws_spaces by exact H1.
  destruct (items_indent_head sep kv kvs) as [r Hr]. fold items in Hr.
  rewrite Hr at 1. cbn [app skip_ws]. change (is_space dquote) with false. cbn iota.
  change (Ascii.eqb dquote "}") with false. cbn iota.
  match goal with |- context [members_go ?n (dquote :: r ++ ?X)] =>
    change (dquote :: r ++ X) with ((dquote :: r) ++ X); rewrite <- Hr;
    rewrite (members_go_items sep (kv :: kvs) _ X trailing)
  end.
  - by rewrite Htr.
  - exact H1.
  - discriminate.
  - rewrite length_app. pose proof (items_indent_length sep (kv :: kvs)). fold items in H. lia.
  - rewrite skip_ws_spaces by exact H0. reflexivity.
Qed.

Theorem Unmarshal_MarshalIndent_valid m prefix indent trailing :
  forallb is_space (bytes_of prefix) = true ->
  forallb is_space (bytes_of indent) = true ->
  forallb is_space trailing = true ->
  ValidStore m = true ->
  Unmarshal (MarshalIndent m prefix indent ++ trailing) = Ok m.
Proof.
  intros Hp Hi Ht Hv. rewrite Unmarshal_MarshalIndent by assumption.
  rewrite <- (Unmarshal_Marshal m). by apply Unmarshal_Marshal_valid.
Qed.

End json_facts.


(** ** The cipher layer: [encryptStore] and [decryptStore] *)

Local Close Scope N_scope.

Section VaultFacts.
Context `{Platform} `{AEAD}.

Lemma NewX_ok key : length key = 32 -> chacha20poly1305_NewX key = Ok key.
Proof. intros Hk. unfold chacha20poly1305_NewX, KeySize. rewrite Hk. reflexivity. Qed.

Lemma rand_Read_ok n w :
  n <= length (w_entropy w) ->
  rand_Read n w = (Ok (take n (w_entropy w)), set_entropy (drop n (w_entropy w)) w).
Proof. intros Hn. unfold rand_Read. apply Nat.leb_le in Hn. rewrite Hn. reflexivity. Qed.

Lemma encryptStore_ok store key w :
  length key = 32 -> 24 <= length (w_entropy w) ->
  encryptStore store key w =
  (Ok (take 24 (w_entropy w) ++ aead_Seal key (take 24 (w_entropy w)) (json.Marshal store)),
   set_entropy (drop 24 (w_entropy w)) w).
Proof.
  intros Hk He. unfold encryptStore, bind, lift. rewrite NewX_ok by exact Hk.
  unfold NonceSizeX. rewrite rand_Read_ok by exact He. reflexivity.
Qed.

(** [encryptStore] touches nothing but the random source, and whatever it
    returns starts with a whole nonce. *)
Lemma encryptStore_inv store key w r w' :
  encryptStore store key w = (r, w') ->
  w_files w' = w_files w /\ w_faults w' = w_faults w /\
  w_stdin w' = w_stdin w /\ w_stdout w' = w_stdout w /\ w_umask w' = w_umask w /\
  forall data, r = Ok data ->
    length key = 32 /\ 24 <= length (w_entropy w) /\
    data = take 24 (w_entropy w) ++ aead_Seal key (take 24 (w_entropy w)) (json.Marshal store).
Proof.
  unfold encryptStore, bind, lift, chacha20poly1305_NewX, KeySize, NonceSizeX, rand_Read, ret.
  destruct (length key =? 32) eqn:Hk;
    [|intros [= <- <-]; do 5 (split; [reflexivity|]); discriminate].
  destruct (24 <=? length (w_entropy w)) eqn:He; intros [= <- <-]; cbn;
    do 5 (split; [reflexivity|]); [|discriminate].
  intros data [= <-]. apply Nat.eqb_eq in Hk. apply Nat.leb_le in He. auto.
Qed.

Lemma decryptStore_sealed key nonce ciphertext :
  length key = 32 -> length nonce = 24 ->
  decryptStore (nonce ++ ciphertext) key =
  match aead_Open key nonce ciphertext with
  | None => Err ErrOpen
  | Some plaintext => json.Unmarshal plaintext
  end.
Proof.
  intros Hk Hn. unfold decryptStore. rewrite NewX_ok by exact Hk.
  unfold NonceSizeX.
  assert ((length (nonce ++ ciphertext) <? 24) = false) as ->.
  { apply Nat.ltb_ge. rewrite length_app. lia. }
  rewrite take_app_length' by done. rewrite drop_app_length' by done.
  reflexivity.
Qed.

(** What comes back from the vault, for any store: each name and value
    coerced to valid UTF-8 by the JSON layer, a later name winning when two
    coerce to the same. *)
Lemma decrypt_encrypt store key w :
  AEAD_correct -> length key = 32 -> 24 <= length (w_entropy w) ->
  exists data w', encryptStore store key w = (Ok data, w') /\
    decryptStore data key =
    Ok (json.store_all (map json.coerce (json.sorted_entries store))).
Proof.
  intros Hc Hk He. eexists _, _. split; [apply encryptStore_ok; assumption|].
  rewrite decryptStore_sealed; [|exact Hk|rewrite length_take; lia].
  rewrite Hc by (done || (rewrite length_take; unfold NonceSizeX; lia)).
  apply json_facts.Unmarshal_Marshal.
Qed.

(** C1, as amended.  For every store whose names and values are valid
    UTF-8 and every 32-byte key, [encryptStore] succeeds once the random
    source delivers a nonce, and [decryptStore] of its result under the same
    key returns the store itself. *)
Theorem decrypt_encrypt_valid (store : SecretStore) (key : bytes) (w : World) :
  AEAD_correct -> length key = 32 -> 24 <= length (w_entropy w) ->
  json.ValidStore store = true ->
  exists data w', encryptStore store key w = (Ok data, w') /\
    decryptStore data key = Ok store.
Proof.
  intros Hc Hk He Hv. eexists _, _. split; [apply encryptStore_ok; assumption|].
  rewrite decryptStore_sealed; [|exact Hk|rewrite length_take; lia].
  rewrite Hc by (done || (rewrite length_take; unfold NonceSizeX; lia)).
  by apply json_facts.Unmarshal_Marshal_valid.
Qed.


(** C8.  Where no vault file exists, [loadStore] returns the empty map and
    no error, and changes nothing. *)
Theorem loadStore_missing_file (path : string) (key : bytes) (w : World) :
  w_files w !! path = None -> loadStore path key w = (Ok ∅, w).
Proof.
  intros Hp. unfold loadStore, handle, ioutil_ReadFile. by rewrite Hp.
Qed.

End VaultFacts.


(** ** The key file and the vault file *)

Section FileFacts.
Context `{Platform} `{AEAD}.

Lemma owner_only_rw umask : owner_only (N.ldiff perm_rw_owner umask).
Proof.
  unfold owner_only, perm_rw_owner. apply N.bits_inj. intros i.
  rewrite N.land_spec, N.ldiff_spec, N.bits_0.
  destruct (N.testbit 63 i) eqn:H63; [|by rewrite andb_false_r].
  assert (N.testbit 384 i = false) as ->; [|reflexivity].
  destruct (N.lt_ge_cases i 6) as [Hi|Hi].
  - change 384%N with (N.shiftl 3 7). rewrite N.shiftl_spec_low by lia. reflexivity.
  - change 63%N with (N.ones 6) in H63. rewrite N.ones_spec_high in H63 by exact Hi.
    discriminate.
Qed.

Lemma getOrCreateStaticKey_present w f :
  w_files w !! expandPath "~/.sec.key" = Some f -> owner_read f = true ->
  length (f_data f) = 32 ->
  getOrCreateStaticKey w = (Ok (f_data f), w).
Proof.
  intros Hf Hr Hlen. unfold getOrCreateStaticKey, handle, ioutil_ReadFile.
  rewrite Hf, Hr. apply Nat.eqb_eq in Hlen. by rewrite Hlen.
Qed.

(** Where [getOrCreateStaticKey] returns a key and leaves the world as it
    was, the key is the content of a readable key file of 32 bytes. *)
Lemma getOrCreateStaticKey_kept w key :
  getOrCreateStaticKey w = (Ok key, w) ->
  exists f, w_files w !! expandPath "~/.sec.key" = Some f /\
    owner_read f = true /\ f_data f = key /\ length key = 32.
Proof.
  unfold getOrCreateStaticKey, handle, ioutil_ReadFile.
  destruct (w_files w !! expandPath "~/.sec.key") as [f|] eqn:Hf.
  - destruct (owner_read f) eqn:Hr; [|discriminate].
    destruct (length (f_data f) =? 32) eqn:Hlen; [|discriminate].
    intros [= <-]. apply Nat.eqb_eq in Hlen. eauto.
  - cbn [os_IsNotExist]. unfold bind, rand_Read.
    destruct (32 <=? length (w_entropy w)); [|discriminate].
    unfold ioutil_WriteFile. cbn [w_files set_entropy]. rewrite Hf.
    destruct (written _ _) as [content [[]|e]]; [|discriminate].
    intros [= _ Hw]. apply (f_equal w_files) in Hw. cbn in Hw.
    apply (f_equal (fun m => m !! expandPath "~/.sec.key")) in Hw.
    rewrite lookup_insert_eq, Hf in Hw. discriminate.
Qed.

(** C6.  With [keyPath] the expansion of [~/.sec.key]:
    - a readable key file of exactly 32 bytes is returned as it is, and
      nothing changes;
    - with no key file, 32 bytes are drawn from the random source, written
      to [keyPath] with mode [0600] less the umask (so owner-only), and
      returned;
    - a readable key file of any other length fails with "invalid key file
      length" (the spec's ConfigurationError) and nothing changes: the file
      is neither regenerated nor overwritten.
    A key file that is there and cannot be read is an I/O error, returned as
    it is; nothing changes then either. *)
Theorem getOrCreateStaticKey_cases (w : World) :
  let keyPath := expandPath "~/.sec.key" in
  (forall f, w_files w !! keyPath = Some f -> owner_read f = true ->
     length (f_data f) = 32 ->
     getOrCreateStaticKey w = (Ok (f_data f), w)) /\
  (w_files w !! keyPath = None -> 32 <= length (w_entropy w) ->
     write_completes w (take 32 (w_entropy w)) ->
     exists w' mode,
       getOrCreateStaticKey w = (Ok (take 32 (w_entropy w)), w') /\
       length (take 32 (w_entropy w)) = 32 /\
       w_files w' = <[keyPath := mkFile mode (take 32 (w_entropy w))]> (w_files w) /\
       owner_only mode) /\
  (forall f, w_files w !! keyPath = Some f -> owner_read f = true ->
     length (f_data f) <> 32 ->
     getOrCreateStaticKey w = (Err ErrKeyFileLength, w)) /\
  (forall f, w_files w !! keyPath = Some f -> owner_read f = false ->
     getOrCreateStaticKey w = (Err ErrPermission, w)).
Proof.
  intros keyPath. unfold getOrCreateStaticKey, handle, ioutil_ReadFile.
  fold keyPath. split; [|split; [|split]].
  - intros f Hf Hr Hlen. rewrite Hf, Hr.
    apply Nat.eqb_eq in Hlen. by rewrite Hlen.
  - intros Hf Hent Hwr. rewrite Hf. cbn [os_IsNotExist].
    unfold bind. rewrite rand_Read_ok by exact Hent.
    unfold ioutil_WriteFile. cbn [w_files w_umask w_faults set_entropy].
    rewrite Hf. unfold write_completes in Hwr. rewrite Hwr.
    eexists _, _. split; [reflexivity|].
    split; [rewrite length_take; lia|]. split; [reflexivity|].
    apply owner_only_rw.
  - intros f Hf Hr Hlen. rewrite Hf, Hr.
    apply Nat.eqb_neq in Hlen. by rewrite Hlen.
  - intros f Hf Hr. by rewrite Hf, Hr.
Qed.

Lemma WriteFile_inv path data perm w r w' :
  ioutil_WriteFile path data perm w = (r, w') ->
  (r = Err ErrPermission /\ w' = w /\
   exists f, w_files w !! path = Some f /\ owner_write f = false) \/
  (exists mode n,
     w_files w' = <[path := mkFile mode (take n data)]> (w_files w) /\
     w_entropy w' = w_entropy w /\ w_stdin w' = w_stdin w /\
     w_stdout w' = w_stdout w /\
     (r = Ok tt /\ take n data = data \/ r = Err ErrWrite)).
Proof.
  unfold ioutil_WriteFile.
  destruct (w_files w !! path) as [f|] eqn:Hf.
  - destruct (owner_write f) eqn:Hw.
    + destruct (written _ data) as [content res] eqn:Hwr. intros [= <- <-].
      right. unfold written in Hwr.
      destruct (hd NoFault (w_faults w)) as [|n|]; [| |].
      * injection Hwr as <- <-. exists (f_mode f), (length data).
        rewrite firstn_all. cbn. auto 10.
      * destruct (length data <=? n) eqn:Hn; injection Hwr as <- <-.
        -- exists (f_mode f), (length data). rewrite firstn_all. cbn. auto 10.
        -- exists (f_mode f), n. cbn. auto 10.
      * injection Hwr as <- <-. exists (f_mode f), (length data).
        rewrite firstn_all. cbn. auto 10.
    + intros [= <- <-]. left. eauto.
  - destruct (written _ data) as [content res] eqn:Hwr. intros [= <- <-].
    right. unfold written in Hwr.
    destruct (hd NoFault (w_faults w)) as [|n|]; [| |].
    * injection Hwr as <- <-. eexists _, (length data).
      rewrite firstn_all. cbn. auto 10.
    * destruct (length data <=? n) eqn:Hn; injection Hwr as <- <-.
      -- eexists _, (length data). rewrite firstn_all. cbn. auto 10.
      -- eexists _, n. cbn. auto 10.
    * injection Hwr as <- <-. eexists _, (length data).
      rewrite firstn_all. cbn. auto 10.
Qed.

(** C2, as amended.  [saveStore] writes the vault file in place.  It
    returns an error in exactly three ways: encryption failed and no file
    changed; the existing file may not be written and no file changed; or
    the write itself failed, and then the file at [path] holds a prefix of
    the new ciphertext (empty, partial or whole) in place of what it held,
    every other file unchanged.  When it returns no error the file holds the
    whole new ciphertext. *)
Theorem saveStore_outcomes (path : string) (store : SecretStore) (key : bytes) (w : World) :
  match saveStore path store key w with
  | (Ok _, w') =>
    exists data mode,
      fst (encryptStore store key w) = Ok data /\
      w_files w' = <[path := mkFile mode data]> (w_files w)
  | (Err e, w') =>
    (fst (encryptStore store key w) = Err e /\ w_files w' = w_files w) \/
    (e = ErrPermission /\ w_files w' = w_files w /\
     exists f, w_files w !! path = Some f /\ owner_write f = false) \/
    (e = ErrWrite /\
     exists data mode n,
       fst (encryptStore store key w) = Ok data /\
       w_files w' = <[path := mkFile mode (take n data)]> (w_files w))
  end.
Proof.
  unfold saveStore, bind.
  destruct (encryptStore store key w) as [[data|e] w1] eqn:He.
  - apply encryptStore_inv in He as (Hfs & _).
    destruct (ioutil_WriteFile path data perm_rw_owner w1) as [r w'] eqn:Hw.
    apply WriteFile_inv in Hw
      as [(-> & -> & f & Hf & Hfw)|(mode & n & Hfs' & _ & _ & _ & [[-> Hn]| ->])].
    + right. left. rewrite Hfs in *. eauto.
    + exists data, mode. rewrite Hfs', Hn, Hfs. auto.
    + right. right. split; [reflexivity|]. exists data, mode, n.
      rewrite Hfs', Hfs. auto.
  - apply encryptStore_inv in He as (Hfs & _). left. auto.
Qed.

End FileFacts.

(** ** PIN gating: [requirePIN] in store.go and in the older sec.go *)

Section PinFacts.
Context `{Bcrypt}.

Lemma promptPIN_line prompt w pin rest :
  w_stdin w = Line pin :: rest ->
  Store.promptPIN prompt w =
  (Ok pin, set_stdout (w_stdout w ++ [prompt; newline]) (set_stdin rest w)).
Proof.
  intros Hin. unfold Store.promptPIN, bind, handle, fmt_Print, fmt_Println,
    term_ReadPassword, fmt_Print, ret.
  cbn [w_stdin set_stdout]. rewrite Hin. cbn.
  unfold set_stdout, set_stdin. cbn. by rewrite <- app_assoc.
Qed.

Lemma attempts_fail hash : forall wrong n rest w,
  w_stdin w = map Line wrong ++ rest ->
  length wrong = n ->
  Forall (fun pin => bcrypt_matches (bytes_of hash) (bytes_of pin) = false) wrong ->
  Store.attempts n hash w =
  (Err ErrTooManyAttempts,
   set_stdout (w_stdout w ++ failed_rounds n) (set_stdin rest w)).
Proof.
  induction wrong as [|p wrong IH]; intros n rest w Hin Hlen Hall.
  - cbn in Hlen. subst n. cbn. unfold fail. destruct w. cbn in *. subst.
    unfold set_stdout, set_stdin. cbn. by rewrite app_nil_r.
  - cbn in Hlen. subst n. apply Forall_cons in Hall as [Hp Hall].
    cbn [Store.attempts]. unfold bind at 1.
    rewrite (promptPIN_line _ _ p (map Line wrong ++ rest)) by exact Hin.
    rewrite Hp. unfold bind at 1. unfold fmt_Println at 1, fmt_Print at 1.
    rewrite (IH (length wrong) rest) by (auto; reflexivity).
    cbn. unfold set_stdout, set_stdin. cbn. by rewrite <- !app_assoc.
Qed.

Lemma attempts_succeed hash : forall wrong n pin rest w,
  w_stdin w = map Line wrong ++ Line pin :: rest ->
  length wrong < n ->
  Forall (fun p => bcrypt_matches (bytes_of hash) (bytes_of p) = false) wrong ->
  bcrypt_matches (bytes_of hash) (bytes_of pin) = true ->
  Store.attempts n hash w =
  (Ok tt,
   set_stdout (w_stdout w ++ failed_rounds (length wrong) ++ ["Enter PIN: "; newline])
     (set_stdin rest w)).
Proof.
  induction wrong as [|p wrong IH]; intros n pin rest w Hin Hlen Hall Hok.
  - destruct n as [|n]; [cbn in Hlen; lia|].
    cbn [Store.attempts]. unfold bind.
    rewrite (promptPIN_line _ _ pin rest) by exact Hin. by rewrite Hok.
  - destruct n as [|n]; [cbn in Hlen; lia|]. cbn in Hlen.
    apply Forall_cons in Hall as [Hp Hall].
    cbn [Store.attempts]. unfold bind at 1.
    rewrite (promptPIN_line _ _ p (map Line wrong ++ Line pin :: rest)) by exact Hin.
    rewrite Hp. unfold bind at 1. unfold fmt_Println at 1, fmt_Print at 1.
    rewrite (IH n pin rest) by (auto; lia).
    cbn. unfold set_stdout, set_stdin. cbn. by rewrite <- !app_assoc.
Qed.

(** C3, as amended.  Without a verifier entry [requirePIN] succeeds at
    once, in store.go and in the older sec.go: nothing is printed and
    nothing is read.  With a verifier, store.go's [requirePIN] asks at most
    three times: it succeeds at the first attempt that matches, after the
    mismatches before it (fewer than three), and it fails with "too many
    incorrect attempts" (the spec's TooManyAttemptsError) after three
    mismatches, having asked exactly three times.  The older sec.go's
    [requirePIN] asks once: it reads one line, succeeds when that line
    matches and fails with "incorrect PIN" when it does not, and reads
    nothing of what follows. *)
Theorem requirePIN_attempts (store : SecretStore) (w : World) :
  (store !! pinKey = None ->
     Store.requirePIN store w = (Ok tt, w) /\
     Sec.requirePIN store w = (Ok tt, w)) /\
  (forall hash, store !! pinKey = Some hash ->
     (forall wrong pin rest,
        w_stdin w = map Line wrong ++ Line pin :: rest ->
        length wrong < 3 ->
        Forall (fun p => bcrypt_matches (bytes_of hash) (bytes_of p) = false) wrong ->
        bcrypt_matches (bytes_of hash) (bytes_of pin) = true ->
        Store.requirePIN store w =
        (Ok tt,
         set_stdout
           (w_stdout w ++ failed_rounds (length wrong) ++ ["Enter PIN: "; newline])
           (set_stdin rest w))) /\
     (forall wrong rest,
        w_stdin w = map Line wrong ++ rest ->
        length wrong = 3 ->
        Forall (fun p => bcrypt_matches (bytes_of hash) (bytes_of p) = false) wrong ->
        Store.requirePIN store w =
        (Err ErrTooManyAttempts,
         set_stdout (w_stdout w ++ failed_rounds 3) (set_stdin rest w))) /\
     (forall pin rest,
        w_stdin w = Line pin :: rest ->
        Sec.requirePIN store w =
        (if bcrypt_matches (bytes_of hash) (bytes_of pin)
         then Ok tt else Err ErrIncorrectPIN,
         set_stdin rest (set_stdout (w_stdout w ++ ["Enter PIN: "]) w)))).
Proof.
  unfold Store.requirePIN, Sec.requirePIN. split.
  - by intros ->.
  - intros hash ->. split; [|split].
    + intros wrong pin rest Hin Hlen Hall Hok. by apply (attempts_succeed hash wrong _ pin rest).
    + intros wrong rest Hin Hlen Hall. by apply (attempts_fail hash wrong).
    + intros pin rest Hin. unfold bind at 1.
      assert (Sec.promptPIN w =
              (Ok pin, set_stdin rest (set_stdout (w_stdout w ++ ["Enter PIN: "]) w)))
        as -> by (unfold Sec.promptPIN, bind, fmt_Print, scanner_Scan;
                  cbn [w_stdin set_stdout]; by rewrite Hin).
      by destruct (bcrypt_matches _ _).
Qed.

End PinFacts.

(** ** The commands *)

Section CommandFacts.
Context `{Platform} `{AEAD} `{Bcrypt}.

Lemma for_each_print (keep : string -> bool) : forall (l : list string) (w : World),
  for_each l (fun k => if keep k then fmt_Println k else ret tt) w =
  (Ok tt,
   set_stdout (w_stdout w ++ map (fun k => k +:+ newline) (List.filter keep l)) w).
Proof.
  induction l as [|k l IH]; intros w.
  - cbn. unfold ret, set_stdout. rewrite app_nil_r. by destruct w.
  - cbn [for_each List.filter]. unfold bind.
    destruct (keep k).
    + unfold fmt_Println at 1, fmt_Print at 1. rewrite IH. cbn.
      unfold set_stdout. cbn. by rewrite <- app_assoc.
    + unfold ret at 1. apply IH.
Qed.

(** C9.  When the vault opens to [store], [listCmd] prints exactly the
    names [listed store], one per line, and changes nothing else.  The
    reserved name [pinKey] is never among them, whether or not the store
    holds a verifier; every other name of the store is, and nothing else. *)
Theorem listCmd_hides_pinKey (fileFlag : string) (w : World) (key : bytes)
    (store : SecretStore) :
  range_visits_keys -> opens fileFlag w key store ->
  listCmd fileFlag w =
    (Ok tt,
     set_stdout (w_stdout w ++ map (fun k => k +:+ newline) (listed store)) w) /\
  (pinKey ∉ listed store) /\
  forall k, k ∈ listed store <-> k <> pinKey /\ is_Some (store !! k).
Proof.
  intros Hrange [Hkey Hload]. split; [|split].
  - unfold listCmd, bind. rewrite Hkey, Hload. apply for_each_print.
  - unfold listed. rewrite list_elem_of_In, filter_In. intros [_ Hne].
    by rewrite String.eqb_refl in Hne.
  - intros k. unfold listed. rewrite list_elem_of_In, filter_In, <- list_elem_of_In.
    rewrite (Hrange store), negb_true_iff, String.eqb_neq.
    rewrite list_elem_of_fmap. split.
    + intros [([k' v] & -> & Hin%elem_of_map_to_list) Hne]. cbn in *. eauto.
    + intros [Hne [v Hv]]. split; [|exact Hne].
      exists (k, v). split; [reflexivity|]. by apply elem_of_map_to_list.
Qed.

(** C10.  The per-name commands know nothing of the reserved name.  When
    the vault opens to a [store] that holds a verifier [hash]: [getCmd] with
    [pinKey] prints the hash; [getCmd] with a name the store lacks prints an
    empty line and reports no error; [setCmd] with [pinKey] saves the store
    with the verifier replaced by the given value, whatever it is;
    [deleteCmd] with [pinKey] saves the store without the verifier.  Only
    the listing leaves [pinKey] out. *)
Theorem sentinel_is_ordinary_entry (fileFlag : string) (w : World) (key : bytes)
    (store : SecretStore) (hash : string) :
  opens fileFlag w key store -> store !! pinKey = Some hash ->
  getCmd fileFlag pinKey w =
    (Ok tt, set_stdout (w_stdout w ++ [hash +:+ newline]) w) /\
  (forall name, store !! name = None ->
     getCmd fileFlag name w = (Ok tt, set_stdout (w_stdout w ++ [newline]) w)) /\
  (forall value,
     setCmd fileFlag pinKey value w =
       (_ <- saveStore (expandPath fileFlag) (<[pinKey := value]> store) key ;;
        fmt_Println "Secret set.") w /\
     (<[pinKey := value]> store) !! pinKey = Some value) /\
  deleteCmd fileFlag pinKey w =
    (_ <- saveStore (expandPath fileFlag) (delete pinKey store) key ;;
     fmt_Println "Secret deleted.") w /\
  delete pinKey store !! pinKey = None /\
  (pinKey ∉ listed store).
Proof.
  intros [Hkey Hload] Hpin. repeat split.
  - unfold getCmd, bind. by rewrite Hkey, Hload, Hpin.
  - intros name Hname. unfold getCmd, bind. by rewrite Hkey, Hload, Hname.
  - unfold setCmd. unfold bind at 1. rewrite Hkey. unfold bind at 1. by rewrite Hload.
  - apply lookup_insert_eq.
  - unfold deleteCmd. unfold bind at 1. rewrite Hkey. unfold bind at 1. by rewrite Hload.
  - apply lookup_delete_eq.
  - unfold listed. rewrite list_elem_of_In, filter_In. intros [_ Hne].
    by rewrite String.eqb_refl in Hne.
Qed.

(** [requirePIN] of sec.go reads and prints, and touches no file. *)
Lemma Sec_requirePIN_files store w r w' :
  Sec.requirePIN store w = (r, w') -> w_files w' = w_files w.
Proof.
  unfold Sec.requirePIN, Sec.promptPIN, bind, fmt_Print, scanner_Scan, ret, fail.
  destruct (store !! pinKey) as [hash|]; [|by intros [= <- <-]].
  cbn. destruct (w_stdin w) as [|[pin|] rest]; cbn;
    try destruct (bcrypt_matches _ _); by intros [= <- <-].
Qed.

(** C4.  Once the vault opens to a store that holds a verifier, nothing
    gets past a failed [requirePIN]: [changePinCmd] and [removePinCmd] stop
    with its error before they change anything, and under
    [rootCmd.Execute()] no command at all is run, because the root's
    [PersistentPreRunE] asks first.  No file has changed when they stop, so
    the verifier is as it was.  Hence whenever an invocation has changed a
    file, [requirePIN] had succeeded on the store it found. *)
Theorem verifier_guarded_by_requirePIN (fileFlag : string) (w : World)
    (key : bytes) (store : SecretStore) (hash : string) :
  let file :=
    if String.eqb fileFlag EmptyString then defaultSecretsFile else fileFlag in
  opens file w key store -> store !! pinKey = Some hash ->
  (forall e w1, Sec.requirePIN store w = (Err e, w1) ->
     w_files w1 = w_files w /\
     Sec.changePinCmd file w = (Err e, w1) /\
     Sec.removePinCmd file w = (Err e, w1) /\
     forall c, Sec.Execute fileFlag c w = (Err e, w1)) /\
  (forall c r w', Sec.Execute fileFlag c w = (r, w') ->
     w_files w' <> w_files w ->
     exists w1, Sec.requirePIN store w = (Ok tt, w1)).
Proof.
  intros file [Hkey Hload] Hpin.
  assert (forall e w1, Sec.requirePIN store w = (Err e, w1) ->
            forall c, Sec.Execute fileFlag c w = (Err e, w1)) as Hexec.
  { intros e w1 Hreq c. unfold Sec.Execute.
    unfold bind at 1. unfold Sec.PersistentPreRunE. fold file. unfold bind.
    by rewrite Hkey, Hload, Hreq. }
  split.
  - intros e w1 Hreq. repeat split.
    + by apply Sec_requirePIN_files in Hreq.
    + unfold Sec.changePinCmd, bind. by rewrite Hkey, Hload, Hreq.
    + unfold Sec.removePinCmd, bind. by rewrite Hkey, Hload, Hreq.
    + by apply Hexec.
  - intros c r w' Hrun Hchanged.
    destruct (Sec.requirePIN store w) as [[[]|e] w1] eqn:Hreq; [by eexists|].
    rewrite (Hexec e w1 eq_refl c) in Hrun. injection Hrun as <- <-.
    apply Sec_requirePIN_files in Hreq. contradiction.
Qed.

(** C5, as amended.  When the vault opens to a store that already holds a
    verifier, [setPinCmd] prints "PIN already set. Use change-pin or
    remove-pin instead." and returns without an error: it reads no PIN,
    draws no salt and writes no file, so the verifier stays.
    [changePinCmd] has no such refusal: once [requirePIN] has passed and a
    new PIN is read and hashed, it saves the store with the verifier
    replaced.  Nor has store.go's [setPIN]: it looks for no verifier, and
    once a PIN is read and hashed it returns the store with the verifier
    replaced by the new hash. *)
Theorem setPin_refused_when_set (fileFlag : string) (w : World) (key : bytes)
    (store : SecretStore) (hash : string) :
  opens fileFlag w key store -> store !! pinKey = Some hash ->
  Sec.setPinCmd fileFlag w =
    (Ok tt,
     set_stdout
       (w_stdout w ++
        ["PIN already set. Use change-pin or remove-pin instead." +:+ newline]) w) /\
  (forall w1 pin rest hash' w2,
     Sec.requirePIN store w = (Ok tt, w1) ->
     w_stdin w1 = Line pin :: rest ->
     bcrypt_GenerateFromPassword (bytes_of pin)
       (set_stdin rest (set_stdout (w_stdout w1 ++ ["Enter new PIN: "]) w1)) =
       (Ok hash', w2) ->
     Sec.changePinCmd fileFlag w =
       (_ <- saveStore (expandPath fileFlag) (<[pinKey := string_of hash']> store) key ;;
        fmt_Println "PIN changed.") w2) /\
  (forall pin rest hash' w2,
     w_stdin w = Line pin :: rest ->
     bcrypt_GenerateFromPassword (bytes_of pin)
       (set_stdout (w_stdout w ++ ["Enter new PIN: "; newline]) (set_stdin rest w)) =
       (Ok hash', w2) ->
     Store.setPIN store w = (Ok (<[pinKey := string_of hash']> store), w2) /\
     <[pinKey := string_of hash']> store !! pinKey = Some (string_of hash')).
Proof.
  intros [Hkey Hload] Hpin. split; [|split].
  - unfold Sec.setPinCmd, bind. by rewrite Hkey, Hload, Hpin.
  - intros w1 pin rest hash' w2 Hreq Hin Hgen.
    unfold Sec.changePinCmd. unfold bind at 1. rewrite Hkey.
    unfold bind at 1. rewrite Hload. unfold bind at 1. rewrite Hreq.
    unfold bind at 1. unfold fmt_Print at 1. unfold bind at 1.
    unfold scanner_Scan at 1. cbn [w_stdin set_stdout]. rewrite Hin.
    unfold bind at 1.
    by rewrite Hgen.
  - intros pin rest hash' w2 Hin Hgen. split; [|by rewrite lookup_insert_eq].
    unfold Store.setPIN. unfold bind at 1.
    rewrite (promptPIN_line _ _ pin rest) by exact Hin.
    unfold bind. by rewrite Hgen.
Qed.

End CommandFacts.

(** ** Further facts about the two copies *)

Section MoreFacts.
Context `{Platform} `{AEAD} `{Bcrypt}.

(** The older sec.go asks once: without a verifier it succeeds and prompts
    nothing; with one it reads a single line and fails with "incorrect PIN"
    at the first mismatch, whatever is typed after it. *)
Theorem sec_requirePIN_asks_once (store : SecretStore) (w : World) :
  (store !! pinKey = None -> Sec.requirePIN store w = (Ok tt, w)) /\
  (forall hash pin rest,
     store !! pinKey = Some hash -> w_stdin w = Line pin :: rest ->
     Sec.requirePIN store w =
       (if bcrypt_matches (bytes_of hash) (bytes_of pin)
        then Ok tt else Err ErrIncorrectPIN,
        set_stdin rest (set_stdout (w_stdout w ++ ["Enter PIN: "]) w))).
Proof.
  unfold Sec.requirePIN. split; [by intros ->|].
  intros hash pin rest -> Hin.
  unfold Sec.promptPIN, bind, fmt_Print, scanner_Scan, ret, fail.
  cbn [w_stdin set_stdout]. rewrite Hin.
  by destruct (bcrypt_matches _ _).
Qed.

Lemma Store_promptPIN_files prompt w r w' :
  Store.promptPIN prompt w = (r, w') -> w_files w' = w_files w.
Proof.
  unfold Store.promptPIN, bind, handle, fmt_Print, fmt_Println, fmt_Print,
    term_ReadPassword, ret, fail.
  cbn. destruct (w_stdin w) as [|[pin|] rest]; by intros [= <- <-].
Qed.

Lemma Store_attempts_files hash : forall n w r w',
  Store.attempts n hash w = (r, w') -> w_files w' = w_files w.
Proof.
  induction n as [|n IH]; intros w r w'; [by intros [= <- <-]|].
  cbn [Store.attempts]. unfold bind at 1.
  destruct (Store.promptPIN "Enter PIN: " w) as [[pin|e] w1] eqn:Hp;
    apply Store_promptPIN_files in Hp; [|by intros [= <- <-]].
  destruct (bcrypt_matches _ _); [by intros [= <- <-]|].
  unfold bind, fmt_Println, fmt_Print. intros Ha. apply IH in Ha.
  by rewrite Ha.
Qed.

(** At version 0.1.1 too, nothing gets past a failed [requirePIN]: when the
    vault opens to a store that holds a verifier, the hook stops every
    command and no file has changed. *)
Theorem v011_guarded_by_requirePIN (fileFlag : string) (w : World) (key : bytes)
    (store : SecretStore) (hash : string) (e : error) (w1 : World) :
  opens fileFlag w key store -> store !! pinKey = Some hash ->
  Store.requirePIN store w = (Err e, w1) ->
  w_files w1 = w_files w /\
  forall c, Sec011.Execute fileFlag c w = (Err e, w1).
Proof.
  intros [Hkey Hload] Hpin Hreq. split.
  - unfold Store.requirePIN in Hreq. rewrite Hpin in Hreq.
    by apply Store_attempts_files in Hreq.
  - intros c. unfold Sec011.Execute, Sec011.PersistentPreRunE, bind.
    by rewrite Hkey, Hload, Hpin, Hreq.
Qed.

(** store.go's [setPIN] checks nothing: once a PIN is read and hashed it
    puts the hash under [pinKey], whether or not a verifier was there. *)
Theorem setPIN_sets_unconditionally (store : SecretStore) (w : World)
    (pin : string) (rest : list input) (hash : bytes) (w2 : World) :
  w_stdin w = Line pin :: rest ->
  bcrypt_GenerateFromPassword (bytes_of pin)
    (set_stdout (w_stdout w ++ ["Enter new PIN: "; newline]) (set_stdin rest w)) =
    (Ok hash, w2) ->
  Store.setPIN store w = (Ok (<[pinKey := string_of hash]> store), w2).
Proof.
  intros Hin Hgen. unfold Store.setPIN. unfold bind at 1.
  rewrite (promptPIN_line _ _ pin rest) by exact Hin.
  unfold bind. by rewrite Hgen.
Qed.

(** From a vault without verifier, [setPinCmd] asks for no PIN check: it
    reads the new PIN, hashes it and saves the store with the verifier
    added.  (The store is one Go can assign into: into the nil map that
    the JSON [null] decodes to, the assignment panics.) *)
Theorem setPinCmd_sets (fileFlag : string) (w : World) (key : bytes)
    (store : SecretStore) (pin : string) (rest : list input) (hash : bytes)
    (w2 : World) :
  opens fileFlag w key store -> assignable fileFlag w key ->
  store !! pinKey = None ->
  w_stdin w = Line pin :: rest ->
  bcrypt_GenerateFromPassword (bytes_of pin)
    (set_stdin rest (set_stdout (w_stdout w ++ ["Enter new PIN: "]) w)) =
    (Ok hash, w2) ->
  Sec.setPinCmd fileFlag w =
    (_ <- saveStore (expandPath fileFlag) (<[pinKey := string_of hash]> store) key ;;
     fmt_Println "PIN set.") w2.
Proof.
  intros [Hkey Hload] _ Hpin Hin Hgen.
  unfold Sec.setPinCmd. unfold bind at 1. rewrite Hkey.
  unfold bind at 1. rewrite Hload, Hpin.
  unfold bind at 1. unfold fmt_Print at 1. unfold bind at 1.
  unfold scanner_Scan at 1. cbn [w_stdin set_stdout]. rewrite Hin.
  unfold bind at 1. by rewrite Hgen.
Qed.

(** Deleting a name the store lacks saves the store as it was. *)
Theorem deleteCmd_absent_name (fileFlag : string) (w : World) (key : bytes)
    (store : SecretStore) (name : string) :
  opens fileFlag w key store -> store !! name = None ->
  delete name store = store /\
  deleteCmd fileFlag name w =
    (_ <- saveStore (expandPath fileFlag) store key ;;
     fmt_Println "Secret deleted.") w.
Proof.
  intros [Hkey Hload] Hname.
  assert (delete name store = store) as Hdel by by apply delete_id.
  split; [exact Hdel|].
  unfold deleteCmd. unfold bind at 1. rewrite Hkey. unfold bind at 1.
  by rewrite Hload, Hdel.
Qed.

(** A secret set in one invocation is there in the next.  When the vault
    opens to [store], the vault file is not the key file and may be
    written, the random source delivers a nonce, the write completes, and
    the new store is valid UTF-8: [setCmd] succeeds, the vault then opens,
    under the same key, to the store with the secret in it, and [getCmd]
    prints the secret.  (The store is one Go can assign into.) *)
Theorem setCmd_persists (fileFlag name value : string) (w : World) (key : bytes)
    (store : SecretStore) :
  AEAD_correct ->
  opens fileFlag w key store -> assignable fileFlag w key ->
  expandPath fileFlag <> expandPath "~/.sec.key" ->
  json.ValidStore (<[name := value]> store) = true ->
  24 <= length (w_entropy w) ->
  hd NoFault (w_faults w) = NoFault ->
  match w_files w !! expandPath fileFlag with
  | Some f => owner_write f = true
  | None => N.testbit (w_umask w) 8 = false
  end ->
  exists w',
    setCmd fileFlag name value w = (Ok tt, w') /\
    opens fileFlag w' key (<[name := value]> store) /\
    getCmd fileFlag name w' =
      (Ok tt, set_stdout (w_stdout w' ++ [value +:+ newline]) w').
Proof.
  intros Hc [Hkey Hload] _ Hpath Hvalid Hent Hfault Hperm.
  destruct (getOrCreateStaticKey_kept w key Hkey) as (fk & Hfk & Hrk & Hdk & Hlen).
  set (path := expandPath fileFlag) in *.
  set (store' := <[name := value]> store) in *.
  set (nonce := take 24 (w_entropy w)).
  set (data := nonce ++ aead_Seal key nonce (json.Marshal store')).
  assert (length nonce = 24) as Hn by (unfold nonce; rewrite length_take; lia).
  assert (decryptStore data key = Ok store') as Hdec.
  { unfold data. rewrite decryptStore_sealed by assumption.
    rewrite Hc by assumption. by apply json_facts.Unmarshal_Marshal_valid. }
  (* the mode the vault file ends up with, and that it can be read *)
  assert (exists mode,
    N.testbit mode 8 = true /\
    match w_files w !! path with
    | Some f => if owner_write f then Some (f_mode f) else None
    | None => Some (N.ldiff perm_rw_owner (w_umask w))
    end = Some mode) as (mode & Hmode & Hopen).
  { destruct (w_files w !! path) as [f|] eqn:Hf.
    - rewrite Hperm. exists (f_mode f). split; [|reflexivity].
      unfold loadStore, handle, ioutil_ReadFile in Hload. rewrite Hf in Hload.
      unfold owner_read in Hload. by destruct (N.testbit (f_mode f) 8).
    - eexists. split; [|reflexivity]. rewrite N.ldiff_spec, Hperm. reflexivity. }
  set (w' := set_stdout (w_stdout w ++ ["Secret set." +:+ newline])
               (set_faults (tl (w_faults w))
                  (set_files (<[path := mkFile mode data]> (w_files w))
                     (set_entropy (drop 24 (w_entropy w)) w)))).
  assert (opens fileFlag w' key store') as Hopens.
  { split.
    - rewrite <- Hdk. apply getOrCreateStaticKey_present; [|exact Hrk|by rewrite Hdk].
      cbn. by rewrite lookup_insert_ne.
    - unfold loadStore, handle, ioutil_ReadFile. fold path. cbn [w' w_files set_stdout set_faults set_files].
      rewrite lookup_insert_eq. unfold owner_read. cbn [f_mode f_data].
      rewrite Hmode. unfold lift. by rewrite Hdec. }
  exists w'. split; [|split; [exact Hopens|]].
  - unfold setCmd. fold path. unfold bind at 1. rewrite Hkey.
    unfold bind at 1. rewrite Hload.
    fold store'. unfold bind at 1. unfold saveStore, bind.
    rewrite encryptStore_ok by assumption. fold nonce data.
    unfold ioutil_WriteFile. cbn [w_files w_umask w_faults set_entropy].
    rewrite Hopen, Hfault. reflexivity.
  - destruct Hopens as [Hkey' Hload'].
    unfold getCmd, bind. unfold path. rewrite Hkey', Hload'.
    unfold store'. by rewrite lookup_insert_eq.
Qed.

End MoreFacts.
(** ** What is saved is there at the next invocation *)

Section PersistFacts.
Context `{Platform} `{AEAD} `{Bcrypt}.

Lemma bytes_of_string_of b : bytes_of (string_of b) = b.
Proof. apply list_ascii_of_string_of_list_ascii. Qed.

Lemma loadStore_world path key w : snd (loadStore path key w) = w.
Proof.
  unfold loadStore, handle, ioutil_ReadFile.
  destruct (w_files w !! path) as [f|]; [|reflexivity].
  destruct (owner_read f); reflexivity.
Qed.

Lemma loadStore_files path key w w1 :
  w_files w1 = w_files w ->
  fst (loadStore path key w1) = fst (loadStore path key w).
Proof.
  intros Hf. unfold loadStore, handle, ioutil_ReadFile. rewrite Hf.
  destruct (w_files w !! path) as [f|]; [|reflexivity].
  destruct (owner_read f); reflexivity.
Qed.

Lemma key_in_place_get key w :
  key_in_place key w -> getOrCreateStaticKey w = (Ok key, w).
Proof.
  intros (f & Hf & Hr & <- & Hlen). by apply getOrCreateStaticKey_present.
Qed.

Lemma key_in_place_files key : of_files (key_in_place key).
Proof. intros w w' Hf (f & Hk & Hrest). exists f. by rewrite Hf. Qed.

Lemma opens_key_in_place fileFlag w key store :
  opens fileFlag w key store -> key_in_place key w.
Proof. intros [Hkey _]. by apply getOrCreateStaticKey_kept. Qed.

Lemma opens_files fileFlag w w1 key store :
  opens fileFlag w key store -> w_files w1 = w_files w -> opens fileFlag w1 key store.
Proof.
  intros Ho Hf. pose proof (opens_key_in_place _ _ _ _ Ho) as Hk.
  destruct Ho as [_ Hload]. split.
  - apply key_in_place_get. by apply (key_in_place_files key w).
  - pose proof (loadStore_files (expandPath fileFlag) key w w1 Hf) as Hfst.
    pose proof (loadStore_world (expandPath fileFlag) key w1) as Hsnd.
    rewrite Hload in Hfst. cbn in Hfst.
    destruct (loadStore (expandPath fileFlag) key w1) as [r w']. cbn in *. congruence.
Qed.

Lemma decryptStore_valid data key store :
  decryptStore data key = Ok store -> json.ValidStore store = true.
Proof.
  unfold decryptStore. destruct (chacha20poly1305_NewX key); [|discriminate].
  destruct (_ <? _); [discriminate|].
  destruct (aead_Open _ _ _); [|discriminate].
  apply json_facts.Unmarshal_valid.
Qed.

Lemma loadStore_valid path key w store w' :
  loadStore path key w = (Ok store, w') -> json.ValidStore store = true.
Proof.
  unfold loadStore, handle, ioutil_ReadFile.
  destruct (w_files w !! path) as [f|]; [|by intros [= <- _]].
  destruct (owner_read f); [|discriminate].
  unfold lift. intros [= Hd _]. by apply decryptStore_valid in Hd.
Qed.

Lemma opens_valid fileFlag w key store :
  opens fileFlag w key store -> json.ValidStore store = true.
Proof. intros [_ Hload]. by apply loadStore_valid in Hload. Qed.

(** A save that goes through, and the vault as the next invocation finds it. *)
Lemma saveStore_reopens fileFlag w key store0 store :
  AEAD_correct -> opens fileFlag w key store0 -> saves fileFlag w ->
  json.ValidStore store = true ->
  exists w',
    saveStore (expandPath fileFlag) store key w = (Ok tt, w') /\
    opens fileFlag w' key store /\
    w_stdin w' = w_stdin w /\ w_stdout w' = w_stdout w /\
    (forall p, p <> expandPath fileFlag -> w_files w' !! p = w_files w !! p).
Proof.
  intros Hc Ho (Hpath & Hent & Hfault & Hperm) Hvalid.
  pose proof (opens_key_in_place _ _ _ _ Ho) as (fk & Hfk & Hrk & Hdk & Hlen).
  destruct Ho as [Hkey Hload].
  set (path := expandPath fileFlag) in *.
  set (nonce := take 24 (w_entropy w)).
  set (data := nonce ++ aead_Seal key nonce (json.Marshal store)).
  assert (length nonce = 24) as Hn by (unfold nonce; rewrite length_take; lia).
  assert (decryptStore data key = Ok store) as Hdec.
  { unfold data. rewrite decryptStore_sealed by assumption.
    rewrite Hc by assumption. by apply json_facts.Unmarshal_Marshal_valid. }
  assert (exists mode,
    N.testbit mode 8 = true /\
    match w_files w !! path with
    | Some f => if owner_write f then Some (f_mode f) else None
    | None => Some (N.ldiff perm_rw_owner (w_umask w))
    end = Some mode) as (mode & Hmode & Hopen).
  { destruct (w_files w !! path) as [f|] eqn:Hf.
    - rewrite Hperm. exists (f_mode f). split; [|reflexivity].
      unfold loadStore, handle, ioutil_ReadFile in Hload. rewrite Hf in Hload.
      unfold owner_read in Hload. by destruct (N.testbit (f_mode f) 8).
    - eexists. split; [|reflexivity]. rewrite N.ldiff_spec, Hperm. reflexivity. }
  exists (set_faults (tl (w_faults w))
            (set_files (<[path := mkFile mode data]> (w_files w))
               (set_entropy (drop 24 (w_entropy w)) w))).
  split; [|split; [split|]].
  - unfold saveStore, bind. rewrite encryptStore_ok by assumption. fold nonce data.
    unfold ioutil_WriteFile. cbn [w_files w_umask w_faults set_entropy].
    rewrite Hopen, Hfault. reflexivity.
  - rewrite <- Hdk. apply getOrCreateStaticKey_present; [|exact Hrk|by rewrite Hdk].
    cbn. by rewrite lookup_insert_ne.
  - unfold loadStore, handle, ioutil_ReadFile. fold path.
    cbn [w_files set_stdout set_faults set_files].
    rewrite lookup_insert_eq. unfold owner_read. cbn [f_mode f_data].
    rewrite Hmode. unfold lift. by rewrite Hdec.
  - cbn. split; [reflexivity|]. split; [reflexivity|].
    intros p Hp. by rewrite lookup_insert_ne.
Qed.


(** *** Invariants of the commands *)

Lemma preserves_ret {A} I (a : A) : preserves I (ret a).
Proof. intros w Hw. exact Hw. Qed.

Lemma preserves_fail {A} I e : preserves I (@fail A e).
Proof. intros w Hw. exact Hw. Qed.

Lemma preserves_lift {A} I (r : result A) : preserves I (lift r).
Proof. intros w Hw. exact Hw. Qed.

Lemma preserves_bind {A B} I (c : IO A) (k : A -> IO B) :
  preserves I c -> (forall a, preserves I (k a)) -> preserves I (bind c k).
Proof.
  intros Hc Hk w Hw. unfold bind. specialize (Hc w Hw).
  destruct (c w) as [[a|e] w1]; cbn in Hc; [by apply Hk|exact Hc].
Qed.

Lemma preserves_handle {A B} I (c : IO A) (k : A -> IO B) (h : error -> IO B) :
  preserves I c -> (forall a, preserves I (k a)) -> (forall e, preserves I (h e)) ->
  preserves I (handle c k h).
Proof.
  intros Hc Hk Hh w Hw. unfold handle. specialize (Hc w Hw).
  destruct (c w) as [[a|e] w1]; cbn in Hc; [by apply Hk|by apply Hh].
Qed.

Lemma preserves_for_each {A} I (l : list A) (body : A -> IO unit) :
  (forall a, preserves I (body a)) -> preserves I (for_each l body).
Proof.
  intros Hb. induction l as [|a l IH]; [apply preserves_ret|].
  cbn [for_each]. apply preserves_bind; [apply Hb|intros _; exact IH].
Qed.

(** What touches no file keeps whatever looks at the files only. *)
Lemma preserves_quiet {A} I (c : IO A) :
  (forall w, w_files (snd (c w)) = w_files w) -> of_files I -> preserves I c.
Proof. intros Hq HI w Hw. by apply (HI w). Qed.

Lemma scanner_Scan_quiet w : w_files (snd (scanner_Scan w)) = w_files w.
Proof. unfold scanner_Scan. by destruct (w_stdin w) as [|[pin|] rest]. Qed.

Lemma term_ReadPassword_quiet w : w_files (snd (term_ReadPassword w)) = w_files w.
Proof. unfold term_ReadPassword. by destruct (w_stdin w) as [|[pin|] rest]. Qed.

Lemma rand_Read_quiet n w : w_files (snd (rand_Read n w)) = w_files w.
Proof. unfold rand_Read. by destruct (_ <=? _). Qed.

Lemma ioutil_ReadFile_quiet path w : w_files (snd (ioutil_ReadFile path w)) = w_files w.
Proof.
  unfold ioutil_ReadFile. destruct (w_files w !! path) as [f|]; [|reflexivity].
  by destruct (owner_read f).
Qed.

Section Invariant.
Variable I : World -> Prop.
Hypothesis I_files : of_files I.

Lemma preserves_Print s : preserves I (fmt_Print s).
Proof. by apply preserves_quiet. Qed.

Lemma preserves_Println s : preserves I (fmt_Println s).
Proof. by apply preserves_quiet. Qed.

Lemma preserves_Scan : preserves I scanner_Scan.
Proof. apply preserves_quiet; [apply scanner_Scan_quiet|exact I_files]. Qed.

Lemma preserves_ReadPassword : preserves I term_ReadPassword.
Proof. apply preserves_quiet; [apply term_ReadPassword_quiet|exact I_files]. Qed.

Lemma preserves_rand n : preserves I (rand_Read n).
Proof. apply preserves_quiet; [apply rand_Read_quiet|exact I_files]. Qed.

Lemma preserves_ReadFile path : preserves I (ioutil_ReadFile path).
Proof. apply preserves_quiet; [apply ioutil_ReadFile_quiet|exact I_files]. Qed.

Lemma preserves_GenerateFromPassword password :
  preserves I (bcrypt_GenerateFromPassword password).
Proof.
  unfold bcrypt_GenerateFromPassword. apply preserves_bind; [apply preserves_rand|].
  intros salt. apply preserves_lift.
Qed.

Lemma preserves_loadStore path key : preserves I (loadStore path key).
Proof.
  unfold loadStore. apply preserves_handle; [apply preserves_ReadFile|..].
  - intros data. apply preserves_lift.
  - intros e. destruct (os_IsNotExist e); [apply preserves_ret|apply preserves_fail].
Qed.

Lemma preserves_encryptStore store key : preserves I (encryptStore store key).
Proof.
  unfold encryptStore. apply preserves_bind; [apply preserves_lift|]. intros aead.
  apply preserves_bind; [apply preserves_rand|]. intros nonce. apply preserves_ret.
Qed.

Lemma preserves_Sec_requirePIN store : preserves I (Sec.requirePIN store).
Proof.
  unfold Sec.requirePIN. destruct (store !! pinKey) as [hash|]; [|apply preserves_ret].
  apply preserves_bind.
  - unfold Sec.promptPIN. apply preserves_bind; [apply preserves_Print|]. intros _.
    apply preserves_bind; [apply preserves_Scan|]. intros [text| |err];
      [apply preserves_ret|apply preserves_ret|apply preserves_fail].
  - intros pin. destruct (bcrypt_matches _ _); [apply preserves_ret|apply preserves_fail].
Qed.

Lemma preserves_Store_promptPIN prompt : preserves I (Store.promptPIN prompt).
Proof.
  unfold Store.promptPIN. apply preserves_bind; [apply preserves_Print|]. intros _.
  apply preserves_handle; [apply preserves_ReadPassword|..].
  - intros pin. apply preserves_bind; [apply preserves_Println|]. intros _. apply preserves_ret.
  - intros e. apply preserves_bind; [apply preserves_Println|]. intros _. apply preserves_fail.
Qed.

Lemma preserves_Store_requirePIN store : preserves I (Store.requirePIN store).
Proof.
  unfold Store.requirePIN. destruct (store !! pinKey) as [hash|]; [|apply preserves_ret].
  induction Store.maxAttempts as [|n IH]; [apply preserves_fail|].
  cbn [Store.attempts]. apply preserves_bind; [apply preserves_Store_promptPIN|].
  intros pin. destruct (bcrypt_matches _ _); [apply preserves_ret|].
  apply preserves_bind; [apply preserves_Println|]. intros _. exact IH.
Qed.

(** The commands keep what the key lookup and a write to the vault keep. *)
Variable file : string.
Hypothesis I_key : preserves I getOrCreateStaticKey.
Hypothesis I_vault : forall data,
  preserves I (ioutil_WriteFile (expandPath file) data perm_rw_owner).

Lemma preserves_saveStore store key : preserves I (saveStore (expandPath file) store key).
Proof.
  unfold saveStore. apply preserves_bind; [apply preserves_encryptStore|].
  intros data. apply I_vault.
Qed.

Ltac step :=
  first
    [ apply preserves_ret | apply preserves_fail | apply preserves_lift
    | apply preserves_Println | apply preserves_Print | apply preserves_Scan
    | apply preserves_loadStore | apply preserves_saveStore
    | apply preserves_Sec_requirePIN | apply preserves_Store_requirePIN
    | apply preserves_GenerateFromPassword
    | exact I_key
    | apply preserves_bind; [|intros ?] ].

Lemma preserves_reads name :
  preserves I (getCmd file name) /\ preserves I (listCmd file).
Proof.
  split.
  - unfold getCmd. repeat step.
  - unfold listCmd. repeat step. apply preserves_for_each.
    intros k. destruct (negb _); step.
Qed.

Lemma preserves_Run c : preserves I (Sec.Run file c).
Proof.
  destruct c as [name value|name|name| | | |]; cbn [Sec.Run].
  - unfold setCmd. repeat step.
  - apply (preserves_reads name).
  - unfold deleteCmd. repeat step.
  - apply (preserves_reads EmptyString).
  - unfold Sec.setPinCmd. step; [step|]. step; [step|].
    destruct (_ !! pinKey); [step|]. step; [step|]. step; [step|].
    match goal with r : scanned |- _ => destruct r end; repeat step.
  - unfold Sec.changePinCmd. do 5 (step; [step|]).
    match goal with r : scanned |- _ => destruct r end; repeat step.
  - unfold Sec.removePinCmd. repeat step.
Qed.

Lemma preserves_Run011 c : preserves I (Sec011.Run file c).
Proof.
  destruct c as [name value|name|name| |]; cbn [Sec011.Run].
  - unfold setCmd. repeat step.
  - apply (preserves_reads name).
  - unfold deleteCmd. repeat step.
  - apply (preserves_reads EmptyString).
  - unfold Sec011.versionCmd. step.
Qed.

Lemma preserves_hook011 : preserves I (Sec011.PersistentPreRunE file).
Proof.
  unfold Sec011.PersistentPreRunE. step; [step|]. step; [step|].
  destruct (_ !! pinKey); step.
Qed.

Lemma preserves_hook fileFlag :
  (if String.eqb fileFlag EmptyString then defaultSecretsFile else fileFlag) = file ->
  preserves I (Sec.PersistentPreRunE fileFlag).
Proof.
  intros Hfile. unfold Sec.PersistentPreRunE. rewrite Hfile. repeat step.
Qed.

End Invariant.

Lemma preserves_WriteFile (I : World -> Prop) path data perm :
  (forall w w' f, w_files w' = <[path := f]> (w_files w) -> I w -> I w') ->
  preserves I (ioutil_WriteFile path data perm).
Proof.
  intros HI w Hw. unfold ioutil_WriteFile.
  destruct (match w_files w !! path with
            | Some f => if owner_write f then Some (f_mode f) else None
            | None => Some (N.ldiff perm (w_umask w))
            end) as [m|]; [|exact Hw].
  destruct (written _ data) as [content r]. cbn [snd].
  by apply (HI w _ (mkFile m content)).
Qed.

Lemma preserves_getOrCreateStaticKey (I : World -> Prop) :
  of_files I ->
  (forall w w' f, w_files w' = <[expandPath "~/.sec.key" := f]> (w_files w) -> I w -> I w') ->
  preserves I getOrCreateStaticKey.
Proof.
  intros HI Hk. unfold getOrCreateStaticKey.
  apply preserves_handle; [by apply preserves_ReadFile|..].
  - intros data. destruct (_ =? _); [apply preserves_ret|apply preserves_fail].
  - intros e. destruct (os_IsNotExist e); [|apply preserves_fail].
    apply preserves_bind; [by apply preserves_rand|]. intros key.
    apply preserves_bind; [by apply preserves_WriteFile|]. intros _. apply preserves_ret.
Qed.

(** No command writes a file other than the key file and the vault file,
    and [get] and [list] do not write the vault file: in the older sec.go
    and at version 0.1.1 alike (whose [version] writes no file either), a
    file that is not the key file is the same after a command when it is
    not the vault file or the command is one of these. *)
Theorem commands_write_key_and_vault_only (fileFlag : string) (w : World) (p : string) :
  let file :=
    if String.eqb fileFlag EmptyString then defaultSecretsFile else fileFlag in
  p <> expandPath "~/.sec.key" ->
  (forall c, p <> expandPath file \/ read_only c = true ->
     w_files (snd (Sec.Execute fileFlag c w)) !! p = w_files w !! p) /\
  (forall c, p <> expandPath fileFlag \/ read_only011 c = true ->
     w_files (snd (Sec011.Execute fileFlag c w)) !! p = w_files w !! p).
Proof.
  intros file Hkey.
  set (I := fun w' : World => w_files w' !! p = w_files w !! p).
  assert (of_files I) as HI by (intros w1 w2 Hf; unfold I; by rewrite Hf).
  assert (forall path, p <> path ->
            forall w1 w2 f, w_files w2 = <[path := f]> (w_files w1) -> I w1 -> I w2) as Hins.
  { intros path Hp w1 w2 f Hf. unfold I. rewrite Hf. by rewrite lookup_insert_ne. }
  assert (preserves I getOrCreateStaticKey) as Hk
    by (apply preserves_getOrCreateStaticKey; [exact HI|by apply Hins]).
  split.
  - intros c Hc.
    assert (forall file', preserves I (Sec.Run file' c) -> 
              preserves I (Sec.PersistentPreRunE fileFlag) ->
              (forall a w1, Sec.PersistentPreRunE fileFlag w = (Ok a, w1) -> a = file') ->
              I (snd (Sec.Execute fileFlag c w))) as Hexec.
    { intros file' Hrun Hhook Hret. unfold Sec.Execute, bind.
      specialize (Hhook w eq_refl).
      destruct (Sec.PersistentPreRunE fileFlag w) as [[a|e] w1] eqn:Hp; [|exact Hhook].
      rewrite (Hret a w1 eq_refl). by apply Hrun. }
    apply (Hexec file).
    + destruct Hc as [Hp|Hro].
      * apply preserves_Run; [exact HI|exact Hk|].
        intros data. apply preserves_WriteFile. by apply Hins.
      * destruct c; try discriminate; cbn [Sec.Run];
          by apply (preserves_reads I HI file Hk).
    + by apply (preserves_hook I HI file Hk).
    + intros a w1. unfold Sec.PersistentPreRunE. fold file. unfold bind.
      repeat match goal with
             | |- context [match ?x with _ => _ end] => destruct x
             end; unfold ret; congruence.
  - intros c Hc. unfold Sec011.Execute.
    assert (preserves I (_ <- Sec011.PersistentPreRunE fileFlag ;; Sec011.Run fileFlag c))
      as Hpres.
    { apply preserves_bind; [by apply preserves_hook011|]. intros _.
      destruct Hc as [Hp|Hro].
      - apply preserves_Run011; [exact HI|exact Hk|].
        intros data. apply preserves_WriteFile. by apply Hins.
      - destruct c; try discriminate; cbn [Sec011.Run].
        + by apply (preserves_reads I HI fileFlag Hk).
        + by apply (preserves_reads I HI fileFlag Hk).
        + unfold Sec011.versionCmd. by apply preserves_Println. }
    by apply Hpres.
Qed.

(** The key is never replaced: with a good key file in place and a vault
    that is another file, the key file is the same after any number of
    invocations, whatever they are and however they end. *)
Theorem key_never_replaced (fileFlag : string) (key : bytes) (w : World)
    (cs : list Sec.command) :
  let file :=
    if String.eqb fileFlag EmptyString then defaultSecretsFile else fileFlag in
  key_in_place key w -> expandPath file <> expandPath "~/.sec.key" ->
  w_files (session fileFlag cs w) !! expandPath "~/.sec.key" =
    w_files w !! expandPath "~/.sec.key" /\
  getOrCreateStaticKey (session fileFlag cs w) = (Ok key, session fileFlag cs w).
Proof.
  intros file Hkey Hpath.
  set (I := fun w' : World =>
    key_in_place key w' /\
    w_files w' !! expandPath "~/.sec.key" = w_files w !! expandPath "~/.sec.key").
  assert (of_files I) as HI.
  { intros w1 w2 Hf [Hk Hsame]. split; [by apply (key_in_place_files key w1)|].
    by rewrite Hf. }
  assert (preserves I getOrCreateStaticKey) as Hk.
  { intros w1 [Hk1 Hsame]. by rewrite (key_in_place_get key w1). }
  assert (forall data, preserves I (ioutil_WriteFile (expandPath file) data perm_rw_owner))
    as Hv.
  { intros data. apply preserves_WriteFile. intros w1 w2 f Hf [(fk & Hfk & Hrest) Hsame].
    split; [exists fk|]; rewrite Hf, lookup_insert_ne by exact Hpath; auto. }
  assert (forall c, preserves I (Sec.Execute fileFlag c)) as Hexec.
  { intros c w1 Hw1. unfold Sec.Execute, bind.
    pose proof (preserves_hook I HI file Hk fileFlag eq_refl w1 Hw1) as Hhook.
    destruct (Sec.PersistentPreRunE fileFlag w1) as [[a|e] w2] eqn:Hp; [|exact Hhook].
    assert (a = file) as ->.
    { revert Hp. unfold Sec.PersistentPreRunE. fold file. unfold bind.
      repeat match goal with
             | |- context [match ?x with _ => _ end] => destruct x
             end; unfold ret; congruence. }
    by apply preserves_Run. }
  assert (forall w1, I w1 -> I (session fileFlag cs w1)) as Hall.
  { unfold session. induction cs as [|c cs IH]; intros w1 Hw1; [exact Hw1|].
    cbn [fold_left]. apply IH. by apply Hexec. }
  destruct (Hall w) as [Hend Hsame]; [by split|].
  split; [exact Hsame|by apply key_in_place_get].
Qed.

(** Whatever [decryptStore] returns is valid UTF-8, so it goes into a vault
    and comes out of it as it is: the JSON layer changes a store once at
    most. *)
Theorem decrypted_store_is_stable (data key : bytes) (store : SecretStore) (w : World) :
  AEAD_correct -> decryptStore data key = Ok store -> 24 <= length (w_entropy w) ->
  json.ValidStore store = true /\
  exists data' w',
    encryptStore store key w = (Ok data', w') /\ decryptStore data' key = Ok store.
Proof.
  intros Hc Hd Hent. pose proof (decryptStore_valid _ _ _ Hd) as Hv.
  split; [exact Hv|].
  assert (length key = 32) as Hk.
  { unfold decryptStore, chacha20poly1305_NewX, KeySize in Hd.
    destruct (length key =? 32) eqn:Hk; [by apply Nat.eqb_eq|discriminate]. }
  eexists _, _. split; [by apply encryptStore_ok|].
  rewrite decryptStore_sealed; [|exact Hk|rewrite length_take; lia].
  rewrite Hc by (done || (rewrite length_take; unfold NonceSizeX; lia)).
  by apply json_facts.Unmarshal_Marshal_valid.
Qed.

(** A key that [getOrCreateStaticKey] returns has 32 bytes and is what the
    key file holds from then on. *)
Theorem getOrCreateStaticKey_returns_key_file (w w' : World) (key : bytes) :
  getOrCreateStaticKey w = (Ok key, w') ->
  length key = 32 /\
  exists f, w_files w' !! expandPath "~/.sec.key" = Some f /\ f_data f = key.
Proof.
  unfold getOrCreateStaticKey, handle, ioutil_ReadFile.
  destruct (w_files w !! expandPath "~/.sec.key") as [f|] eqn:Hf.
  - destruct (owner_read f); [|discriminate].
    destruct (length (f_data f) =? 32) eqn:Hlen; [|discriminate].
    intros [= <- <-]. apply Nat.eqb_eq in Hlen. eauto.
  - cbn [os_IsNotExist]. unfold bind, rand_Read.
    destruct (32 <=? length (w_entropy w)) eqn:Hent; [|discriminate].
    apply Nat.leb_le in Hent.
    unfold ioutil_WriteFile. cbn [w_files w_umask w_faults set_entropy]. rewrite Hf.
    destruct (written _ _) as [content r] eqn:Hw. destruct r as [[]|e]; [|discriminate].
    intros [= <- <-]. split; [rewrite length_take; lia|].
    eexists. cbn [w_files set_faults set_files]. rewrite lookup_insert_eq.
    split; [reflexivity|]. cbn [f_data].
    unfold written in Hw. destruct (hd NoFault (w_faults w)) as [|n|].
    + by injection Hw as <-.
    + destruct (_ <=? n)%nat; [by injection Hw as <-|discriminate].
    + discriminate.
Qed.

(** A key-file write that is cut short leaves a key file of the wrong
    length, and from then on every invocation stops with "invalid key file
    length": the file is never written again. *)
Theorem key_write_cut_short (w : World) (n : nat) :
  w_files w !! expandPath "~/.sec.key" = None ->
  32 <= length (w_entropy w) ->
  hd NoFault (w_faults w) = ShortWrite n -> n < 32 ->
  N.testbit (w_umask w) 8 = false ->
  exists w',
    getOrCreateStaticKey w = (Err ErrWrite, w') /\
    forall w2, w_files w2 = w_files w' ->
      getOrCreateStaticKey w2 = (Err ErrKeyFileLength, w2) /\
      (forall fileFlag c, Sec.Execute fileFlag c w2 = (Err ErrKeyFileLength, w2)) /\
      (forall fileFlag c, Sec011.Execute fileFlag c w2 = (Err ErrKeyFileLength, w2)).
Proof.
  intros Hf Hent Hfault Hn Humask.
  set (mode := N.ldiff perm_rw_owner (w_umask w)).
  set (key := take 32 (w_entropy w)).
  exists (set_faults (tl (w_faults w))
            (set_files (<[expandPath "~/.sec.key" := mkFile mode (take n key)]> (w_files w))
               (set_entropy (drop 32 (w_entropy w)) w))).
  split.
  - unfold getOrCreateStaticKey, handle, ioutil_ReadFile. rewrite Hf.
    cbn [os_IsNotExist]. unfold bind. rewrite rand_Read_ok by exact Hent.
    unfold ioutil_WriteFile. cbn [w_files w_umask w_faults set_entropy].
    rewrite Hf, Hfault. unfold written. fold key.
    assert ((length key <=? n) = false) as ->; [|reflexivity].
    apply Nat.leb_gt. unfold key. rewrite length_take. lia.
  - intros w2 Hfiles. cbn [w_files set_faults set_files] in Hfiles.
    assert (getOrCreateStaticKey w2 = (Err ErrKeyFileLength, w2)) as Hbad.
    { unfold getOrCreateStaticKey, handle, ioutil_ReadFile.
      rewrite Hfiles, lookup_insert_eq. unfold owner_read. cbn [f_mode f_data].
      unfold mode. rewrite N.ldiff_spec, Humask.
      change (N.testbit perm_rw_owner 8) with true. cbn [andb negb].
      assert ((length (take n key) =? 32) = false) as ->; [|reflexivity].
      apply Nat.eqb_neq. rewrite length_take. lia. }
    split; [exact Hbad|]. split; intros fileFlag c.
    + unfold Sec.Execute, Sec.PersistentPreRunE, bind. by rewrite Hbad.
    + unfold Sec011.Execute, Sec011.PersistentPreRunE, bind. by rewrite Hbad.
Qed.

(** [saveStore] does not set permissions on a vault file that is there: the
    file keeps its mode, whatever it is.  Only a vault file it creates is
    owner-only. *)
Theorem saveStore_keeps_mode (path : string) (store : SecretStore) (key : bytes)
    (w : World) (f' : File) :
  w_files (snd (saveStore path store key w)) !! path = Some f' ->
  match w_files w !! path with
  | Some f => f_mode f' = f_mode f
  | None => owner_only (f_mode f')
  end.
Proof.
  unfold saveStore, bind.
  destruct (encryptStore store key w) as [[data|e] w1] eqn:He;
    apply encryptStore_inv in He as (Hfs & _ & _ & _ & Hum & _); cbn [snd].
  - unfold ioutil_WriteFile. rewrite Hfs, Hum.
    destruct (w_files w !! path) as [f|] eqn:Hf.
    + destruct (owner_write f).
      * destruct (written _ data) as [content r]. cbn [snd w_files set_faults set_files].
        rewrite lookup_insert_eq. by intros [= <-].
      * cbn [snd]. rewrite Hfs, Hf. by intros [= <-].
    + destruct (written _ data) as [content r]. cbn [snd w_files set_faults set_files].
      rewrite lookup_insert_eq. intros [= <-]. apply owner_only_rw.
  - rewrite Hfs. intros Hf'. rewrite Hf'. reflexivity.
Qed.

(** A save cut short before the nonce is complete leaves a vault file that
    no key opens: every later load fails with "invalid ciphertext: too
    short". *)
Theorem truncated_vault_is_refused (path : string) (store : SecretStore)
    (key : bytes) (w : World) (n : nat) :
  length key = 32 -> 24 <= length (w_entropy w) ->
  hd NoFault (w_faults w) = ShortWrite n -> n < 24 ->
  match w_files w !! path with
  | Some f => owner_write f = true /\ owner_read f = true
  | None => N.testbit (w_umask w) 8 = false
  end ->
  exists w',
    saveStore path store key w = (Err ErrWrite, w') /\
    forall key2 w2, length key2 = 32 -> w_files w2 = w_files w' ->
      loadStore path key2 w2 = (Err ErrCiphertextTooShort, w2).
Proof.
  intros Hk Hent Hfault Hn Hperm.
  set (nonce := take 24 (w_entropy w)).
  set (data := nonce ++ aead_Seal key nonce (json.Marshal store)).
  assert (24 <= length data) as Hdata.
  { unfold data, nonce. rewrite length_app, length_take. lia. }
  assert (exists mode,
    N.testbit mode 8 = true /\
    match w_files w !! path with
    | Some f => if owner_write f then Some (f_mode f) else None
    | None => Some (N.ldiff perm_rw_owner (w_umask w))
    end = Some mode) as (mode & Hmode & Hopen).
  { destruct (w_files w !! path) as [f|].
    - destruct Hperm as [-> Hr]. eauto.
    - eexists. split; [|reflexivity]. rewrite N.ldiff_spec, Hperm. reflexivity. }
  exists (set_faults (tl (w_faults w))
            (set_files (<[path := mkFile mode (take n data)]> (w_files w))
               (set_entropy (drop 24 (w_entropy w)) w))).
  split.
  - unfold saveStore, bind. rewrite encryptStore_ok by assumption. fold nonce data.
    unfold ioutil_WriteFile. cbn [w_files w_umask w_faults set_entropy].
    rewrite Hopen, Hfault. unfold written.
    assert ((length data <=? n) = false) as ->; [|reflexivity].
    apply Nat.leb_gt. lia.
  - intros key2 w2 Hk2 Hfiles. cbn [w_files set_faults set_files] in Hfiles.
    unfold loadStore, handle, ioutil_ReadFile. rewrite Hfiles, lookup_insert_eq.
    unfold owner_read. cbn [f_mode f_data]. rewrite Hmode.
    unfold lift, decryptStore. rewrite NewX_ok by exact Hk2.
    assert ((length (take n data) <? NonceSizeX) = true) as ->; [|reflexivity].
    apply Nat.ltb_lt. rewrite length_take. unfold NonceSizeX. lia.
Qed.

(** A deleted secret is gone at the next invocation, and the others are
    there. *)
Theorem deleteCmd_persists (fileFlag name : string) (w : World) (key : bytes)
    (store : SecretStore) :
  AEAD_correct -> opens fileFlag w key store -> saves fileFlag w ->
  exists w',
    deleteCmd fileFlag name w = (Ok tt, w') /\
    opens fileFlag w' key (delete name store) /\
    getCmd fileFlag name w' = (Ok tt, set_stdout (w_stdout w' ++ [newline]) w') /\
    forall other value, other <> name -> store !! other = Some value ->
      getCmd fileFlag other w' =
        (Ok tt, set_stdout (w_stdout w' ++ [value +:+ newline]) w').
Proof.
  intros Hc Ho Hs.
  destruct (saveStore_reopens fileFlag w key store (delete name store) Hc Ho Hs)
    as (w1 & Hsave & Ho1 & _); [apply json_facts.ValidStore_delete; by apply opens_valid in Ho|].
  set (w' := set_stdout (w_stdout w1 ++ ["Secret deleted." +:+ newline]) w1).
  assert (opens fileFlag w' key (delete name store)) as Ho'
    by (by apply (opens_files fileFlag w1)).
  exists w'. destruct Ho as [Hkey Hload]. split; [|split; [exact Ho'|]].
  - unfold deleteCmd, bind. by rewrite Hkey, Hload, Hsave.
  - destruct Ho' as [Hkey' Hload']. split.
    + unfold getCmd, bind. by rewrite Hkey', Hload', lookup_delete_eq.
    + intros other value Hne Hv. unfold getCmd, bind. rewrite Hkey', Hload'.
      by rewrite lookup_delete_ne, Hv by congruence.
Qed.

(** *** The PIN commands, and the invocation after them *)

Lemma Sec_Execute_opens fileFlag c w key store :
  let file :=
    if String.eqb fileFlag EmptyString then defaultSecretsFile else fileFlag in
  opens file w key store ->
  Sec.Execute fileFlag c w =
    match Sec.requirePIN store w with
    | (Ok _, w1) => Sec.Run file c w1
    | (Err e, w1) => (Err e, w1)
    end.
Proof.
  intros file [Hkey Hload]. unfold Sec.Execute, Sec.PersistentPreRunE. fold file.
  unfold bind. rewrite Hkey, Hload. by destruct (Sec.requirePIN store w) as [[[]|e] w1].
Qed.

Lemma Sec_requirePIN_line store hash p rest w :
  store !! pinKey = Some hash -> w_stdin w = Line p :: rest ->
  Sec.requirePIN store w =
    (if bcrypt_matches (bytes_of hash) (bytes_of p) then Ok tt else Err ErrIncorrectPIN,
     set_stdin rest (set_stdout (w_stdout w ++ ["Enter PIN: "]) w)).
Proof.
  intros Hpin Hin. unfold Sec.requirePIN. rewrite Hpin.
  unfold Sec.promptPIN, bind, fmt_Print, scanner_Scan, ret, fail.
  cbn [w_stdin set_stdout]. rewrite Hin. by destruct (bcrypt_matches _ _).
Qed.

(** Once the vault opens to a store with the verifier [hash], the next
    line typed decides. *)
Lemma Sec_Execute_gated fileFlag c w key store hash p rest :
  let file :=
    if String.eqb fileFlag EmptyString then defaultSecretsFile else fileFlag in
  opens file w key store -> store !! pinKey = Some hash ->
  w_stdin w = Line p :: rest ->
  Sec.Execute fileFlag c w =
    let w1 := set_stdin rest (set_stdout (w_stdout w ++ ["Enter PIN: "]) w) in
    if bcrypt_matches (bytes_of hash) (bytes_of p)
    then Sec.Run file c w1 else (Err ErrIncorrectPIN, w1).
Proof.
  intros file Ho Hpin Hin. rewrite (Sec_Execute_opens fileFlag c w key store Ho).
  rewrite (Sec_requirePIN_line store hash p rest w Hpin Hin).
  by destruct (bcrypt_matches _ _).
Qed.

Lemma GenerateFromPassword_hash password w hash w2 :
  bcrypt_GenerateFromPassword password w = (Ok hash, w2) ->
  w_files w2 = w_files w /\ exists salt, bcrypt_hash salt password = Ok hash.
Proof.
  unfold bcrypt_GenerateFromPassword, bind, rand_Read, lift.
  destruct (_ <=? _); [|discriminate]. intros [= Hh <-]. eauto.
Qed.

Lemma ValidStore_verifier (store : SecretStore) hash :
  json.ValidStore store = true -> json.Valid hash = true ->
  json.ValidStore (<[pinKey := string_of hash]> store) = true.
Proof.
  intros Hs Hh. apply json_facts.ValidStore_insert; [exact Hs|reflexivity|].
  unfold json.ValidString. by rewrite bytes_of_string_of.
Qed.

(** A PIN set by [set-pin] is in force at the next invocation: the vault
    opens to the store with the new verifier in it, and every command then
    waits for a line that the verifier matches.  (The store is one Go can
    assign into.) *)
Theorem setPinCmd_gates_next_run (fileFlag : string) (w : World) (key : bytes)
    (store : SecretStore) (pin : string) (rest : list input) (hash : bytes)
    (w2 : World) :
  let file :=
    if String.eqb fileFlag EmptyString then defaultSecretsFile else fileFlag in
  AEAD_correct -> opens file w key store -> assignable file w key ->
  store !! pinKey = None ->
  w_stdin w = Line pin :: rest ->
  bcrypt_GenerateFromPassword (bytes_of pin)
    (set_stdin rest (set_stdout (w_stdout w ++ ["Enter new PIN: "]) w)) =
    (Ok hash, w2) ->
  json.Valid hash = true -> saves file w2 ->
  exists w',
    Sec.setPinCmd file w = (Ok tt, w') /\
    opens file w' key (<[pinKey := string_of hash]> store) /\
    (Bcrypt_correct -> bcrypt_matches hash (bytes_of pin) = true) /\
    forall c p rest' w3, w_files w3 = w_files w' -> w_stdin w3 = Line p :: rest' ->
      Sec.Execute fileFlag c w3 =
        let w4 := set_stdin rest' (set_stdout (w_stdout w3 ++ ["Enter PIN: "]) w3) in
        if bcrypt_matches hash (bytes_of p)
        then Sec.Run file c w4 else (Err ErrIncorrectPIN, w4).
Proof.
  intros file Hc Ho _ Hpin Hin Hgen Hvalid Hs.
  pose proof (GenerateFromPassword_hash _ _ _ _ Hgen) as (Hfiles & salt & Hhash).
  assert (opens file w2 key store) as Ho2 by (by apply (opens_files file w)).
  destruct (saveStore_reopens file w2 key store (<[pinKey := string_of hash]> store)
              Hc Ho2 Hs) as (w3 & Hsave & Ho3 & _);
    [apply ValidStore_verifier; [by apply opens_valid in Ho|exact Hvalid]|].
  set (w' := set_stdout (w_stdout w3 ++ ["PIN set." +:+ newline]) w3).
  assert (opens file w' key (<[pinKey := string_of hash]> store)) as Ho'
    by (by apply (opens_files file w3)).
  exists w'. split; [|split; [exact Ho'|split]].
  - destruct Ho as [Hkey Hload].
    unfold Sec.setPinCmd. unfold bind at 1. rewrite Hkey.
    unfold bind at 1. rewrite Hload, Hpin.
    unfold bind at 1. unfold fmt_Print at 1. unfold bind at 1.
    unfold scanner_Scan at 1. cbn [w_stdin set_stdout]. rewrite Hin.
    unfold bind at 1. rewrite Hgen. unfold bind. by rewrite Hsave.
  - intros Hb. by apply (Hb salt).
  - intros c p rest' w4 Hf4 Hin4.
    rewrite (Sec_Execute_gated fileFlag c w4 key (<[pinKey := string_of hash]> store)
               (string_of hash) p rest');
      [by rewrite bytes_of_string_of| |apply lookup_insert_eq|exact Hin4].
    by apply (opens_files file w').
Qed.

(** [change-pin] with the PIN in force and a new one: the new verifier
    replaces the old one in the vault, the other entries stay, and the next
    invocation is judged by the new verifier.  (The store is one Go can
    assign into.) *)
Theorem changePinCmd_persists (fileFlag : string) (w : World) (key : bytes)
    (store : SecretStore) (w1 : World) (pin : string) (rest : list input)
    (hash : bytes) (w2 : World) :
  let file :=
    if String.eqb fileFlag EmptyString then defaultSecretsFile else fileFlag in
  AEAD_correct -> opens file w key store -> assignable file w key ->
  Sec.requirePIN store w = (Ok tt, w1) ->
  w_stdin w1 = Line pin :: rest ->
  bcrypt_GenerateFromPassword (bytes_of pin)
    (set_stdin rest (set_stdout (w_stdout w1 ++ ["Enter new PIN: "]) w1)) =
    (Ok hash, w2) ->
  json.Valid hash = true -> saves file w2 ->
  exists w',
    Sec.changePinCmd file w = (Ok tt, w') /\
    opens file w' key (<[pinKey := string_of hash]> store) /\
    (forall name, name <> pinKey ->
       (<[pinKey := string_of hash]> store) !! name = store !! name) /\
    (Bcrypt_correct -> bcrypt_matches hash (bytes_of pin) = true) /\
    forall c p rest' w3, w_files w3 = w_files w' -> w_stdin w3 = Line p :: rest' ->
      Sec.Execute fileFlag c w3 =
        let w4 := set_stdin rest' (set_stdout (w_stdout w3 ++ ["Enter PIN: "]) w3) in
        if bcrypt_matches hash (bytes_of p)
        then Sec.Run file c w4 else (Err ErrIncorrectPIN, w4).
Proof.
  intros file Hc Ho _ Hreq Hin Hgen Hvalid Hs.
  pose proof (GenerateFromPassword_hash _ _ _ _ Hgen) as (Hfiles & salt & Hhash).
  pose proof (Sec_requirePIN_files _ _ _ _ Hreq) as Hfiles1.
  assert (opens file w2 key store) as Ho2.
  { apply (opens_files file w); [exact Ho|]. rewrite Hfiles. cbn. exact Hfiles1. }
  destruct (saveStore_reopens file w2 key store (<[pinKey := string_of hash]> store)
              Hc Ho2 Hs) as (w3 & Hsave & Ho3 & _);
    [apply ValidStore_verifier; [by apply opens_valid in Ho|exact Hvalid]|].
  set (w' := set_stdout (w_stdout w3 ++ ["PIN changed." +:+ newline]) w3).
  assert (opens file w' key (<[pinKey := string_of hash]> store)) as Ho'
    by (by apply (opens_files file w3)).
  exists w'. split; [|split; [exact Ho'|split; [|split]]].
  - destruct Ho as [Hkey Hload].
    unfold Sec.changePinCmd. unfold bind at 1. rewrite Hkey.
    unfold bind at 1. rewrite Hload. unfold bind at 1. rewrite Hreq.
    unfold bind at 1. unfold fmt_Print at 1. unfold bind at 1.
    unfold scanner_Scan at 1. cbn [w_stdin set_stdout]. rewrite Hin.
    unfold bind at 1. rewrite Hgen. unfold bind. by rewrite Hsave.
  - intros name Hne. by rewrite lookup_insert_ne.
  - intros Hb. by apply (Hb salt).
  - intros c p rest' w4 Hf4 Hin4.
    rewrite (Sec_Execute_gated fileFlag c w4 key (<[pinKey := string_of hash]> store)
               (string_of hash) p rest');
      [by rewrite bytes_of_string_of| |apply lookup_insert_eq|exact Hin4].
    by apply (opens_files file w').
Qed.

(** [remove-pin] once [requirePIN] has passed: the vault is saved without
    the verifier, the other entries stay, and from then on every command
    runs without a prompt. *)
Theorem removePinCmd_unlocks (fileFlag : string) (w : World) (key : bytes)
    (store : SecretStore) (w1 : World) :
  let file :=
    if String.eqb fileFlag EmptyString then defaultSecretsFile else fileFlag in
  AEAD_correct -> opens file w key store ->
  Sec.requirePIN store w = (Ok tt, w1) -> saves file w1 ->
  exists w',
    Sec.removePinCmd file w = (Ok tt, w') /\
    opens file w' key (delete pinKey store) /\
    (forall name, name <> pinKey -> delete pinKey store !! name = store !! name) /\
    forall c w2, w_files w2 = w_files w' ->
      Sec.Execute fileFlag c w2 = Sec.Run file c w2.
Proof.
  intros file Hc Ho Hreq Hs.
  pose proof (Sec_requirePIN_files _ _ _ _ Hreq) as Hfiles1.
  assert (opens file w1 key store) as Ho1 by (by apply (opens_files file w)).
  destruct (saveStore_reopens file w1 key store (delete pinKey store) Hc Ho1 Hs)
    as (w3 & Hsave & Ho3 & _);
    [apply json_facts.ValidStore_delete; by apply opens_valid in Ho|].
  set (w' := set_stdout (w_stdout w3 ++ ["PIN removed." +:+ newline]) w3).
  assert (opens file w' key (delete pinKey store)) as Ho'
    by (by apply (opens_files file w3)).
  exists w'. split; [|split; [exact Ho'|split]].
  - destruct Ho as [Hkey Hload].
    unfold Sec.removePinCmd, bind. by rewrite Hkey, Hload, Hreq, Hsave.
  - intros name Hne. by rewrite lookup_delete_ne.
  - intros c w2 Hf2.
    rewrite (Sec_Execute_opens fileFlag c w2 key (delete pinKey store));
      [|by apply (opens_files file w')].
    unfold Sec.requirePIN. by rewrite lookup_delete_eq.
Qed.

(** Under [rootCmd.Execute()], [change-pin] and [remove-pin] check the PIN
    twice: once in the root's hook and once themselves.  When the second
    line typed is not the PIN (the new PIN, say), they stop with "incorrect
    PIN" and no file has changed. *)
Theorem pin_commands_ask_twice (fileFlag : string) (w : World) (key : bytes)
    (store : SecretStore) (hash p1 p2 : string) (rest : list input) :
  let file :=
    if String.eqb fileFlag EmptyString then defaultSecretsFile else fileFlag in
  opens file w key store -> store !! pinKey = Some hash ->
  w_stdin w = Line p1 :: Line p2 :: rest ->
  bcrypt_matches (bytes_of hash) (bytes_of p1) = true ->
  bcrypt_matches (bytes_of hash) (bytes_of p2) = false ->
  let w2 :=
    set_stdin rest (set_stdout (w_stdout w ++ ["Enter PIN: "; "Enter PIN: "]) w) in
  Sec.Execute fileFlag Sec.CmdChangePin w = (Err ErrIncorrectPIN, w2) /\
  Sec.Execute fileFlag Sec.CmdRemovePin w = (Err ErrIncorrectPIN, w2) /\
  w_files w2 = w_files w.
Proof.
  intros file Ho Hpin Hin Hm1 Hm2 w2.
  set (w1 := set_stdin (Line p2 :: rest) (set_stdout (w_stdout w ++ ["Enter PIN: "]) w)).
  assert (opens file w1 key store) as [Hkey1 Hload1] by (by apply (opens_files file w)).
  assert (Sec.requirePIN store w1 = (Err ErrIncorrectPIN, w2)) as Hreq.
  { rewrite (Sec_requirePIN_line store hash p2 rest w1 Hpin eq_refl), Hm2.
    unfold w1, w2, set_stdin, set_stdout. cbn. by rewrite <- app_assoc. }
  split; [|split; [|reflexivity]].
  - rewrite (Sec_Execute_gated fileFlag _ w key store hash p1 (Line p2 :: rest) Ho Hpin Hin).
    cbv zeta. rewrite Hm1. fold file w1. cbn [Sec.Run].
    unfold Sec.changePinCmd, bind. by rewrite Hkey1, Hload1, Hreq.
  - rewrite (Sec_Execute_gated fileFlag _ w key store hash p1 (Line p2 :: rest) Ho Hpin Hin).
    cbv zeta. rewrite Hm1. fold file w1. cbn [Sec.Run].
    unfold Sec.removePinCmd, bind. by rewrite Hkey1, Hload1, Hreq.
Qed.

(** *** The end of the input *)

Lemma promptPIN_stops prompt w tail e :
  w_stdin w = [] /\ tail = [] /\ e = ErrEOF \/
  w_stdin w = InputError :: tail /\ e = ErrInput ->
  Store.promptPIN prompt w =
  (Err e, set_stdout (w_stdout w ++ [prompt; newline]) (set_stdin tail w)).
Proof.
  unfold Store.promptPIN, bind, handle, fmt_Print, fmt_Println, term_ReadPassword,
    fmt_Print, fail.
  cbn [w_stdin set_stdout]. intros [(Hin & -> & ->)|(Hin & ->)]; rewrite Hin; cbn;
    unfold set_stdout, set_stdin; cbn; rewrite <- app_assoc; [|reflexivity].
  destruct w. cbn in *. by subst.
Qed.

Lemma attempts_stop hash : forall wrong n w ending tail e,
  w_stdin w = map Line wrong ++ ending ->
  length wrong < n ->
  Forall (fun p => bcrypt_matches (bytes_of hash) (bytes_of p) = false) wrong ->
  ending = [] /\ tail = [] /\ e = ErrEOF \/ ending = InputError :: tail /\ e = ErrInput ->
  Store.attempts n hash w =
  (Err e,
   set_stdout (w_stdout w ++ failed_rounds (length wrong) ++ ["Enter PIN: "; newline])
     (set_stdin tail w)).
Proof.
  induction wrong as [|p wrong IH]; intros n w ending tail e Hin Hlen Hall Hend.
  - destruct n as [|n]; [cbn in Hlen; lia|].
    cbn [Store.attempts]. unfold bind.
    rewrite (promptPIN_stops _ w tail e); [reflexivity|].
    cbn in Hin. rewrite Hin. tauto.
  - destruct n as [|n]; [cbn in Hlen; lia|]. cbn in Hlen.
    apply Forall_cons in Hall as [Hp Hall].
    cbn [Store.attempts]. unfold bind at 1.
    rewrite (promptPIN_line _ _ p (map Line wrong ++ ending)) by exact Hin.
    rewrite Hp. unfold bind at 1. unfold fmt_Println at 1, fmt_Print at 1.
    rewrite (IH n _ ending tail e) by (auto; lia).
    cbn. unfold set_stdout, set_stdin. cbn. by rewrite <- !app_assoc.
Qed.

(** store.go's [requirePIN] gives up at the first read that fails: after
    fewer than three mismatches, the end of the input ends it with
    [io.EOF] and a failed read with the error of the read, with no
    "Incorrect PIN." and no further prompt. *)
Theorem requirePIN_stops_at_input_end (store : SecretStore) (w : World)
    (hash : string) (wrong : list string) :
  store !! pinKey = Some hash -> length wrong < 3 ->
  Forall (fun p => bcrypt_matches (bytes_of hash) (bytes_of p) = false) wrong ->
  let printed :=
    w_stdout w ++ failed_rounds (length wrong) ++ ["Enter PIN: "; newline] in
  (w_stdin w = map Line wrong ->
     Store.requirePIN store w = (Err ErrEOF, set_stdout printed (set_stdin [] w))) /\
  (forall rest, w_stdin w = map Line wrong ++ InputError :: rest ->
     Store.requirePIN store w = (Err ErrInput, set_stdout printed (set_stdin rest w))).
Proof.
  intros Hpin Hlen Hall printed. unfold Store.requirePIN. rewrite Hpin. split.
  - intros Hin. apply (attempts_stop hash wrong _ w [] [] ErrEOF); auto.
    by rewrite app_nil_r.
  - intros rest Hin. apply (attempts_stop hash wrong _ w (InputError :: rest)); auto.
Qed.

(** The older sec.go at the end of the input: its [promptPIN] returns the
    empty string and no error, so [requirePIN] judges the empty PIN; only a
    failed read is returned as an error. *)
Theorem sec_requirePIN_at_end_of_input (store : SecretStore) (w : World) (hash : string) :
  store !! pinKey = Some hash ->
  (w_stdin w = [] ->
     Sec.requirePIN store w =
       (if bcrypt_matches (bytes_of hash) [] then Ok tt else Err ErrIncorrectPIN,
        set_stdout (w_stdout w ++ ["Enter PIN: "]) w)) /\
  (forall rest, w_stdin w = InputError :: rest ->
     Sec.requirePIN store w =
       (Err ErrInput, set_stdin rest (set_stdout (w_stdout w ++ ["Enter PIN: "]) w))).
Proof.
  intros Hpin. unfold Sec.requirePIN. rewrite Hpin.
  unfold Sec.promptPIN, bind, fmt_Print, scanner_Scan, ret, fail.
  cbn [w_stdin set_stdout]. split.
  - intros ->. by destruct (bcrypt_matches _ _).
  - by intros rest ->.
Qed.

(** *** Version 0.1.1 *)

(** After a PIN that matches, within three attempts, the command runs, on
    the files as they were. *)
Theorem v011_runs_after_correct_pin (fileFlag : string) (w : World) (key : bytes)
    (store : SecretStore) (hash : string) (wrong : list string) (pin : string)
    (rest : list input) :
  opens fileFlag w key store -> store !! pinKey = Some hash ->
  w_stdin w = map Line wrong ++ Line pin :: rest -> length wrong < 3 ->
  Forall (fun p => bcrypt_matches (bytes_of hash) (bytes_of p) = false) wrong ->
  bcrypt_matches (bytes_of hash) (bytes_of pin) = true ->
  let w1 :=
    set_stdout (w_stdout w ++ failed_rounds (length wrong) ++ ["Enter PIN: "; newline])
      (set_stdin rest w) in
  w_files w1 = w_files w /\
  forall c, Sec011.Execute fileFlag c w = Sec011.Run fileFlag c w1.
Proof.
  intros [Hkey Hload] Hpin Hin Hlen Hall Hok w1. split; [reflexivity|].
  intros c. unfold Sec011.Execute, Sec011.PersistentPreRunE, bind.
  rewrite Hkey, Hload, Hpin. unfold Store.requirePIN. rewrite Hpin.
  change Store.maxAttempts with 3.
  by rewrite (attempts_succeed hash wrong _ pin rest w Hin Hlen Hall Hok).
Qed.

(** The root's hook runs before every command, [version] too: on a system
    with neither key file nor vault, [sec version] and [sec get] write a
    new key file before they print. *)
Theorem first_run_creates_key (fileFlag : string) (w : World) :
  let keyPath := expandPath "~/.sec.key" in
  w_files w !! keyPath = None -> w_files w !! expandPath fileFlag = None ->
  expandPath fileFlag <> keyPath -> 32 <= length (w_entropy w) ->
  hd NoFault (w_faults w) = NoFault ->
  N.testbit (w_umask w) 8 = false ->
  exists mode,
    owner_only mode /\
    let w1 :=
      set_faults (tl (w_faults w))
        (set_files (<[keyPath := mkFile mode (take 32 (w_entropy w))]> (w_files w))
           (set_entropy (drop 32 (w_entropy w)) w)) in
    Sec011.Execute fileFlag Sec011.CmdVersion w =
      (Ok tt, set_stdout (w_stdout w ++ ["sec version 0.1.1" +:+ newline]) w1) /\
    forall name,
      Sec011.Execute fileFlag (Sec011.CmdGet name) w =
        (Ok tt, set_stdout (w_stdout w ++ [newline]) w1).
Proof.
  intros keyPath Hk Hv Hne Hent Hfault Humask.
  set (mode := N.ldiff perm_rw_owner (w_umask w)).
  exists mode. split; [apply owner_only_rw|]. intros w1.
  assert (getOrCreateStaticKey w = (Ok (take 32 (w_entropy w)), w1)) as Hget.
  { unfold getOrCreateStaticKey, handle, ioutil_ReadFile. fold keyPath. rewrite Hk.
    cbn [os_IsNotExist]. unfold bind. rewrite rand_Read_ok by exact Hent.
    unfold ioutil_WriteFile. cbn [w_files w_umask w_faults set_entropy].
    by rewrite Hk, Hfault. }
  assert (opens fileFlag w1 (take 32 (w_entropy w)) ∅) as [Hkey1 Hload1].
  { split.
    - unfold getOrCreateStaticKey, handle, ioutil_ReadFile. fold keyPath.
      cbn [w1 w_files set_faults set_files]. rewrite lookup_insert_eq.
      unfold owner_read. cbn [f_mode f_data]. unfold mode.
      rewrite N.ldiff_spec, Humask. change (N.testbit perm_rw_owner 8) with true.
      cbn [andb negb]. rewrite length_take.
      by replace (32 `min` length (w_entropy w)) with 32 by lia.
    - unfold loadStore, handle, ioutil_ReadFile.
      cbn [w1 w_files set_faults set_files].
      by rewrite lookup_insert_ne, Hv by congruence. }
  assert (Sec011.PersistentPreRunE fileFlag w = (Ok tt, w1)) as Hhook.
  { unfold Sec011.PersistentPreRunE, bind. by rewrite Hget, Hload1. }
  split; [|intros name]; unfold Sec011.Execute; unfold bind at 1; rewrite Hhook.
  - reflexivity.
  - cbn [Sec011.Run]. unfold getCmd, bind. by rewrite Hkey1, Hload1.
Qed.

(** Where no PIN is set and a vault is named, the two copies do the same
    on the four commands they share, and ask nothing: each is the
    command's [Run] on the world as it is. *)
Theorem copies_agree_without_pin (fileFlag : string) (w : World) (key : bytes)
    (store : SecretStore) :
  fileFlag <> EmptyString ->
  opens fileFlag w key store -> store !! pinKey = None ->
  (forall name value,
     Sec.Execute fileFlag (Sec.CmdSet name value) w = setCmd fileFlag name value w /\
     Sec011.Execute fileFlag (Sec011.CmdSet name value) w = setCmd fileFlag name value w) /\
  (forall name,
     Sec.Execute fileFlag (Sec.CmdGet name) w = getCmd fileFlag name w /\
     Sec011.Execute fileFlag (Sec011.CmdGet name) w = getCmd fileFlag name w) /\
  (forall name,
     Sec.Execute fileFlag (Sec.CmdDelete name) w = deleteCmd fileFlag name w /\
     Sec011.Execute fileFlag (Sec011.CmdDelete name) w = deleteCmd fileFlag name w) /\
  Sec.Execute fileFlag Sec.CmdList w = listCmd fileFlag w /\
  Sec011.Execute fileFlag Sec011.CmdList w = listCmd fileFlag w.
Proof.
  intros Hne [Hkey Hload] Hpin.
  assert ((if String.eqb fileFlag EmptyString then defaultSecretsFile else fileFlag)
          = fileFlag) as Hfile.
  { destruct (String.eqb_spec fileFlag EmptyString); congruence. }
  assert (forall c, Sec.Execute fileFlag c w = Sec.Run fileFlag c w) as Hsec.
  { intros c. unfold Sec.Execute, Sec.PersistentPreRunE. rewrite Hfile.
    unfold bind, Sec.requirePIN. by rewrite Hkey, Hload, Hpin. }
  assert (forall c, Sec011.Execute fileFlag c w = Sec011.Run fileFlag c w) as H011.
  { intros c. unfold Sec011.Execute, Sec011.PersistentPreRunE, bind.
    by rewrite Hkey, Hload, Hpin. }
  repeat split; intros; first [apply Hsec|apply H011].
Qed.

(** Without the PIN nothing happens, however often one tries: when no
    line that will be typed matches the verifier (nor does the empty
    line), then after any number of invocations of any commands no file
    has changed and nothing but the prompt has gone to standard output. *)
Theorem session_without_pin (fileFlag : string) (w : World) (key : bytes)
    (store : SecretStore) (hash : string) (cs : list Sec.command) :
  let file :=
    if String.eqb fileFlag EmptyString then defaultSecretsFile else fileFlag in
  opens file w key store -> store !! pinKey = Some hash ->
  bcrypt_matches (bytes_of hash) [] = false ->
  Forall (unmatched hash) (w_stdin w) ->
  w_files (session fileFlag cs w) = w_files w /\
  w_stdout (session fileFlag cs w) =
    w_stdout w ++ replicate (length cs) "Enter PIN: ".
Proof.
  intros file Ho Hpin Hempty Hall.
  assert (forall c w1, w_files w1 = w_files w -> Forall (unmatched hash) (w_stdin w1) ->
    let w2 := snd (Sec.Execute fileFlag c w1) in
    w_files w2 = w_files w /\ Forall (unmatched hash) (w_stdin w2) /\
    w_stdout w2 = w_stdout w1 ++ ["Enter PIN: "]) as Hstep.
  { intros c w1 Hf1 Hall1.
    rewrite (Sec_Execute_opens fileFlag c w1 key store) by (by apply (opens_files file w)).
    unfold Sec.requirePIN. rewrite Hpin.
    unfold Sec.promptPIN, bind, fmt_Print, scanner_Scan, ret, fail.
    cbn [w_stdin set_stdout].
    destruct (w_stdin w1) as [|[p|] rest] eqn:Hin.
    - change (bytes_of EmptyString) with (@nil ascii). rewrite Hempty. cbn.
      by rewrite Hin.
    - apply Forall_cons in Hall1 as [Hp Hrest]. cbn in Hp. rewrite Hp. cbn. auto.
    - apply Forall_cons in Hall1 as [_ Hrest]. cbn. auto. }
  unfold session. revert w Ho Hall Hstep.
  induction cs as [|c cs IH]; intros w Ho Hall Hstep.
  - cbn. by rewrite app_nil_r.
  - cbn [fold_left length replicate].
    destruct (Hstep c w eq_refl Hall) as (Hf & Hin & Hout).
    set (w2 := snd (Sec.Execute fileFlag c w)) in *.
    destruct (IH w2) as [IHf IHout].
    + by apply (opens_files file w).
    + exact Hin.
    + intros c' w1 Hf1 Hall1. destruct (Hstep c' w1) as (Hf' & Hin' & Hout'); [congruence|exact Hall1|].
      split; [congruence|]. split; assumption.
    + split; [congruence|]. rewrite IHout, Hout. by rewrite <- app_assoc.
Qed.

Lemma attempts_unmatched hash : forall n w,
  Forall (unmatched hash) (w_stdin w) ->
  exists e w' out,
    Store.attempts n hash w = (Err e, w') /\
    w_files w' = w_files w /\ Forall (unmatched hash) (w_stdin w') /\
    w_stdout w' = w_stdout w ++ out /\ Forall (fun s => s ∈ chatter) out.
Proof.
  assert (forall s, s ∈ chatter -> forall out, Forall (fun s => s ∈ chatter) out ->
            Forall (fun s => s ∈ chatter) (s :: out)) as Hcons by (by constructor).
  assert ("Enter PIN: " ∈ chatter) as Hc1 by (unfold chatter; repeat constructor).
  assert (newline ∈ chatter) as Hc2 by (unfold chatter; repeat constructor).
  assert ("Incorrect PIN." +:+ newline ∈ chatter) as Hc3 by (unfold chatter; repeat constructor).
  induction n as [|n IH]; intros w Hall.
  - exists ErrTooManyAttempts, w, []. cbn. rewrite app_nil_r. auto.
  - cbn [Store.attempts]. unfold bind at 1.
    unfold Store.promptPIN, bind, handle, fmt_Print, fmt_Println, term_ReadPassword,
      fmt_Print, ret, fail.
    cbn [w_stdin set_stdout].
    destruct (w_stdin w) as [|[p|] rest] eqn:Hin.
    + eexists _, _, ["Enter PIN: "; newline]. split; [reflexivity|]. cbn.
      rewrite Hin, <- app_assoc. auto 10.
    + apply Forall_cons in Hall as [Hp Hrest]. cbn in Hp. cbn. rewrite Hp.
      match goal with |- context [Store.attempts n hash ?w1] =>
        destruct (IH w1) as (e & w' & out & Hrun & Hf & Hin' & Hout & Hch); [exact Hrest|]
      end.
      exists e, w', ("Enter PIN: " :: newline :: ("Incorrect PIN." +:+ newline) :: out).
      split; [exact Hrun|]. split; [exact Hf|]. split; [exact Hin'|].
      split; [|auto]. rewrite Hout. cbn. by rewrite <- !app_assoc.
    + apply Forall_cons in Hall as [_ Hrest].
      eexists _, _, ["Enter PIN: "; newline]. split; [reflexivity|]. cbn.
      rewrite <- app_assoc. auto 10.
Qed.

(** At version 0.1.1 too: when no line that will be typed matches the
    verifier, then after any number of invocations no file has changed,
    and nothing has gone to standard output but prompts, new lines and
    "Incorrect PIN.". *)
Theorem session011_without_pin (fileFlag : string) (w : World) (key : bytes)
    (store : SecretStore) (hash : string) (cs : list Sec011.command) :
  opens fileFlag w key store -> store !! pinKey = Some hash ->
  Forall (unmatched hash) (w_stdin w) ->
  w_files (session011 fileFlag cs w) = w_files w /\
  exists out,
    w_stdout (session011 fileFlag cs w) = w_stdout w ++ out /\
    Forall (fun s => s ∈ chatter) out.
Proof.
  intros Ho Hpin Hall.
  assert (forall c w1, w_files w1 = w_files w -> Forall (unmatched hash) (w_stdin w1) ->
    let w2 := snd (Sec011.Execute fileFlag c w1) in
    w_files w2 = w_files w /\ Forall (unmatched hash) (w_stdin w2) /\
    exists out, w_stdout w2 = w_stdout w1 ++ out /\ Forall (fun s => s ∈ chatter) out)
    as Hstep.
  { intros c w1 Hf1 Hall1.
    assert (opens fileFlag w1 key store) as [Hkey1 Hload1]
      by (by apply (opens_files fileFlag w)).
    unfold Sec011.Execute, Sec011.PersistentPreRunE, bind.
    rewrite Hkey1, Hload1, Hpin. unfold Store.requirePIN. rewrite Hpin.
    destruct (attempts_unmatched hash Store.maxAttempts w1 Hall1)
      as (e & w' & out & -> & Hf & Hin & Hout & Hch).
    cbn. split; [congruence|]. eauto. }
  unfold session011. revert w Ho Hall Hstep.
  induction cs as [|c cs IH]; intros w Ho Hall Hstep.
  - cbn. split; [reflexivity|]. exists []. by rewrite app_nil_r.
  - cbn [fold_left].
    destruct (Hstep c w eq_refl Hall) as (Hf & Hin & out1 & Hout1 & Hch1).
    set (w2 := snd (Sec011.Execute fileFlag c w)) in *.
    destruct (IH w2) as (IHf & out2 & IHout & Hch2).
    + by apply (opens_files fileFlag w).
    + exact Hin.
    + intros c' w1 Hf1 Hall1.
      destruct (Hstep c' w1) as (Hf' & Hin' & Hout'); [congruence|exact Hall1|].
      split; [congruence|]. split; assumption.
    + split; [congruence|]. exists (out1 ++ out2).
      rewrite IHout, Hout1, <- app_assoc. split; [reflexivity|].
      by apply Forall_app.
Qed.

(** [set-pin] and [change-pin] want a line: at the end of the input (or
    after a failed read) they stop with "No input", and when bcrypt refuses
    the PIN they stop with its error; no file has changed either way. *)
Theorem pin_commands_need_input (fileFlag : string) (w : World) (key : bytes)
    (store : SecretStore) :
  opens fileFlag w key store ->
  (store !! pinKey = None ->
   (w_stdin w = [] \/ (exists rest, w_stdin w = InputError :: rest) ->
      exists w', Sec.setPinCmd fileFlag w = (Err ErrNoInput, w') /\
        w_files w' = w_files w) /\
   (forall pin rest e,
      w_stdin w = Line pin :: rest -> saltSize <= length (w_entropy w) ->
      bcrypt_hash (take saltSize (w_entropy w)) (bytes_of pin) = Err e ->
      exists w', Sec.setPinCmd fileFlag w = (Err e, w') /\
        w_files w' = w_files w)) /\
  (forall w1, Sec.requirePIN store w = (Ok tt, w1) ->
     w_stdin w1 = [] \/ (exists rest, w_stdin w1 = InputError :: rest) ->
     exists w', Sec.changePinCmd fileFlag w = (Err ErrNoInput, w') /\
       w_files w' = w_files w).
Proof.
  intros [Hkey Hload]. split; [intros Hpin; split|].
  - intros Hin. unfold Sec.setPinCmd.
    unfold bind at 1. rewrite Hkey. unfold bind at 1. rewrite Hload, Hpin.
    unfold bind, fmt_Print, scanner_Scan, fail. cbn [w_stdin set_stdout].
    destruct Hin as [->|[rest ->]]; eauto.
  - intros pin rest e Hin Hent Hhash. unfold Sec.setPinCmd.
    unfold bind at 1. rewrite Hkey. unfold bind at 1. rewrite Hload, Hpin.
    unfold bind at 1. unfold fmt_Print at 1. unfold bind at 1.
    unfold scanner_Scan at 1. cbn [w_stdin set_stdout]. rewrite Hin.
    unfold bind at 1. unfold bcrypt_GenerateFromPassword, bind, lift.
    rewrite rand_Read_ok by exact Hent. cbn [w_entropy set_stdin set_stdout].
    rewrite Hhash. eauto.
  - intros w1 Hreq Hin. pose proof (Sec_requirePIN_files _ _ _ _ Hreq) as Hf.
    unfold Sec.changePinCmd.
    unfold bind at 1. rewrite Hkey. unfold bind at 1. rewrite Hload.
    unfold bind at 1. rewrite Hreq.
    unfold bind, fmt_Print, scanner_Scan, fail. cbn [w_stdin set_stdout].
    destruct Hin as [->|[rest ->]]; eauto.
Qed.

(** *** Plaintext export and import *)

Lemma bytes_of_append a b : bytes_of (a +:+ b) = bytes_of a ++ bytes_of b.
Proof.
  unfold bytes_of. induction a as [|c a IH]; [reflexivity|].
  change (String c a +:+ b) with (String c (a +:+ b)).
  cbn [list_ascii_of_string app]. f_equal. exact IH.
Qed.

(** What [exportPlaintext] prints, [importPlaintext] reads back: for a
    store of valid UTF-8, a file that holds the printed text imports as the
    store itself, the reserved entry included. *)
Theorem export_import_round_trip (store : SecretStore) (w : World) :
  json.ValidStore store = true ->
  exists text,
    Sec.exportPlaintext store w = (Ok tt, set_stdout (w_stdout w ++ [text]) w) /\
    forall path w1 f,
      w_files w1 !! path = Some f -> owner_read f = true ->
      f_data f = bytes_of text ->
      Sec.importPlaintext path w1 = (Ok store, w1).
Proof.
  intros Hv. eexists. split; [reflexivity|].
  intros path w1 f Hf Hr Hdata.
  unfold Sec.importPlaintext, bind, ioutil_ReadFile. rewrite Hf, Hr, Hdata.
  unfold lift. rewrite bytes_of_append, bytes_of_string_of.
  by rewrite json_facts.Unmarshal_MarshalIndent_valid.
Qed.

(** [importPlaintext] changes nothing.  A missing file is an error here
    (not an empty store, as for the vault); its errors are those of the
    read and the one of the JSON decoder; a store it returns is valid
    UTF-8. *)
Theorem importPlaintext_outcomes (path : string) (w : World) :
  snd (Sec.importPlaintext path w) = w /\
  (w_files w !! path = None ->
     fst (Sec.importPlaintext path w) = Err ErrNotExist) /\
  (forall e, fst (Sec.importPlaintext path w) = Err e ->
     e = ErrNotExist \/ e = ErrPermission \/ e = ErrJSON) /\
  (forall store, fst (Sec.importPlaintext path w) = Ok store ->
     json.ValidStore store = true).
Proof.
  unfold Sec.importPlaintext, bind, ioutil_ReadFile, lift.
  destruct (w_files w !! path) as [f|]; [|cbn; intuition congruence].
  destruct (owner_read f); [|cbn; intuition congruence].
  cbn [fst snd]. split; [reflexivity|]. split; [discriminate|]. split.
  - intros e He. apply json_facts.Unmarshal_error in He. auto.
  - intros store. apply json_facts.Unmarshal_valid.
Qed.

End PersistFacts.

(** ** The address picker *)

Section TailscaleFacts.
Import Tailscale.

Lemma range_tags_spec d : forall tags result,
  range_tags d tags result =
  if decide ("tag:sec" ∈ tags) then
    match Addresses d with
    | [] => result
    | a :: _ => append result a
    end
  else result.
Proof.
  induction tags as [|tag tags IH]; intros result.
  - cbn. rewrite decide_False; [reflexivity|]. apply not_elem_of_nil.
  - cbn [range_tags]. destruct (String.eqb tag "tag:sec") eqn:Ht.
    + apply String.eqb_eq in Ht as ->.
      rewrite decide_True by (by left).
      destruct (Addresses d) as [|a l]; cbn [length Nat.ltb Nat.leb andb nth].
      * rewrite IH. by destruct (decide _).
      * reflexivity.
    + apply String.eqb_neq in Ht. cbn [andb]. rewrite IH.
      destruct (decide ("tag:sec" ∈ tags)) as [Hin|Hin].
      * rewrite decide_True by (by right). reflexivity.
      * rewrite decide_False; [reflexivity|].
        intros [?|?]%elem_of_cons; congruence.
Qed.

Lemma range_devices_spec : forall ds result,
  range_devices ds result =
  match flat_map tagged ds with
  | [] => result
  | l => Some (default [] result ++ l)
  end.
Proof.
  induction ds as [|d ds IH]; intros result; [reflexivity|].
  cbn [range_devices flat_map]. rewrite IH, range_tags_spec.
  generalize (flat_map tagged ds). intros fm.
  unfold tagged. destruct (decide _); [|reflexivity].
  destruct (Addresses d) as [|a l]; [reflexivity|].
  unfold append. destruct fm as [|s fm]; cbn; [reflexivity|].
  by rewrite <- app_assoc.
Qed.

(** The two loops collect the first address of every device that carries
    the tag [tag:sec] and has an address, in the order of the devices: one
    address a device, however often it carries the tag.  The result stays
    the nil slice when there is none. *)
Theorem range_devices_collects (ds : list Device) :
  range_devices ds None = to_slice (flat_map tagged ds) /\
  (range_devices ds None = None <->
   forall d, d ∈ ds -> "tag:sec" ∉ Tags d \/ Addresses d = []).
Proof.
  assert (range_devices ds None = to_slice (flat_map tagged ds)) as Hspec.
  { rewrite range_devices_spec. by destruct (flat_map tagged ds). }
  split; [exact Hspec|]. rewrite Hspec.
  assert (to_slice (flat_map tagged ds) = None <-> flat_map tagged ds = []) as ->.
  { destruct (flat_map tagged ds); cbn; split; congruence. }
  clear Hspec. induction ds as [|d ds IH].
  - split; [intros _ d Hd; by apply elem_of_nil in Hd|reflexivity].
  - cbn [flat_map]. split.
    + intros [Hd Hds]%app_eq_nil d' [->|Hin]%elem_of_cons; [|by apply IH].
      unfold tagged in Hd. destruct (decide _); [|by left].
      right. by destruct (Addresses d).
    + intros Hall. apply app_nil. split.
      * destruct (Hall d) as [Hd|Hd]; [by left| |]; unfold tagged.
        -- by rewrite decide_False.
        -- rewrite Hd. by destruct (decide _).
      * apply IH. intros d' Hin. apply Hall. by right.
Qed.

(** What the program prints: the collected addresses as an indented JSON
    array, and [null] (never [[]]) when no device qualifies. *)
Theorem main_prints_addresses `{DevicesJSON} (w : World) (f : File) (devices : Devices) :
  w_files w !! "tailscale.json" = Some f -> owner_read f = true ->
  Unmarshal_Devices (f_data f) = Ok devices ->
  let picked := flat_map tagged (Devices_ devices) in
  let out := json.MarshalIndent_strings (to_slice picked) EmptyString "  " in
  main w = (Ok tt, set_stdout (w_stdout w ++ [string_of out +:+ newline]) w) /\
  (picked = [] -> string_of out = "null") /\
  out <> bytes_of "[]".
Proof.
  intros Hf Hr Hd picked out. split; [|split].
  - unfold main, bind, os_ReadFile, ioutil_ReadFile, lift. rewrite Hf, Hr, Hd.
    rewrite range_devices_spec. fold picked. by destruct picked.
  - unfold out. by intros ->.
  - unfold out. destruct picked as [|a l]; [discriminate|]. cbn. discriminate.
Qed.

End TailscaleFacts.


(** ** The model at work

    The statements above at the stand-ins of [Sim], and the inputs on which
    the unamended claims fail. *)

Module Examples.
Import Sim.

Lemma aead_correct : AEAD_correct.
Proof.
  intros k n p _ _. cbn.
  rewrite (app_assoc k n p).
  rewrite take_app_length', drop_app_length' by (by rewrite length_app).
  by rewrite decide_True.
Qed.

Lemma range_visits : range_visits_keys.
Proof. intros m. reflexivity. Qed.

Lemma gated_opens : opens defaultSecretsFile gated key gated_secrets.
Proof. split; vm_compute; reflexivity. Qed.

Lemma unlocked_opens : opens defaultSecretsFile unlocked key secrets.
Proof. split; vm_compute; reflexivity. Qed.

(** C1, witness: a store of valid UTF-8 comes back as it was. *)
Lemma decrypt_encrypt_valid_witness :
  exists data w', encryptStore secrets key fresh = (Ok data, w') /\
    decryptStore data key = Ok secrets.
Proof.
  apply (decrypt_encrypt_valid secrets key fresh).
  - exact aead_correct.
  - reflexivity.
  - apply Nat.leb_le. reflexivity.
  - vm_compute. reflexivity.
Defined.

(** C1 as stated fails: a value that is the byte [0xFF] is stored and read
    back under the same 32-byte key as U+FFFD. *)
Lemma decrypt_encrypt_garbles_invalid_utf8 :
  exists data w', encryptStore garbled key fresh = (Ok data, w') /\
    length key = 32 /\
    decryptStore data key = Ok {[ "note" := string_of json.replacement ]} /\
    decryptStore data key <> Ok garbled.
Proof.
  eexists _, _. split; [vm_compute; reflexivity|]. split; [reflexivity|].
  split; [vm_compute; reflexivity|].
  intros Heq.
  apply (f_equal (fun r => match r with Ok m => m !! "note" | Err _ => None end)) in Heq.
  vm_compute in Heq. discriminate Heq.
Qed.

(** C2 as stated fails: the vault opens to [secrets]; the device takes no
    more bytes; [saveStore] returns an error, and the vault file is now
    empty and no longer opens. *)
Lemma saveStore_truncates_vault :
  fst (loadStore vault key disk_full) = Ok secrets /\
  fst (saveStore vault (<["api-token" := "t0k3n"]> secrets) key disk_full) = Err ErrWrite /\
  w_files (after (saveStore vault (<["api-token" := "t0k3n"]> secrets) key) disk_full)
    !! vault = Some (mkFile perm_rw_owner []) /\
  fst (loadStore vault key
         (after (saveStore vault (<["api-token" := "t0k3n"]> secrets) key) disk_full))
    = Err ErrCiphertextTooShort.
Proof. repeat split; vm_compute; reflexivity. Qed.

(** C3, witness: no verifier, no prompt; store.go with one wrong attempt
    and then the right one, and with three wrong attempts; the older
    sec.go with the right PIN. *)
Lemma requirePIN_attempts_witness :
  (Store.requirePIN secrets unlocked = (Ok tt, unlocked) /\
   Sec.requirePIN secrets unlocked = (Ok tt, unlocked)) /\
  Store.requirePIN gated_secrets (set_stdin [Line "0000"; Line "1234"] gated) =
    (Ok tt,
     set_stdout
       (w_stdout gated ++ failed_rounds 1 ++ ["Enter PIN: "; newline])
       (set_stdin [] (set_stdin [Line "0000"; Line "1234"] gated))) /\
  Store.requirePIN gated_secrets
      (set_stdin [Line "0000"; Line "1111"; Line "2222"; Line "1234"] gated) =
    (Err ErrTooManyAttempts,
     set_stdout (w_stdout gated ++ failed_rounds 3)
       (set_stdin [Line "1234"]
          (set_stdin [Line "0000"; Line "1111"; Line "2222"; Line "1234"] gated))) /\
  Sec.requirePIN gated_secrets owner =
    (Ok tt,
     set_stdin [Line "4321"] (set_stdout (w_stdout owner ++ ["Enter PIN: "]) owner)).
Proof.
  split; [|split; [|split]].
  - apply (requirePIN_attempts secrets unlocked). reflexivity.
  - apply (requirePIN_attempts gated_secrets
             (set_stdin [Line "0000"; Line "1234"] gated)) with (hash := verifier)
            (wrong := ["0000"]) (pin := "1234").
    + reflexivity.
    + reflexivity.
    + cbn. lia.
    + repeat constructor.
    + reflexivity.
  - apply (requirePIN_attempts gated_secrets
             (set_stdin [Line "0000"; Line "1111"; Line "2222"; Line "1234"] gated))
            with (hash := verifier) (wrong := ["0000"; "1111"; "2222"]).
    + reflexivity.
    + reflexivity.
    + reflexivity.
    + repeat constructor.
  - exact (proj2 (proj2 (proj2 (requirePIN_attempts gated_secrets owner)
                           verifier eq_refl))
             "1234" [Line "4321"] eq_refl).
Defined.

(** C3 as stated fails for the older sec.go: the store holds a verifier
    that [1234] matches and [0000] does not; with [0000] and then [1234]
    typed, [requirePIN] fails at the first line and leaves the second
    unread; with three wrong lines typed it fails in the same way, having
    read one of them, and its error is not "too many incorrect attempts". *)
Lemma sec_requirePIN_gives_one_attempt :
  gated_secrets !! pinKey = Some verifier /\
  bcrypt_matches (bytes_of verifier) (bytes_of "0000") = false /\
  bcrypt_matches (bytes_of verifier) (bytes_of "1234") = true /\
  Sec.requirePIN gated_secrets (typed ["0000"; "1234"] gated) =
    (Err ErrIncorrectPIN,
     set_stdin [Line "1234"]
       (set_stdout (w_stdout gated ++ ["Enter PIN: "]) (typed ["0000"; "1234"] gated))) /\
  Sec.requirePIN gated_secrets (typed ["0000"; "1111"; "2222"] gated) =
    (Err ErrIncorrectPIN,
     set_stdin [Line "1111"; Line "2222"]
       (set_stdout (w_stdout gated ++ ["Enter PIN: "])
          (typed ["0000"; "1111"; "2222"] gated))) /\
  Err ErrIncorrectPIN <> (Err ErrTooManyAttempts : result unit) /\
  Error ErrIncorrectPIN <> Error ErrTooManyAttempts.
Proof. repeat split; try reflexivity; discriminate. Qed.

(** C4, witness: the gated vault and someone who types a wrong PIN. *)
Lemma verifier_guarded_witness :
  w_files (after (Sec.requirePIN gated_secrets) intruder) = w_files intruder /\
  Sec.changePinCmd defaultSecretsFile intruder =
    (Err ErrIncorrectPIN, after (Sec.requirePIN gated_secrets) intruder) /\
  Sec.removePinCmd defaultSecretsFile intruder =
    (Err ErrIncorrectPIN, after (Sec.requirePIN gated_secrets) intruder) /\
  forall c, Sec.Execute EmptyString c intruder =
    (Err ErrIncorrectPIN, after (Sec.requirePIN gated_secrets) intruder).
Proof.
  apply (verifier_guarded_by_requirePIN EmptyString intruder key gated_secrets verifier).
  - split; vm_compute; reflexivity.
  - reflexivity.
  - vm_compute. reflexivity.
Defined.

(** C5, witness: [set-pin] on the gated vault; [change-pin] by the owner;
    store.go's [setPIN] on the gated store with [4321] typed. *)
Lemma setPin_refused_witness :
  Sec.setPinCmd defaultSecretsFile gated =
    (Ok tt,
     set_stdout
       (w_stdout gated ++
        ["PIN already set. Use change-pin or remove-pin instead." +:+ newline]) gated) /\
  (exists hash' w2,
     Sec.changePinCmd defaultSecretsFile owner =
       (_ <- saveStore vault (<[pinKey := string_of hash']> gated_secrets) key ;;
        fmt_Println "PIN changed.") w2) /\
  (exists w2,
     Store.setPIN gated_secrets (typed ["4321"] gated) =
       (Ok (<[pinKey := string_of verifier2]> gated_secrets), w2) /\
     <[pinKey := string_of verifier2]> gated_secrets !! pinKey =
       Some (string_of verifier2)).
Proof.
  split; [|split].
  - apply (setPin_refused_when_set defaultSecretsFile gated key gated_secrets verifier).
    + exact gated_opens.
    + reflexivity.
  - eexists _, _.
    eapply (setPin_refused_when_set defaultSecretsFile owner key gated_secrets verifier).
    + split; vm_compute; reflexivity.
    + reflexivity.
    + vm_compute. reflexivity.
    + reflexivity.
    + vm_compute. reflexivity.
  - eexists.
    eapply (setPin_refused_when_set defaultSecretsFile (typed ["4321"] gated) key
              gated_secrets verifier).
    + split; vm_compute; reflexivity.
    + reflexivity.
    + reflexivity.
    + vm_compute. reflexivity.
Defined.

(** C5 as stated fails.  The vault of [gated] opens to a store that holds
    a verifier.  [set-pin] on it returns no error: its result is the one
    of a command that succeeded.  And store.go's [setPIN] on that store,
    with [4321] typed, returns the store with the verifier overwritten. *)
Lemma setPin_returns_no_error :
  opens defaultSecretsFile gated key gated_secrets /\
  gated_secrets !! pinKey = Some verifier /\
  fst (Sec.setPinCmd defaultSecretsFile gated) = Ok tt /\
  (forall e, fst (Sec.setPinCmd defaultSecretsFile gated) <> Err e) /\
  fst (Store.setPIN gated_secrets (typed ["4321"] gated)) =
    Ok (<[pinKey := string_of verifier2]> gated_secrets) /\
  <[pinKey := string_of verifier2]> gated_secrets !! pinKey <> Some verifier.
Proof.
  split; [exact gated_opens|]. split; [reflexivity|].
  assert (fst (Sec.setPinCmd defaultSecretsFile gated) = Ok tt) as Hset
    by (vm_compute; reflexivity).
  split; [exact Hset|]. split; [intros e; rewrite Hset; discriminate|].
  split; [vm_compute; reflexivity|].
  vm_compute. discriminate.
Qed.

(** C6, witness: the key file in place, the first run, a key file of 31
    bytes. *)
Lemma getOrCreateStaticKey_witness :
  getOrCreateStaticKey unlocked = (Ok key, unlocked) /\
  (exists w' mode,
     getOrCreateStaticKey fresh = (Ok key, w') /\
     length key = 32 /\
     w_files w' = <[expandPath "~/.sec.key" := mkFile mode key]> (w_files fresh) /\
     owner_only mode) /\
  getOrCreateStaticKey short_key = (Err ErrKeyFileLength, short_key).
Proof.
  split; [|split].
  - apply (getOrCreateStaticKey_cases unlocked) with (f := mkFile perm_rw_owner key);
      reflexivity.
  - apply (getOrCreateStaticKey_cases fresh).
    + reflexivity.
    + apply Nat.leb_le. reflexivity.
    + reflexivity.
  - apply (getOrCreateStaticKey_cases short_key)
      with (f := mkFile perm_rw_owner (take 31 entropy)).
    + reflexivity.
    + reflexivity.
    + vm_compute. discriminate.
Defined.




(** C8, witness: the first run. *)
Lemma loadStore_missing_file_witness : loadStore vault key fresh = (Ok ∅, fresh).
Proof. apply (loadStore_missing_file vault key fresh). reflexivity. Defined.

(** C9, witness: the gated vault lists [db-password] only. *)
Lemma listCmd_hides_pinKey_witness :
  listCmd defaultSecretsFile gated =
    (Ok tt,
     set_stdout
       (w_stdout gated ++ map (fun k => k +:+ newline) (listed gated_secrets)) gated) /\
  (pinKey ∉ listed gated_secrets) /\
  forall k, k ∈ listed gated_secrets <-> k <> pinKey /\ is_Some (gated_secrets !! k).
Proof.
  apply (listCmd_hides_pinKey defaultSecretsFile gated key gated_secrets).
  - exact range_visits.
  - exact gated_opens.
Defined.

(** C10, witness. *)
Lemma sentinel_is_ordinary_entry_witness :
  getCmd defaultSecretsFile pinKey gated =
    (Ok tt, set_stdout (w_stdout gated ++ [verifier +:+ newline]) gated) /\
  (forall name, gated_secrets !! name = None ->
     getCmd defaultSecretsFile name gated =
       (Ok tt, set_stdout (w_stdout gated ++ [newline]) gated)) /\
  (forall value,
     setCmd defaultSecretsFile pinKey value gated =
       (_ <- saveStore vault (<[pinKey := value]> gated_secrets) key ;;
        fmt_Println "Secret set.") gated /\
     (<[pinKey := value]> gated_secrets) !! pinKey = Some value) /\
  deleteCmd defaultSecretsFile pinKey gated =
    (_ <- saveStore vault (delete pinKey gated_secrets) key ;;
     fmt_Println "Secret deleted.") gated /\
  delete pinKey gated_secrets !! pinKey = None /\
  (pinKey ∉ listed gated_secrets).
Proof.
  apply (sentinel_is_ordinary_entry defaultSecretsFile gated key gated_secrets verifier).
  - exact gated_opens.
  - reflexivity.
Defined.


(** The older sec.go: one wrong attempt ends it, the right PIN typed after
    it is never read. *)
Lemma sec_requirePIN_asks_once_witness :
  Sec.requirePIN gated_secrets (set_stdin [Line "0000"; Line "1234"] gated) =
    (Err ErrIncorrectPIN,
     set_stdin [Line "1234"]
       (set_stdout (w_stdout gated ++ ["Enter PIN: "])
          (set_stdin [Line "0000"; Line "1234"] gated))).
Proof.
  exact (proj2 (sec_requirePIN_asks_once gated_secrets
                  (set_stdin [Line "0000"; Line "1234"] gated))
           verifier "0000" [Line "1234"] eq_refl eq_refl).
Defined.

(** Version 0.1.1: three wrong attempts and no command runs. *)
Lemma v011_guarded_witness :
  w_files (after (Store.requirePIN gated_secrets)
             (set_stdin [Line "0"; Line "1"; Line "2"] gated)) = w_files gated /\
  forall c,
    Sec011.Execute defaultSecretsFile c (set_stdin [Line "0"; Line "1"; Line "2"] gated) =
    (Err ErrTooManyAttempts,
     after (Store.requirePIN gated_secrets) (set_stdin [Line "0"; Line "1"; Line "2"] gated)).
Proof.
  apply (v011_guarded_by_requirePIN defaultSecretsFile
           (set_stdin [Line "0"; Line "1"; Line "2"] gated) key gated_secrets verifier).
  - split; vm_compute; reflexivity.
  - reflexivity.
  - vm_compute. reflexivity.
Defined.

Lemma setPIN_sets_unconditionally_witness :
  exists hash w2,
    Store.setPIN gated_secrets (set_stdin [Line "4321"] gated) =
      (Ok (<[pinKey := string_of hash]> gated_secrets), w2).
Proof.
  eexists _, _.
  eapply (setPIN_sets_unconditionally gated_secrets (set_stdin [Line "4321"] gated)).
  - reflexivity.
  - vm_compute. reflexivity.
Defined.

Lemma setPinCmd_sets_witness :
  exists hash w2,
    Sec.setPinCmd defaultSecretsFile (set_stdin [Line "1234"] unlocked) =
      (_ <- saveStore vault (<[pinKey := string_of hash]> secrets) key ;;
       fmt_Println "PIN set.") w2.
Proof.
  eexists _, _.
  eapply (setPinCmd_sets defaultSecretsFile (set_stdin [Line "1234"] unlocked) key secrets).
  - split; vm_compute; reflexivity.
  - vm_compute. reflexivity.
  - reflexivity.
  - reflexivity.
  - vm_compute. reflexivity.
Defined.

Lemma deleteCmd_absent_name_witness :
  delete "nothing" secrets = secrets /\
  deleteCmd defaultSecretsFile "nothing" unlocked =
    (_ <- saveStore vault secrets key ;; fmt_Println "Secret deleted.") unlocked.
Proof.
  apply (deleteCmd_absent_name defaultSecretsFile unlocked key secrets "nothing").
  - exact unlocked_opens.
  - reflexivity.
Defined.

Lemma setCmd_persists_witness :
  exists w',
    setCmd defaultSecretsFile "api-token" "t0k3n" unlocked = (Ok tt, w') /\
    opens defaultSecretsFile w' key (<["api-token" := "t0k3n"]> secrets) /\
    getCmd defaultSecretsFile "api-token" w' =
      (Ok tt, set_stdout (w_stdout w' ++ ["t0k3n" +:+ newline]) w').
Proof.
  apply (setCmd_persists defaultSecretsFile "api-token" "t0k3n" unlocked key secrets).
  - exact aead_correct.
  - exact unlocked_opens.
  - vm_compute. reflexivity.
  - vm_compute. discriminate.
  - vm_compute. reflexivity.
  - apply Nat.leb_le. reflexivity.
  - reflexivity.
  - vm_compute. reflexivity.
Defined.

(** *** Further statements at the stand-ins *)

Lemma unlocked_saves : saves defaultSecretsFile unlocked.
Proof.
  split; [vm_compute; discriminate|]. split; [apply Nat.leb_le; reflexivity|].
  split; vm_compute; reflexivity.
Qed.

Lemma gated_typed_opens lines :
  opens defaultSecretsFile (typed lines gated) key gated_secrets.
Proof. by apply (opens_files defaultSecretsFile gated); [exact gated_opens|]. Qed.

Lemma unlocked_typed_opens lines :
  opens defaultSecretsFile (typed lines unlocked) key secrets.
Proof. by apply (opens_files defaultSecretsFile unlocked); [exact unlocked_opens|]. Qed.

Lemma unlocked_key : key_in_place key unlocked.
Proof. eexists. split; [vm_compute; reflexivity|]. repeat split. Qed.

(** Witness: a file beside the vault, in [unlocked]; and the vault file
    itself, which [get], [list] and [version] leave as it is. *)
Lemma commands_write_key_and_vault_only_witness :
  ((forall c, "/home/u/notes" <> expandPath defaultSecretsFile \/ read_only c = true ->
      w_files (snd (Sec.Execute EmptyString c unlocked)) !! "/home/u/notes" =
      w_files unlocked !! "/home/u/notes") /\
   (forall c, "/home/u/notes" <> expandPath EmptyString \/ read_only011 c = true ->
      w_files (snd (Sec011.Execute EmptyString c unlocked)) !! "/home/u/notes" =
      w_files unlocked !! "/home/u/notes")) /\
  w_files (snd (Sec.Execute defaultSecretsFile (Sec.CmdGet "db-password") unlocked))
    !! vault = w_files unlocked !! vault /\
  w_files (snd (Sec011.Execute defaultSecretsFile (Sec011.CmdGet "db-password") unlocked))
    !! vault = w_files unlocked !! vault /\
  w_files (snd (Sec011.Execute defaultSecretsFile Sec011.CmdList unlocked))
    !! vault = w_files unlocked !! vault /\
  w_files (snd (Sec011.Execute defaultSecretsFile Sec011.CmdVersion unlocked))
    !! vault = w_files unlocked !! vault.
Proof.
  assert (vault <> expandPath "~/.sec.key") as Hv by (vm_compute; discriminate).
  split; [|split; [|split; [|split]]].
  - apply (commands_write_key_and_vault_only EmptyString unlocked "/home/u/notes").
    vm_compute. discriminate.
  - apply (commands_write_key_and_vault_only defaultSecretsFile unlocked vault Hv).
    by right.
  - apply (commands_write_key_and_vault_only defaultSecretsFile unlocked vault Hv).
    by right.
  - apply (commands_write_key_and_vault_only defaultSecretsFile unlocked vault Hv).
    by right.
  - apply (commands_write_key_and_vault_only defaultSecretsFile unlocked vault Hv).
    by right.
Defined.

(** Witness: a [set] and a [get] on [unlocked]. *)
Lemma key_never_replaced_witness :
  w_files (session EmptyString [Sec.CmdSet "a" "b"; Sec.CmdGet "a"] unlocked)
    !! expandPath "~/.sec.key" = w_files unlocked !! expandPath "~/.sec.key" /\
  getOrCreateStaticKey (session EmptyString [Sec.CmdSet "a" "b"; Sec.CmdGet "a"] unlocked) =
    (Ok key, session EmptyString [Sec.CmdSet "a" "b"; Sec.CmdGet "a"] unlocked).
Proof.
  apply (key_never_replaced EmptyString key unlocked).
  - exact unlocked_key.
  - vm_compute. discriminate.
Defined.

(** Witness: the store that comes out of the vault of [garbled]. *)
Lemma decrypted_store_is_stable_witness :
  json.ValidStore mended = true /\
  exists data' w',
    encryptStore mended key fresh = (Ok data', w') /\ decryptStore data' key = Ok mended.
Proof.
  apply (decrypted_store_is_stable garbled_vault key mended fresh).
  - exact aead_correct.
  - vm_compute. reflexivity.
  - apply Nat.leb_le. reflexivity.
Defined.

(** Witness: the first run. *)
Lemma getOrCreateStaticKey_returns_key_file_witness :
  length key = 32 /\
  exists f, w_files (after getOrCreateStaticKey fresh) !! expandPath "~/.sec.key" = Some f /\
    f_data f = key.
Proof.
  apply (getOrCreateStaticKey_returns_key_file fresh (after getOrCreateStaticKey fresh) key).
  vm_compute. reflexivity.
Defined.

(** Witness: the first run on a device that takes ten bytes. *)
Lemma key_write_cut_short_witness :
  exists w',
    getOrCreateStaticKey (set_faults [ShortWrite 10] fresh) = (Err ErrWrite, w') /\
    forall w2, w_files w2 = w_files w' ->
      getOrCreateStaticKey w2 = (Err ErrKeyFileLength, w2) /\
      (forall fileFlag c, Sec.Execute fileFlag c w2 = (Err ErrKeyFileLength, w2)) /\
      (forall fileFlag c, Sec011.Execute fileFlag c w2 = (Err ErrKeyFileLength, w2)).
Proof.
  apply (key_write_cut_short (set_faults [ShortWrite 10] fresh) 10).
  - reflexivity.
  - apply Nat.leb_le. reflexivity.
  - reflexivity.
  - lia.
  - reflexivity.
Defined.

(** Witness: a vault file of mode [0644] is still [0644] after a save. *)
Lemma saveStore_keeps_mode_witness :
  f_mode resaved = 0x1A4%N /\ ~ owner_only (f_mode resaved).
Proof.
  split; [|vm_compute; discriminate].
  generalize (saveStore_keeps_mode vault secrets key lax resaved).
  vm_compute. intros Hmode. by apply Hmode.
Defined.

(** Witness: a save on [unlocked] cut short after ten bytes. *)
Lemma truncated_vault_is_refused_witness :
  exists w',
    saveStore vault secrets key (set_faults [ShortWrite 10] unlocked) = (Err ErrWrite, w') /\
    forall key2 w2, length key2 = 32 -> w_files w2 = w_files w' ->
      loadStore vault key2 w2 = (Err ErrCiphertextTooShort, w2).
Proof.
  apply (truncated_vault_is_refused vault secrets key (set_faults [ShortWrite 10] unlocked) 10).
  - reflexivity.
  - apply Nat.leb_le. reflexivity.
  - reflexivity.
  - lia.
  - vm_compute. split; reflexivity.
Defined.

(** Witness: [sec delete db-password] on [unlocked]. *)
Lemma deleteCmd_persists_witness :
  exists w',
    deleteCmd defaultSecretsFile "db-password" unlocked = (Ok tt, w') /\
    opens defaultSecretsFile w' key (delete "db-password" secrets) /\
    getCmd defaultSecretsFile "db-password" w' =
      (Ok tt, set_stdout (w_stdout w' ++ [newline]) w') /\
    forall other value, other <> "db-password" -> secrets !! other = Some value ->
      getCmd defaultSecretsFile other w' =
        (Ok tt, set_stdout (w_stdout w' ++ [value +:+ newline]) w').
Proof.
  apply (deleteCmd_persists defaultSecretsFile "db-password" unlocked key secrets).
  - exact aead_correct.
  - exact unlocked_opens.
  - exact unlocked_saves.
Defined.

(** Witness: [sec set-pin] on [unlocked] with [1234] typed. *)
Lemma setPinCmd_gates_next_run_witness :
  exists w',
    Sec.setPinCmd defaultSecretsFile (typed ["1234"] unlocked) = (Ok tt, w') /\
    opens defaultSecretsFile w' key (<[pinKey := verifier]> secrets) /\
    (Bcrypt_correct -> bcrypt_matches (bytes_of verifier) (bytes_of "1234") = true) /\
    forall c p rest' w3, w_files w3 = w_files w' -> w_stdin w3 = Line p :: rest' ->
      Sec.Execute EmptyString c w3 =
        let w4 := set_stdin rest' (set_stdout (w_stdout w3 ++ ["Enter PIN: "]) w3) in
        if bcrypt_matches (bytes_of verifier) (bytes_of p)
        then Sec.Run defaultSecretsFile c w4 else (Err ErrIncorrectPIN, w4).
Proof.
  apply (setPinCmd_gates_next_run EmptyString (typed ["1234"] unlocked) key secrets
           "1234" [] (bytes_of verifier)
           (after (bcrypt_GenerateFromPassword (bytes_of "1234"))
              (set_stdin []
                 (set_stdout (w_stdout (typed ["1234"] unlocked) ++ ["Enter new PIN: "])
                    (typed ["1234"] unlocked))))).
  - exact aead_correct.
  - exact (unlocked_typed_opens ["1234"]).
  - vm_compute. reflexivity.
  - reflexivity.
  - reflexivity.
  - vm_compute. reflexivity.
  - vm_compute. reflexivity.
  - split; [vm_compute; discriminate|]. split; [apply Nat.leb_le; reflexivity|].
    split; vm_compute; reflexivity.
Defined.

(** Witness: the owner of [gated] changes the PIN to [4321]. *)
Lemma changePinCmd_persists_witness :
  exists w',
    Sec.changePinCmd defaultSecretsFile owner = (Ok tt, w') /\
    opens defaultSecretsFile w' key (<[pinKey := string_of verifier2]> gated_secrets) /\
    (forall name, name <> pinKey ->
       (<[pinKey := string_of verifier2]> gated_secrets) !! name = gated_secrets !! name) /\
    (Bcrypt_correct -> bcrypt_matches verifier2 (bytes_of "4321") = true) /\
    forall c p rest' w3, w_files w3 = w_files w' -> w_stdin w3 = Line p :: rest' ->
      Sec.Execute EmptyString c w3 =
        let w4 := set_stdin rest' (set_stdout (w_stdout w3 ++ ["Enter PIN: "]) w3) in
        if bcrypt_matches verifier2 (bytes_of p)
        then Sec.Run defaultSecretsFile c w4 else (Err ErrIncorrectPIN, w4).
Proof.
  apply (changePinCmd_persists EmptyString owner key gated_secrets
           (after (Sec.requirePIN gated_secrets) owner) "4321" [] verifier2
           (after (bcrypt_GenerateFromPassword (bytes_of "4321"))
              (set_stdin []
                 (set_stdout
                    (w_stdout (after (Sec.requirePIN gated_secrets) owner) ++
                     ["Enter new PIN: "])
                    (after (Sec.requirePIN gated_secrets) owner))))).
  - exact aead_correct.
  - exact (gated_typed_opens ["1234"; "4321"]).
  - vm_compute. reflexivity.
  - vm_compute. reflexivity.
  - reflexivity.
  - vm_compute. reflexivity.
  - vm_compute. reflexivity.
  - split; [vm_compute; discriminate|]. split; [apply Nat.leb_le; reflexivity|].
    split; vm_compute; reflexivity.
Defined.

(** Witness: the owner of [gated] removes the PIN. *)
Lemma removePinCmd_unlocks_witness :
  exists w',
    Sec.removePinCmd defaultSecretsFile (typed ["1234"] gated) = (Ok tt, w') /\
    opens defaultSecretsFile w' key (delete pinKey gated_secrets) /\
    (forall name, name <> pinKey ->
       delete pinKey gated_secrets !! name = gated_secrets !! name) /\
    forall c w2, w_files w2 = w_files w' ->
      Sec.Execute EmptyString c w2 = Sec.Run defaultSecretsFile c w2.
Proof.
  apply (removePinCmd_unlocks EmptyString (typed ["1234"] gated) key gated_secrets
           (after (Sec.requirePIN gated_secrets) (typed ["1234"] gated))).
  - exact aead_correct.
  - exact (gated_typed_opens ["1234"]).
  - vm_compute. reflexivity.
  - split; [vm_compute; discriminate|]. split; [apply Nat.leb_le; reflexivity|].
    split; vm_compute; reflexivity.
Defined.

(** Witness: [sec change-pin] with the PIN and then the new PIN typed. *)
Lemma pin_commands_ask_twice_witness :
  let w2 :=
    set_stdin [] (set_stdout (w_stdout owner ++ ["Enter PIN: "; "Enter PIN: "]) owner) in
  Sec.Execute EmptyString Sec.CmdChangePin owner = (Err ErrIncorrectPIN, w2) /\
  Sec.Execute EmptyString Sec.CmdRemovePin owner = (Err ErrIncorrectPIN, w2) /\
  w_files w2 = w_files owner.
Proof.
  apply (pin_commands_ask_twice EmptyString owner key gated_secrets verifier "1234" "4321" []).
  - exact (gated_typed_opens ["1234"; "4321"]).
  - reflexivity.
  - reflexivity.
  - vm_compute. reflexivity.
  - vm_compute. reflexivity.
Defined.

(** Witness: a wrong PIN and then the end of the input. *)
Lemma requirePIN_stops_at_input_end_witness :
  let printed :=
    w_stdout gated ++ failed_rounds 1 ++ ["Enter PIN: "; newline] in
  (w_stdin (typed ["0000"] gated) = map Line ["0000"] ->
     Store.requirePIN gated_secrets (typed ["0000"] gated) =
       (Err ErrEOF, set_stdout printed (set_stdin [] (typed ["0000"] gated)))) /\
  (forall rest, w_stdin (typed ["0000"] gated) = map Line ["0000"] ++ InputError :: rest ->
     Store.requirePIN gated_secrets (typed ["0000"] gated) =
       (Err ErrInput, set_stdout printed (set_stdin rest (typed ["0000"] gated)))).
Proof.
  apply (requirePIN_stops_at_input_end gated_secrets (typed ["0000"] gated) verifier ["0000"]).
  - reflexivity.
  - cbn. lia.
  - repeat constructor.
Defined.

(** Witness: [gated] with nothing typed. *)
Lemma sec_requirePIN_at_end_of_input_witness :
  (w_stdin gated = [] ->
     Sec.requirePIN gated_secrets gated =
       (if bcrypt_matches (bytes_of verifier) [] then Ok tt else Err ErrIncorrectPIN,
        set_stdout (w_stdout gated ++ ["Enter PIN: "]) gated)) /\
  (forall rest, w_stdin gated = InputError :: rest ->
     Sec.requirePIN gated_secrets gated =
       (Err ErrInput, set_stdin rest (set_stdout (w_stdout gated ++ ["Enter PIN: "]) gated))).
Proof.
  apply (sec_requirePIN_at_end_of_input gated_secrets gated verifier). reflexivity.
Defined.

(** Witness: a wrong PIN and then the right one. *)
Lemma v011_runs_after_correct_pin_witness :
  let w1 :=
    set_stdout (w_stdout gated ++ failed_rounds 1 ++ ["Enter PIN: "; newline])
      (set_stdin [] (typed ["0000"; "1234"] gated)) in
  w_files w1 = w_files (typed ["0000"; "1234"] gated) /\
  forall c, Sec011.Execute defaultSecretsFile c (typed ["0000"; "1234"] gated) =
            Sec011.Run defaultSecretsFile c w1.
Proof.
  apply (v011_runs_after_correct_pin defaultSecretsFile (typed ["0000"; "1234"] gated)
           key gated_secrets verifier ["0000"] "1234" []).
  - exact (gated_typed_opens ["0000"; "1234"]).
  - reflexivity.
  - reflexivity.
  - cbn. lia.
  - repeat constructor.
  - vm_compute. reflexivity.
Defined.

(** Witness: [sec version] on [fresh]. *)
Lemma first_run_creates_key_witness :
  exists mode,
    owner_only mode /\
    let w1 :=
      set_faults (tl (w_faults fresh))
        (set_files
           (<[expandPath "~/.sec.key" := mkFile mode (take 32 (w_entropy fresh))]>
              (w_files fresh))
           (set_entropy (drop 32 (w_entropy fresh)) fresh)) in
    Sec011.Execute defaultSecretsFile Sec011.CmdVersion fresh =
      (Ok tt, set_stdout (w_stdout fresh ++ ["sec version 0.1.1" +:+ newline]) w1) /\
    forall name,
      Sec011.Execute defaultSecretsFile (Sec011.CmdGet name) fresh =
        (Ok tt, set_stdout (w_stdout fresh ++ [newline]) w1).
Proof.
  apply (first_run_creates_key defaultSecretsFile fresh).
  - reflexivity.
  - reflexivity.
  - vm_compute. discriminate.
  - apply Nat.leb_le. reflexivity.
  - reflexivity.
  - reflexivity.
Defined.

(** Witness: [unlocked]. *)
Lemma copies_agree_without_pin_witness :
  (forall name value,
     Sec.Execute defaultSecretsFile (Sec.CmdSet name value) unlocked =
       setCmd defaultSecretsFile name value unlocked /\
     Sec011.Execute defaultSecretsFile (Sec011.CmdSet name value) unlocked =
       setCmd defaultSecretsFile name value unlocked) /\
  (forall name,
     Sec.Execute defaultSecretsFile (Sec.CmdGet name) unlocked =
       getCmd defaultSecretsFile name unlocked /\
     Sec011.Execute defaultSecretsFile (Sec011.CmdGet name) unlocked =
       getCmd defaultSecretsFile name unlocked) /\
  (forall name,
     Sec.Execute defaultSecretsFile (Sec.CmdDelete name) unlocked =
       deleteCmd defaultSecretsFile name unlocked /\
     Sec011.Execute defaultSecretsFile (Sec011.CmdDelete name) unlocked =
       deleteCmd defaultSecretsFile name unlocked) /\
  Sec.Execute defaultSecretsFile Sec.CmdList unlocked = listCmd defaultSecretsFile unlocked /\
  Sec011.Execute defaultSecretsFile Sec011.CmdList unlocked =
    listCmd defaultSecretsFile unlocked.
Proof.
  apply (copies_agree_without_pin defaultSecretsFile unlocked key secrets).
  - discriminate.
  - exact unlocked_opens.
  - reflexivity.
Defined.

(** Witness: three invocations on [gated] by someone who tries [0000] and
    [1111]. *)
Lemma session_without_pin_witness :
  w_files (session EmptyString [Sec.CmdGet "db-password"; Sec.CmdRemovePin; Sec.CmdList]
             (typed ["0000"; "1111"] gated)) = w_files (typed ["0000"; "1111"] gated) /\
  w_stdout (session EmptyString [Sec.CmdGet "db-password"; Sec.CmdRemovePin; Sec.CmdList]
              (typed ["0000"; "1111"] gated)) =
    w_stdout (typed ["0000"; "1111"] gated) ++ replicate 3 "Enter PIN: ".
Proof.
  apply (session_without_pin EmptyString (typed ["0000"; "1111"] gated) key gated_secrets
           verifier [Sec.CmdGet "db-password"; Sec.CmdRemovePin; Sec.CmdList]).
  - exact (gated_typed_opens ["0000"; "1111"]).
  - reflexivity.
  - vm_compute. reflexivity.
  - repeat constructor.
Defined.

(** Witness: the same at version 0.1.1. *)
Lemma session011_without_pin_witness :
  w_files (session011 defaultSecretsFile [Sec011.CmdGet "db-password"; Sec011.CmdList]
             (typed ["0000"; "1111"] gated)) = w_files (typed ["0000"; "1111"] gated) /\
  exists out,
    w_stdout (session011 defaultSecretsFile [Sec011.CmdGet "db-password"; Sec011.CmdList]
                (typed ["0000"; "1111"] gated)) =
      w_stdout (typed ["0000"; "1111"] gated) ++ out /\
    Forall (fun s => s ∈ chatter) out.
Proof.
  apply (session011_without_pin defaultSecretsFile (typed ["0000"; "1111"] gated) key
           gated_secrets verifier).
  - exact (gated_typed_opens ["0000"; "1111"]).
  - reflexivity.
  - repeat constructor.
Defined.

(** Witness: [unlocked] with nothing typed. *)
Lemma pin_commands_need_input_witness :
  (secrets !! pinKey = None ->
   (w_stdin unlocked = [] \/ (exists rest, w_stdin unlocked = InputError :: rest) ->
      exists w', Sec.setPinCmd defaultSecretsFile unlocked = (Err ErrNoInput, w') /\
        w_files w' = w_files unlocked) /\
   (forall pin rest e,
      w_stdin unlocked = Line pin :: rest -> saltSize <= length (w_entropy unlocked) ->
      bcrypt_hash (take saltSize (w_entropy unlocked)) (bytes_of pin) = Err e ->
      exists w', Sec.setPinCmd defaultSecretsFile unlocked = (Err e, w') /\
        w_files w' = w_files unlocked)) /\
  (forall w1, Sec.requirePIN secrets unlocked = (Ok tt, w1) ->
     w_stdin w1 = [] \/ (exists rest, w_stdin w1 = InputError :: rest) ->
     exists w', Sec.changePinCmd defaultSecretsFile unlocked = (Err ErrNoInput, w') /\
       w_files w' = w_files unlocked).
Proof.
  apply (pin_commands_need_input defaultSecretsFile unlocked key secrets).
  exact unlocked_opens.
Defined.

(** Witness: the gated store, exported and read back. *)
Lemma export_import_round_trip_witness :
  exists text,
    Sec.exportPlaintext gated_secrets fresh =
      (Ok tt, set_stdout (w_stdout fresh ++ [text]) fresh) /\
    forall path w1 f,
      w_files w1 !! path = Some f -> owner_read f = true ->
      f_data f = bytes_of text ->
      Sec.importPlaintext path w1 = (Ok gated_secrets, w1).
Proof.
  apply (export_import_round_trip gated_secrets fresh). vm_compute. reflexivity.
Defined.

(** Witness: four devices, two of them with the tag and an address. *)
Lemma main_prints_addresses_witness :
  let picked := flat_map Tailscale.tagged (Tailscale.Devices_ tailnet) in
  let out := json.MarshalIndent_strings (Tailscale.to_slice picked) EmptyString "  " in
  picked = ["100.64.0.1"; "100.64.0.4"] /\
  Tailscale.main with_tailnet =
    (Ok tt, set_stdout (w_stdout with_tailnet ++ [string_of out +:+ newline]) with_tailnet) /\
  (picked = [] -> string_of out = "null") /\
  out <> bytes_of "[]".
Proof.
  split; [reflexivity|].
  apply (main_prints_addresses with_tailnet (mkFile 0x1A4 tailscale_json) tailnet).
  - reflexivity.
  - reflexivity.
  - reflexivity.
Defined.

End Examples.
